(** * crocoddyl: the box-constrained QP kernel (core/solvers/box-qp.hxx)

    A shallow embedding of [BoxQP::BoxQP] and [BoxQP::solve].

    Scalars.  The source computes with [double].  The kernel is embedded
    twice, definition by definition the same.

    The first embedding computes with exact rationals [Q], and every
    comparison of the source ([==], [<], [<=], [>], [!=]) is the comparison
    of the values.  It carries the statements of linear algebra (the Newton
    direction, the descent of the objective, the partition), read of the
    numbers the doubles stand for: rounding, infinities and NaN are outside
    it.  Every concrete input used with it is a small dyadic rational.

    The second embedding, [Float64], computes with binary64 values (the
    primitive floats, IEEE 754 double precision) and their operations and
    comparisons.  It carries the statements in which the special values of
    the arguments matter: what [std::min] and [std::max] do with a NaN, and
    which iterates the line search can accept.

    Solver object.  The members of [BoxQP] that carry a value from one
    statement to a later one are fields of a record that [solve] threads
    through; the reduced quantities ([qf_], [xf_], [xc_], [dxf_], [Hff_],
    [Hfc_], [Hff_inv_llt_], [nf_], [nc_]) are resized and overwritten in
    every iteration before they are read, and appear as local bindings. *)

From Stdlib Require Import String DecimalString.
From Stdlib Require Import List Arith Bool Lia.
From Stdlib Require Import QArith Qabs Lqa.
From Stdlib Require Import Floats.
Import ListNotations.

Local Open Scope Q_scope.

(** ** Scalars *)

(** [a < b] on values. *)
Definition Qltb (a b : Q) : bool := negb (Qle_bool b a).

(** [std::max(a, b)] is [(a < b) ? b : a]. *)
Definition std_max (a b : Q) : Q := if Qltb a b then b else a.

(** [std::min(a, b)] is [(b < a) ? b : a]. *)
Definition std_min (a b : Q) : Q := if Qltb b a then b else a.

(** ** The dense linear algebra the kernel calls (Eigen) *)

Module Eigen.

(** [Eigen::VectorXd]: the coefficients in order. *)
Definition VectorXd := list Q.

(** [v(i)].  Eigen does not check the index; the kernel only reads inside
    the vector, and the model reads 0 outside. *)
Definition at_ (v : VectorXd) (i : nat) : Q := nth i v 0.

(** [v(i) = a] in place; outside the vector, where Eigen's behaviour is
    undefined, the model leaves [v] as it is. *)
Fixpoint set_at (v : VectorXd) (i : nat) (a : Q) : VectorXd :=
  match v, i with
  | [], _ => []
  | _ :: v', O => a :: v'
  | b :: v', S i' => b :: set_at v' i' a
  end.

(** [v.setZero()]: same size, every coefficient 0. *)
Definition setZero (v : VectorXd) : VectorXd := map (fun _ => 0) v.

(** [Eigen::MatrixXd]: the two dimensions and the rows of coefficients. *)
Record MatrixXd := mkMatrixXd {
  rows : nat;
  cols : nat;
  coeffs : list (list Q)
}.

(** [M(i, j)]. *)
Definition coeff (M : MatrixXd) (i j : nat) : Q := nth j (nth i (coeffs M) []) 0.

(** The default-constructed matrix, 0 by 0. *)
Definition empty_matrix : MatrixXd := mkMatrixXd 0 0 [].

(** [a.dot(b)]. *)
Fixpoint dot (a b : VectorXd) : Q :=
  match a, b with
  | x :: a', y :: b' => x * y + dot a' b'
  | _, _ => 0
  end.

(** [M * v], one dot product per row. *)
Definition mat_vec (M : list (list Q)) (v : VectorXd) : VectorXd :=
  map (fun r => dot r v) M.

(** Coefficient-wise [a + b], [a - b], [-a] and [c * a]. *)
Fixpoint vadd (a b : VectorXd) : VectorXd :=
  match a, b with
  | x :: a', y :: b' => (x + y) :: vadd a' b'
  | _, _ => []
  end.

Fixpoint vsub (a b : VectorXd) : VectorXd :=
  match a, b with
  | x :: a', y :: b' => (x - y) :: vsub a' b'
  | _, _ => []
  end.

Definition vopp (a : VectorXd) : VectorXd := map Qopp a.

Definition vscale (c : Q) (a : VectorXd) : VectorXd := map (Qmult c) a.

(** [v.lpNorm<Eigen::Infinity>()]: the largest absolute value of a
    coefficient, 0 for the empty vector. *)
Fixpoint lpNorm_Infinity (v : VectorXd) : Q :=
  match v with
  | [] => 0
  | x :: v' => std_max (Qabs x) (lpNorm_Infinity v')
  end.

(** [M.diagonal().array() += reg]: row [i] has [reg] added at column [i];
    [k] is the index of the first row of [A]. *)
Fixpoint add_diagonal_from (k : nat) (reg : Q) (A : list (list Q)) : list (list Q) :=
  match A with
  | [] => []
  | r :: A' => set_at r k (at_ r k + reg) :: add_diagonal_from (S k) reg A'
  end.

Definition add_diagonal (reg : Q) (M : MatrixXd) : MatrixXd :=
  mkMatrixXd (rows M) (cols M) (add_diagonal_from 0 reg (coeffs M)).

(** [setIdentity(n, n)]. *)
Definition Identity (n : nat) : list (list Q) :=
  map (fun i => map (fun j => if Nat.eqb i j then 1 else 0) (seq 0 n)) (seq 0 n).

(** Column [j] of a matrix given by its rows, and the transpose of a
    matrix with [n] columns. *)
Definition column (A : list (list Q)) (j : nat) : VectorXd := map (fun r => at_ r j) A.

Definition transpose (n : nat) (A : list (list Q)) : list (list Q) :=
  map (column A) (seq 0 n).

(** *** [Eigen::LLT<MatrixXd>] (lower triangle)

    The Cholesky factorization [A = L L^T] reads the lower triangle of [A]
    and goes through the pivots [A(k,k) - |L(k,0..k-1)|^2]; it stops with
    [NumericalIssue] at the first pivot that is not positive.  In exact
    arithmetic these pivots are the pivots of the elimination below, which
    keeps [L D L^T] (no square root is taken) and removes the first row and
    column at each step; [solveInPlace] is the forward and backward
    substitution with the factor. *)

Inductive ComputationInfo := Success | NumericalIssue.

(** The factor: the pivot of each step and the column below it. *)
Inductive factor :=
| FNil
| FCons (pivot : Q) (below : VectorXd) (rest : factor).

(** The block left after one step: [C(i,j) - b(i) * b(j) / a], row by row. *)
Definition schur_row (a bi : Q) (b c : VectorXd) : VectorXd :=
  map (fun bj_c => snd bj_c - bi * fst bj_c / a) (combine b c).

Definition schur (a : Q) (b : VectorXd) (C : list (list Q)) : list (list Q) :=
  map (fun bi_r => schur_row a (fst bi_r) b (snd bi_r)) (combine b C).

Fixpoint factorize (n : nat) (A : list (list Q)) : option factor :=
  match n with
  | O => Some FNil
  | S n' =>
      let a := at_ (nth 0%nat A []) 0 in
      if Qle_bool a 0 then None
      else
        let b := map (fun r => hd 0 r) (tl A) in
        let C := map (@tl Q) (tl A) in
        match factorize n' (schur a b C) with
        | Some F => Some (FCons a b F)
        | None => None
        end
  end.

Record LLT := mkLLT {
  info : ComputationInfo;
  matrixLLT : factor
}.

(** [LLT(n)] followed by [compute(M)]. *)
Definition compute (M : MatrixXd) : LLT :=
  match factorize (rows M) (coeffs M) with
  | Some F => mkLLT Success F
  | None => mkLLT NumericalIssue FNil
  end.

(** [solveInPlace] on one right-hand side. *)
Fixpoint solve_factor (F : factor) (y : VectorXd) : VectorXd :=
  match F with
  | FNil => []
  | FCons a b F' =>
      let y0 := hd 0 y in
      let x1 := solve_factor F' (vsub (tl y) (vscale (y0 / a) b)) in
      ((y0 - dot b x1) / a) :: x1
  end.

Definition solveInPlace (llt : LLT) (y : VectorXd) : VectorXd :=
  solve_factor (matrixLLT llt) y.

(** [solveInPlace] on a matrix with [n] columns, column by column. *)
Definition solveInPlace_matrix (llt : LLT) (n : nat) (B : list (list Q)) : list (list Q) :=
  transpose n (map (fun j => solveInPlace llt (column B j)) (seq 0 n)).

End Eigen.

(** ** The solver object *)

Import Eigen.

(** [crocoddyl::Exception], as raised by the macro [throw_pretty]: the
    message is what tells one failure from another. *)
Inductive Exception := throw_pretty (msg : string).

(** [std::to_string] on a [std::size_t]. *)
Definition to_string (n : nat) : string := NilEmpty.string_of_uint (Nat.to_uint n).

(** [BoxQPSolution]. *)
Record BoxQPSolution := mkBoxQPSolution {
  Hff_inv : MatrixXd;
  x : VectorXd;
  free_idx : list nat;
  clamped_idx : list nat
}.

Record BoxQP := mkBoxQP {
  nx_ : nat;
  maxiter_ : nat;
  th_acceptstep_ : Q;
  th_grad_ : Q;
  reg_ : Q;
  solution_ : BoxQPSolution;
  free_idx_ : list nat;
  clamped_idx_ : list nat;
  alphas_ : list Q;
  x_ : VectorXd;
  xnew_ : VectorXd;
  g_ : VectorXd;
  dx_ : VectorXd;
  Hff_inv_ : MatrixXd
}.

Definition with_solution (s : BoxQP) (v : BoxQPSolution) : BoxQP :=
  mkBoxQP (nx_ s) (maxiter_ s) (th_acceptstep_ s) (th_grad_ s) (reg_ s) v
          (free_idx_ s) (clamped_idx_ s) (alphas_ s) (x_ s) (xnew_ s) (g_ s) (dx_ s)
          (Hff_inv_ s).

Definition with_idx (s : BoxQP) (cl fr : list nat) : BoxQP :=
  mkBoxQP (nx_ s) (maxiter_ s) (th_acceptstep_ s) (th_grad_ s) (reg_ s) (solution_ s)
          fr cl (alphas_ s) (x_ s) (xnew_ s) (g_ s) (dx_ s) (Hff_inv_ s).

Definition with_x (s : BoxQP) (v : VectorXd) : BoxQP :=
  mkBoxQP (nx_ s) (maxiter_ s) (th_acceptstep_ s) (th_grad_ s) (reg_ s) (solution_ s)
          (free_idx_ s) (clamped_idx_ s) (alphas_ s) v (xnew_ s) (g_ s) (dx_ s)
          (Hff_inv_ s).

Definition with_xnew (s : BoxQP) (v : VectorXd) : BoxQP :=
  mkBoxQP (nx_ s) (maxiter_ s) (th_acceptstep_ s) (th_grad_ s) (reg_ s) (solution_ s)
          (free_idx_ s) (clamped_idx_ s) (alphas_ s) (x_ s) v (g_ s) (dx_ s)
          (Hff_inv_ s).

Definition with_g (s : BoxQP) (v : VectorXd) : BoxQP :=
  mkBoxQP (nx_ s) (maxiter_ s) (th_acceptstep_ s) (th_grad_ s) (reg_ s) (solution_ s)
          (free_idx_ s) (clamped_idx_ s) (alphas_ s) (x_ s) (xnew_ s) v (dx_ s)
          (Hff_inv_ s).

Definition with_dx (s : BoxQP) (v : VectorXd) : BoxQP :=
  mkBoxQP (nx_ s) (maxiter_ s) (th_acceptstep_ s) (th_grad_ s) (reg_ s) (solution_ s)
          (free_idx_ s) (clamped_idx_ s) (alphas_ s) (x_ s) (xnew_ s) (g_ s) v
          (Hff_inv_ s).

Definition with_Hff_inv (s : BoxQP) (M : MatrixXd) : BoxQP :=
  mkBoxQP (nx_ s) (maxiter_ s) (th_acceptstep_ s) (th_grad_ s) (reg_ s) (solution_ s)
          (free_idx_ s) (clamped_idx_ s) (alphas_ s) (x_ s) (xnew_ s) (g_ s) (dx_ s) M.

(** [BoxQP::BoxQP]: the vectors get size [nx] (Eigen leaves their
    coefficients unset; the model starts them at 0), the index lists are
    empty, the solution and [Hff_inv_] are default-constructed, and the
    step lengths are [1 / pow(2, n)] for [n = 0 .. 9]. *)
Definition n_alphas_ : nat := 10.

Definition BoxQP_BoxQP (nx maxiter : nat) (th_acceptstep th_grad reg : Q) : BoxQP :=
  mkBoxQP nx maxiter th_acceptstep th_grad reg
          (mkBoxQPSolution empty_matrix [] [] [])
          [] []
          (map (fun n => 1 / Qpower 2 (Z.of_nat n)) (seq 0 n_alphas_))
          (repeat 0 nx) (repeat 0 nx) (repeat 0 nx) (repeat 0 nx)
          empty_matrix.

(** ** [BoxQP::solve], block by block *)

(** The argument checks, in the order of the source; the first that fails
    gives the exception. *)
Definition check_dimensions (nx : nat) (H : MatrixXd) (q lb ub xinit : VectorXd)
  : option Exception :=
  if negb (rows H =? nx)%nat || negb (cols H =? nx)%nat then
    Some (throw_pretty ("Invalid argument: " ++ "H has wrong dimension (it should be "
                        ++ to_string nx ++ "," ++ to_string nx ++ ")")%string)
  else if negb (length q =? nx)%nat then
    Some (throw_pretty ("Invalid argument: " ++ "q has wrong dimension (it should be "
                        ++ to_string nx ++ ")")%string)
  else if negb (length lb =? nx)%nat then
    Some (throw_pretty ("Invalid argument: " ++ "lb has wrong dimension (it should be "
                        ++ to_string nx ++ ")")%string)
  else if negb (length ub =? nx)%nat then
    Some (throw_pretty ("Invalid argument: " ++ "ub has wrong dimension (it should be "
                        ++ to_string nx ++ ")")%string)
  else if negb (length xinit =? nx)%nat then
    Some (throw_pretty ("Invalid argument: " ++ "xinit has wrong dimension (it should be "
                        ++ to_string nx ++ ")")%string)
  else None.

(** [for (i = 0; i < n; ++i) v(i) = f(i)]. *)
Definition assign_loop (f : nat -> Q) (n : nat) (v : VectorXd) : VectorXd :=
  fold_left (fun w i => set_at w i (f i)) (seq 0 n) v.

(** The point [v] moved into the box, one coordinate:
    [std::max(std::min(v, ub(i)), lb(i))]. *)
Definition clip (lb ub : VectorXd) (i : nat) (v : Q) : Q :=
  std_max (std_min v (at_ ub i)) (at_ lb i).

(** Lines 60-62: the feasible warm start. *)
Definition warm_start (s : BoxQP) (lb ub xinit : VectorXd) : BoxQP :=
  with_x s (assign_loop (fun i => clip lb ub i (at_ xinit i)) (nx_ s) (x_ s)).

(** Lines 69-70: [g_ = q; g_.noalias() += H * x_]. *)
Definition gradient (H : MatrixXd) (q xk : VectorXd) : VectorXd :=
  vadd q (mat_vec (coeffs H) xk).

(** Line 76: the test that clamps coordinate [j]. *)
Definition is_clamped (xk g lb ub : VectorXd) (j : nat) : bool :=
  (Qeq_bool (at_ xk j) (at_ lb j) && Qltb 0 (at_ g j))
  || (Qeq_bool (at_ xk j) (at_ ub j) && Qltb (at_ g j) 0).

(** Lines 71-81: the loop over the coordinates, [push_back] on one of the
    two lists. *)
Fixpoint partition_loop (xk g lb ub : VectorXd) (js : list nat) (cl fr : list nat)
  : list nat * list nat :=
  match js with
  | [] => (cl, fr)
  | j :: js' =>
      if is_clamped xk g lb ub j
      then partition_loop xk g lb ub js' (cl ++ [j]) fr
      else partition_loop xk g lb ub js' cl (fr ++ [j])
  end.

(** The block of [H] on rows [ri] and columns [ci]. *)
Definition block (H : MatrixXd) (ri ci : list nat) : MatrixXd :=
  mkMatrixXd (length ri) (length ci)
             (map (fun i => map (fun j => coeff H i j) ci) ri).

(** Lines 88-97 and 119-136: [Hff_], with [reg_] on its diagonal when
    [reg_ != 0]. *)
Definition Hff_reg (reg : Q) (H : MatrixXd) (fr : list nat) : MatrixXd :=
  let Hff := block H fr fr in
  if negb (Qeq_bool reg 0) then add_diagonal reg Hff else Hff.

(** Lines 104-105 and 143-144: [Hff_inv_]. *)
Definition inverse_of (llt : LLT) (nf : nat) : MatrixXd :=
  mkMatrixXd nf nf (solveInPlace_matrix llt nf (Identity nf)).

(** Lines 145-150: [dxf_ = -qf_; if (nc_ != 0) dxf_ -= Hfc_ * xc_;
    solveInPlace(dxf_); dxf_ -= xf_]. *)
Definition reduced_rhs (H : MatrixXd) (q xk : VectorXd) (cl fr : list nat) : VectorXd :=
  let qf := map (at_ q) fr in
  let xc := map (at_ xk) cl in
  let Hfc := block H fr cl in
  if negb (length cl =? 0)%nat
  then vsub (vopp qf) (mat_vec (coeffs Hfc) xc)
  else vopp qf.

Definition newton_dxf (llt : LLT) (H : MatrixXd) (q xk : VectorXd) (cl fr : list nat)
  : VectorXd :=
  let xf := map (at_ xk) fr in
  vsub (solveInPlace llt (reduced_rhs H q xk cl fr)) xf.

(** Lines 151-154: [dx_.setZero()], then [dx_(free_idx_[i]) = dxf_(i)]. *)
Definition scatter (fr : list nat) (dxf dx : VectorXd) : VectorXd :=
  fold_left (fun w i => set_at w (nth i fr 0%nat) (at_ dxf i))
            (seq 0 (length fr)) (setZero dx).

(** Lines 166 and 172: [0.5 * x.dot(H * x) + q.dot(x)]. *)
Definition objective (H : MatrixXd) (q v : VectorXd) : Q :=
  (1 # 2) * dot v (mat_vec (coeffs H) v) + dot q v.

(** Lines 169-171: the trial point for one step length, written into
    [xnew_]. *)
Definition trial_point (lb ub : VectorXd) (steplength : Q) (s : BoxQP) : VectorXd :=
  assign_loop (fun i => clip lb ub i (at_ (x_ s) i + steplength * at_ (dx_ s) i))
              (nx_ s) (xnew_ s).

(** Line 173: the acceptance test. *)
Definition accepts (H : MatrixXd) (q : VectorXd) (th_acceptstep fold : Q)
           (g xk xnew : VectorXd) : bool :=
  Qltb (th_acceptstep * dot g (vsub xk xnew)) (fold - objective H q xnew).

(** Lines 167-177: the loop over the step lengths, left by [break] at the
    first accepted trial point. *)
Fixpoint line_search (H : MatrixXd) (q lb ub : VectorXd) (fold : Q)
         (alphas : list Q) (s : BoxQP) : BoxQP :=
  match alphas with
  | [] => s
  | steplength :: alphas' =>
      let s1 := with_xnew s (trial_point lb ub steplength s) in
      if accepts H q (th_acceptstep_ s1) fold (g_ s1) (x_ s1) (xnew_ s1)
      then with_x s1 (xnew_ s1)
      else line_search H q lb ub fold alphas' s1
  end.

(** Lines 107-111, 158-162 and 179-183: the solution is filled from the
    members and returned. *)
Definition store_solution (s : BoxQP) : BoxQP :=
  with_solution s (mkBoxQPSolution (Hff_inv_ s) (x_ s) (free_idx_ s) (clamped_idx_ s)).

(** What one pass through the body of the loop over [k] does: it falls
    through to the next [k], returns, or throws. *)
Inductive flow :=
| Continue (s : BoxQP)
| Return (s : BoxQP)
| Throw (s : BoxQP) (e : Exception).

(** Lines 66-81: the two lists are cleared, the gradient computed and the
    coordinates classified. *)
Definition classify (H : MatrixXd) (q lb ub : VectorXd) (s : BoxQP) : BoxQP :=
  let s1 := with_idx s [] [] in
  let s2 := with_g s1 (gradient H q (x_ s1)) in
  let '(cl, fr) := partition_loop (x_ s2) (g_ s2) lb ub (seq 0 (nx_ s2))
                                  (clamped_idx_ s2) (free_idx_ s2) in
  with_idx s2 cl fr.

(** Line 86: the convergence test. *)
Definition converged (s : BoxQP) : bool :=
  Qle_bool (lpNorm_Infinity (g_ s)) (th_grad_ s) || (length (free_idx_ s) =? 0)%nat.

(** Lines 66-177: the body of the loop over [k]. *)
Definition iteration (H : MatrixXd) (q lb ub : VectorXd) (k : nat) (s : BoxQP) : flow :=
  let s := classify H q lb ub s in
  let nf := length (free_idx_ s) in
  if converged s then
    if (k =? 0)%nat then
      let llt := compute (Hff_reg (reg_ s) H (free_idx_ s)) in
      match info llt with
      | Success => Return (store_solution (with_Hff_inv s (inverse_of llt nf)))
      | NumericalIssue => Throw s (throw_pretty "backward_error")
      end
    else Return (store_solution s)
  else
    let llt := compute (Hff_reg (reg_ s) H (free_idx_ s)) in
    match info llt with
    | NumericalIssue => Throw s (throw_pretty "backward_error")
    | Success =>
        let s := with_Hff_inv s (inverse_of llt nf) in
        let dxf := newton_dxf llt H q (x_ s) (clamped_idx_ s) (free_idx_ s) in
        let s := with_dx s (scatter (free_idx_ s) dxf (dx_ s)) in
        if Qltb (lpNorm_Infinity (dx_ s)) (th_grad_ s) then Return (store_solution s)
        else
          let fold := objective H q (x_ s) in
          Continue (line_search H q lb ub fold (alphas_ s) s)
    end.

(** Lines 65 and 178-183: [for (k = 0; k < maxiter_; ++k)], with
    [remaining = maxiter_ - k]; when the loop runs out the solution is
    filled from the members as they are. *)
Fixpoint for_k (H : MatrixXd) (q lb ub : VectorXd) (remaining k : nat) (s : BoxQP)
  : BoxQP * (Exception + BoxQPSolution) :=
  match remaining with
  | O => let s' := store_solution s in (s', inr (solution_ s'))
  | S remaining' =>
      match iteration H q lb ub k s with
      | Continue s' => for_k H q lb ub remaining' (S k) s'
      | Return s' => (s', inr (solution_ s'))
      | Throw s' e => (s', inl e)
      end
  end.

(** [BoxQP::solve]: the solver after the call, and the exception thrown or
    the solution returned. *)
Definition solve (s : BoxQP) (H : MatrixXd) (q lb ub xinit : VectorXd)
  : BoxQP * (Exception + BoxQPSolution) :=
  match check_dimensions (nx_ s) H q lb ub xinit with
  | Some e => (s, inl e)
  | None => for_k H q lb ub (maxiter_ s) 0 (warm_start s lb ub xinit)
  end.

(** ** Predicates of the statements *)

(** Every coordinate below [n] of [v] is in [[lb, ub]]. *)
Definition in_box (n : nat) (lb ub v : VectorXd) : Prop :=
  forall j, (j < n)%nat -> at_ lb j <= at_ v j /\ at_ v j <= at_ ub j.

(** Elementwise [lb <= ub]. *)
Definition ordered_bounds (n : nat) (lb ub : VectorXd) : Prop :=
  forall j, (j < n)%nat -> at_ lb j <= at_ ub j.

(** The sizes the constructor gives the vectors of the solver, which no
    statement of [solve] changes. *)
Definition sized (s : BoxQP) : Prop :=
  length (x_ s) = nx_ s /\ length (xnew_ s) = nx_ s /\ length (dx_ s) = nx_ s.

(** The arguments have the sizes [solve] checks. *)
Definition well_sized (n : nat) (H : MatrixXd) (q lb ub xinit : VectorXd) : Prop :=
  rows H = n /\ cols H = n /\ length q = n /\ length lb = n /\ length ub = n
  /\ length xinit = n.

(** The solver at the head of the loop body for [k], after [k] passes that
    fell through to the next one. *)
Inductive reaches (H : MatrixXd) (q lb ub : VectorXd) (s0 : BoxQP) : nat -> BoxQP -> Prop :=
| reaches_first : reaches H q lb ub s0 0 s0
| reaches_next k s s' :
    reaches H q lb ub s0 k s ->
    iteration H q lb ub k s = Continue s' ->
    reaches H q lb ub s0 (S k) s'.

(** The trial point of the line search for the step length [a]:
    [xk + a * dx] moved into the box, coordinate by coordinate. *)
Definition projected_step (n : nat) (lb ub xk dx : VectorXd) (a : Q) : VectorXd :=
  map (fun i => clip lb ub i (at_ xk i + a * at_ dx i)) (seq 0 n).

(** The first step length of the schedule whose trial point passes the
    acceptance test. *)
Definition first_accepted (H : MatrixXd) (q lb ub : VectorXd) (s : BoxQP) : option Q :=
  find (fun a => accepts H q (th_acceptstep_ s) (objective H q (x_ s)) (g_ s) (x_ s)
                         (projected_step (nx_ s) lb ub (x_ s) (dx_ s) a))
       (alphas_ s).

(** Two solvers that differ at most in [x_] and [xnew_]. *)
Definition same_but_iterate (s s' : BoxQP) : Prop :=
  nx_ s' = nx_ s /\ maxiter_ s' = maxiter_ s /\ th_acceptstep_ s' = th_acceptstep_ s
  /\ th_grad_ s' = th_grad_ s /\ reg_ s' = reg_ s /\ solution_ s' = solution_ s
  /\ free_idx_ s' = free_idx_ s /\ clamped_idx_ s' = clamped_idx_ s
  /\ alphas_ s' = alphas_ s /\ g_ s' = g_ s /\ dx_ s' = dx_ s
  /\ Hff_inv_ s' = Hff_inv_ s.

(** The solver in which a pass that reaches the line search starts it. *)
Definition before_line_search (H : MatrixXd) (q lb ub : VectorXd) (s : BoxQP) : BoxQP :=
  let s0 := classify H q lb ub s in
  let llt := compute (Hff_reg (reg_ s0) H (free_idx_ s0)) in
  let s1 := with_Hff_inv s0 (inverse_of llt (length (free_idx_ s0))) in
  with_dx s1 (scatter (free_idx_ s1)
                      (newton_dxf llt H q (x_ s1) (clamped_idx_ s1) (free_idx_ s1))
                      (dx_ s1)).

(** The solver a pass leaves behind. *)
Definition flow_state (f : flow) : BoxQP :=
  match f with
  | Continue s => s
  | Return s => s
  | Throw s _ => s
  end.

(** The test of line 76 as a proposition. *)
Definition clamp_condition (xk g lb ub : VectorXd) (j : nat) : Prop :=
  (at_ xk j == at_ lb j /\ at_ g j > 0) \/ (at_ xk j == at_ ub j /\ at_ g j < 0).

(** The two lists are disjoint and without repetition, hold the indices
    below [n] and no other, and every clamped index is on a bound at [v]. *)
Definition bound_consistent (n : nat) (lb ub v : VectorXd) (fr cl : list nat) : Prop :=
  NoDup (fr ++ cl)
  /\ (forall j, In j (fr ++ cl) <-> (j < n)%nat)
  /\ (length fr + length cl = n)%nat
  /\ (forall j, In j cl -> at_ v j == at_ lb j \/ at_ v j == at_ ub j).

(** The messages of the five argument checks. *)
Definition wrong_dimension_H (n : nat) : string :=
  ("Invalid argument: H has wrong dimension (it should be "
   ++ to_string n ++ "," ++ to_string n ++ ")")%string.

Definition wrong_dimension (name : string) (n : nat) : string :=
  ("Invalid argument: " ++ name ++ " has wrong dimension (it should be "
   ++ to_string n ++ ")")%string.

(** The pass at [k] from [s] factorizes the regularized free-free block
    (it does not when it stops at the convergence test with [k <> 0]), and
    the factorization fails. *)
Definition factorization_fails (H : MatrixXd) (q lb ub : VectorXd) (k : nat) (s : BoxQP)
  : Prop :=
  let s0 := classify H q lb ub s in
  (converged s0 = false \/ k = 0%nat)
  /\ info (compute (Hff_reg (reg_ s) H (free_idx_ s0))) = NumericalIssue.

(** [M] is the inverse [solve] computes for the free list [fr]: the
    Cholesky factorization of the regularized free-free block, solved
    against the identity. *)
Definition inverse_for (reg : Q) (H : MatrixXd) (fr : list nat) (M : MatrixXd) : Prop :=
  M = inverse_of (compute (Hff_reg reg H fr)) (length fr).

(** The matrix holds as many rows and columns as it declares. *)
Definition well_formed (M : MatrixXd) : Prop :=
  length (coeffs M) = rows M /\ Forall (fun r => length r = cols M) (coeffs M).

(** [M(i, j) = M(j, i)]. *)
Definition symmetric (M : MatrixXd) : Prop :=
  forall i j, (i < rows M)%nat -> (j < rows M)%nat -> coeff M i j == coeff M j i.

(** The rows [A] of a symmetric [n] by [n] matrix. *)
Definition square_symmetric (n : nat) (A : list (list Q)) : Prop :=
  length A = n /\ Forall (fun r => length r = n) A
  /\ forall i j, (i < n)%nat -> (j < n)%nat -> at_ (nth i A []) j == at_ (nth j A []) i.

(** Two vectors with the same coefficients. *)
Definition veq (a b : VectorXd) : Prop := Forall2 Qeq a b.

(** [v^T H v >= 0] for every [v] of size [n]. *)
Definition positive_semidefinite (n : nat) (H : MatrixXd) : Prop :=
  forall v, length v = n -> 0 <= dot v (mat_vec (coeffs H) v).

(** Two solvers with the same construction parameters and schedule. *)
Definition same_configuration (s s' : BoxQP) : Prop :=
  nx_ s' = nx_ s /\ maxiter_ s' = maxiter_ s /\ th_acceptstep_ s' = th_acceptstep_ s
  /\ th_grad_ s' = th_grad_ s /\ reg_ s' = reg_ s /\ alphas_ s' = alphas_ s.

(** The solution filled from the members of [s]. *)
Definition members_solution (s : BoxQP) : BoxQPSolution :=
  mkBoxQPSolution (Hff_inv_ s) (x_ s) (free_idx_ s) (clamped_idx_ s).

(** [v^T A v >= 0] for every [v] of size [n], with equality for the zero
    vector only. *)
Definition positive_definite (n : nat) (A : list (list Q)) : Prop :=
  forall v, length v = n ->
            0 <= dot v (mat_vec A v) /\ (dot v (mat_vec A v) == 0 -> veq v (repeat 0 n)).

(** The sum of [F j] over the indices [j] of a list. *)
Definition sum_over (l : list nat) (F : nat -> Q) : Q :=
  fold_right (fun j acc => F j + acc) 0 l.

(** [r] is the point of [[lo, hi]] nearest to [v]: the bound that [v] is
    beyond, or [v] itself when it is in the interval. *)
Definition projection_of (lo hi v r : Q) : Prop :=
  (v < lo /\ r = lo) \/ (hi < v /\ r = hi) \/ (lo <= v /\ v <= hi /\ r = v).



(** ** Concrete solvers and problems *)

(** The one-dimensional problem of the specification: [H = [[2]]],
    [q = [-4]], box [[0, 1]]. *)
Definition H_single : MatrixXd := mkMatrixXd 1 1 [[2]].

Definition solver_single : BoxQP := BoxQP_BoxQP 1 10 (1 # 8) (1 # 1024) 0.

(** A fresh solver that makes no pass ([maxiter = 0]). *)
Definition solver_no_pass : BoxQP := BoxQP_BoxQP 1 0 (1 # 8) (1 # 1024) 0.

(** The solver at the head of the first pass on the one-dimensional
    problem, started from [xinit = [0]]. *)
Definition single_start : BoxQP := warm_start solver_single [0] [1] [0].

(** An indefinite one-dimensional problem, [H = [[-1]]], [q = [1]], box
    [[1/2, 10]], without and with regularization. *)
Definition H_indefinite : MatrixXd := mkMatrixXd 1 1 [[-1]].

Definition solver_indefinite : BoxQP := BoxQP_BoxQP 1 10 (1 # 2) (1 # 1024) 0.

Definition solver_regularized : BoxQP := BoxQP_BoxQP 1 10 (1 # 2) (1 # 1024) 2.

(** The solver at the head of the first pass on the regularized indefinite
    problem, started from [xinit = [2]]. *)
Definition regularized_start : BoxQP := warm_start solver_regularized [1 # 2] [10] [2].

(** A two-dimensional positive-definite problem, [H = [[4, 2], [2, 2]]],
    [q = [-4, 2]]; its unconstrained minimizer is [(3, -4)]. *)
Definition H_pair : MatrixXd := mkMatrixXd 2 2 [[4; 2]; [2; 2]].

Definition solver_pair : BoxQP := BoxQP_BoxQP 2 10 (1 # 8) (1 # 1024) 0.


(** A separable two-dimensional problem, [H = [[2, 0], [0, 2]]]; a solver
    with a gradient threshold of 1, and one with an acceptance threshold of
    3/4. *)
Definition H_diagonal : MatrixXd := mkMatrixXd 2 2 [[2; 0]; [0; 2]].

Definition solver_loose : BoxQP := BoxQP_BoxQP 2 10 (1 # 8) 1 0.


(** The solvers at the head of the first pass on the separable problem
    with the box [[0, 1] x [-16, 16]], started from [xinit = [0, 0]]. *)
Definition loose_start : BoxQP := warm_start solver_loose [0; -16] [1; 16] [0; 0].



(** ** The kernel on [double] values

    The two functions once more, every scalar a binary64 value (the
    primitive floats: IEEE 754 double precision, rounding to nearest even)
    and every operation and comparison of the source the operation on these
    values.  This is the reading in which NaN, the infinities and overflow
    exist, and the statements about such arguments are made on it.  The
    structure is that of the embedding above, definition by definition.
    Eigen's kernels are evaluated coefficient by coefficient, sums from left
    to right; the order in which Eigen accumulates a sum is not fixed by
    this repository, and no statement below depends on it. *)

Module Float64.

Local Open Scope float_scope.

(** [std::max(a, b)] is [(a < b) ? b : a] and [std::min(a, b)] is
    [(b < a) ? b : a]: a comparison with NaN is false, so that a NaN first
    argument is returned. *)
Definition std_max (a b : float) : float := if a <? b then b else a.

Definition std_min (a b : float) : float := if b <? a then b else a.

(** [pow(2., n)] for a natural number [n]. *)
Fixpoint pow (b : float) (n : nat) : float :=
  match n with
  | O => 1
  | S n' => b * pow b n'
  end.

Module Eigen.

Definition VectorXd := list float.

Definition at_ (v : VectorXd) (i : nat) : float := nth i v 0.

Fixpoint set_at (v : VectorXd) (i : nat) (a : float) : VectorXd :=
  match v, i with
  | [], _ => []
  | _ :: v', O => a :: v'
  | b :: v', S i' => b :: set_at v' i' a
  end.

Definition setZero (v : VectorXd) : VectorXd := map (fun _ => 0) v.

Record MatrixXd := mkMatrixXd {
  rows : nat;
  cols : nat;
  coeffs : list (list float)
}.

Definition coeff (M : MatrixXd) (i j : nat) : float := nth j (nth i (coeffs M) []) 0.

Definition empty_matrix : MatrixXd := mkMatrixXd 0 0 [].

(** [a.dot(b)]: the products summed from left to right. *)
Fixpoint dot_from (acc : float) (a b : VectorXd) : float :=
  match a, b with
  | x :: a', y :: b' => dot_from (acc + x * y) a' b'
  | _, _ => acc
  end.

Definition dot (a b : VectorXd) : float :=
  match a, b with
  | x :: a', y :: b' => dot_from (x * y) a' b'
  | _, _ => 0
  end.

Definition mat_vec (M : list (list float)) (v : VectorXd) : VectorXd :=
  map (fun r => dot r v) M.

Fixpoint vadd (a b : VectorXd) : VectorXd :=
  match a, b with
  | x :: a', y :: b' => (x + y) :: vadd a' b'
  | _, _ => []
  end.

Fixpoint vsub (a b : VectorXd) : VectorXd :=
  match a, b with
  | x :: a', y :: b' => (x - y) :: vsub a' b'
  | _, _ => []
  end.

Definition vopp (a : VectorXd) : VectorXd := map (fun c => - c) a.

(** [v.lpNorm<Eigen::Infinity>()]: 0 for the empty vector, and otherwise
    [cwiseAbs().maxCoeff()], the maximum taken from left to right. *)
Definition lpNorm_Infinity (v : VectorXd) : float :=
  match v with
  | [] => 0
  | c :: v' => fold_left (fun m d => std_max m (abs d)) v' (abs c)
  end.

Fixpoint add_diagonal_from (k : nat) (reg : float) (A : list (list float))
  : list (list float) :=
  match A with
  | [] => []
  | r :: A' => set_at r k (at_ r k + reg) :: add_diagonal_from (S k) reg A'
  end.

Definition add_diagonal (reg : float) (M : MatrixXd) : MatrixXd :=
  mkMatrixXd (rows M) (cols M) (add_diagonal_from 0 reg (coeffs M)).

Definition Identity (n : nat) : list (list float) :=
  map (fun i => map (fun j => if Nat.eqb i j then 1 else 0) (seq 0 n)) (seq 0 n).

Definition column (A : list (list float)) (j : nat) : VectorXd := map (fun r => at_ r j) A.

Definition transpose (n : nat) (A : list (list float)) : list (list float) :=
  map (column A) (seq 0 n).

(** *** [Eigen::LLT<MatrixXd>] (lower triangle)

    The factor [L] of [A = L L^T], row by row: row [i] holds
    [L(i,k) = (A(i,k) - L(i,0..k-1).L(k,0..k-1)) / L(k,k)] for [k < i] and
    [L(i,i) = sqrt(x)] with the pivot [x = A(i,i) - |L(i,0..i-1)|^2]; the
    factorization stops with [NumericalIssue] at the first pivot with
    [x <= 0]. *)

(** The forward substitution with the rows [L] of a lower triangle, appending
    to [y]; with the rows found so far and a row of [A] it gives the next
    row of the factor left of the diagonal. *)
Fixpoint forward (L : list (list float)) (b : VectorXd) (y : VectorXd) : VectorXd :=
  match L, b with
  | Lk :: L', bk :: b' => forward L' b' (y ++ [(bk - dot y Lk) / last Lk 0])
  | _, _ => y
  end.

Fixpoint factorize (A : list (list float)) (L : list (list float))
  : option (list (list float)) :=
  match A with
  | [] => Some L
  | a :: A' =>
      let l := forward L a [] in
      let x := at_ a (length L) - dot l l in
      if x <=? 0 then None else factorize A' (L ++ [l ++ [sqrt x]])
  end.

Record LLT := mkLLT {
  info : ComputationInfo;
  matrixLLT : list (list float)
}.

Definition compute (M : MatrixXd) : LLT :=
  match factorize (coeffs M) [] with
  | Some L => mkLLT Success L
  | None => mkLLT NumericalIssue []
  end.

(** The backward substitution with [L^T]: [x(i) = (y(i) - sum over j > i of
    L(j,i) x(j)) / L(i,i)], from the last coordinate to the first. *)
Definition backward (L : list (list float)) (y : VectorXd) : VectorXd :=
  fold_left (fun xs i =>
               ((at_ y i - dot (column (skipn (S i) L) i) xs) / at_ (nth i L []) i) :: xs)
            (rev (seq 0 (length L))) [].

Definition solveInPlace (llt : LLT) (y : VectorXd) : VectorXd :=
  backward (matrixLLT llt) (forward (matrixLLT llt) y []).

Definition solveInPlace_matrix (llt : LLT) (n : nat) (B : list (list float))
  : list (list float) :=
  transpose n (map (fun j => solveInPlace llt (column B j)) (seq 0 n)).

End Eigen.

Import Eigen.

Record BoxQPSolution := mkBoxQPSolution {
  Hff_inv : MatrixXd;
  x : VectorXd;
  free_idx : list nat;
  clamped_idx : list nat
}.

Record BoxQP := mkBoxQP {
  nx_ : nat;
  maxiter_ : nat;
  th_acceptstep_ : float;
  th_grad_ : float;
  reg_ : float;
  solution_ : BoxQPSolution;
  free_idx_ : list nat;
  clamped_idx_ : list nat;
  alphas_ : list float;
  x_ : VectorXd;
  xnew_ : VectorXd;
  g_ : VectorXd;
  dx_ : VectorXd;
  Hff_inv_ : MatrixXd
}.

Definition with_solution (s : BoxQP) (v : BoxQPSolution) : BoxQP :=
  mkBoxQP (nx_ s) (maxiter_ s) (th_acceptstep_ s) (th_grad_ s) (reg_ s) v
          (free_idx_ s) (clamped_idx_ s) (alphas_ s) (x_ s) (xnew_ s) (g_ s) (dx_ s)
          (Hff_inv_ s).

Definition with_idx (s : BoxQP) (cl fr : list nat) : BoxQP :=
  mkBoxQP (nx_ s) (maxiter_ s) (th_acceptstep_ s) (th_grad_ s) (reg_ s) (solution_ s)
          fr cl (alphas_ s) (x_ s) (xnew_ s) (g_ s) (dx_ s) (Hff_inv_ s).

Definition with_x (s : BoxQP) (v : VectorXd) : BoxQP :=
  mkBoxQP (nx_ s) (maxiter_ s) (th_acceptstep_ s) (th_grad_ s) (reg_ s) (solution_ s)
          (free_idx_ s) (clamped_idx_ s) (alphas_ s) v (xnew_ s) (g_ s) (dx_ s)
          (Hff_inv_ s).

Definition with_xnew (s : BoxQP) (v : VectorXd) : BoxQP :=
  mkBoxQP (nx_ s) (maxiter_ s) (th_acceptstep_ s) (th_grad_ s) (reg_ s) (solution_ s)
          (free_idx_ s) (clamped_idx_ s) (alphas_ s) (x_ s) v (g_ s) (dx_ s)
          (Hff_inv_ s).

Definition with_g (s : BoxQP) (v : VectorXd) : BoxQP :=
  mkBoxQP (nx_ s) (maxiter_ s) (th_acceptstep_ s) (th_grad_ s) (reg_ s) (solution_ s)
          (free_idx_ s) (clamped_idx_ s) (alphas_ s) (x_ s) (xnew_ s) v (dx_ s)
          (Hff_inv_ s).

Definition with_dx (s : BoxQP) (v : VectorXd) : BoxQP :=
  mkBoxQP (nx_ s) (maxiter_ s) (th_acceptstep_ s) (th_grad_ s) (reg_ s) (solution_ s)
          (free_idx_ s) (clamped_idx_ s) (alphas_ s) (x_ s) (xnew_ s) (g_ s) v
          (Hff_inv_ s).

Definition with_Hff_inv (s : BoxQP) (M : MatrixXd) : BoxQP :=
  mkBoxQP (nx_ s) (maxiter_ s) (th_acceptstep_ s) (th_grad_ s) (reg_ s) (solution_ s)
          (free_idx_ s) (clamped_idx_ s) (alphas_ s) (x_ s) (xnew_ s) (g_ s) (dx_ s) M.

(** [BoxQP::BoxQP]. *)
Definition BoxQP_BoxQP (nx maxiter : nat) (th_acceptstep th_grad reg : float) : BoxQP :=
  mkBoxQP nx maxiter th_acceptstep th_grad reg
          (mkBoxQPSolution empty_matrix [] [] [])
          [] []
          (map (fun n => 1 / pow 2 n) (seq 0 n_alphas_))
          (repeat 0 nx) (repeat 0 nx) (repeat 0 nx) (repeat 0 nx)
          empty_matrix.

(** Lines 38-57. *)
Definition check_dimensions (nx : nat) (H : MatrixXd) (q lb ub xinit : VectorXd)
  : option Exception :=
  if negb (rows H =? nx)%nat || negb (cols H =? nx)%nat then
    Some (throw_pretty ("Invalid argument: " ++ "H has wrong dimension (it should be "
                        ++ to_string nx ++ "," ++ to_string nx ++ ")")%string)
  else if negb (length q =? nx)%nat then
    Some (throw_pretty ("Invalid argument: " ++ "q has wrong dimension (it should be "
                        ++ to_string nx ++ ")")%string)
  else if negb (length lb =? nx)%nat then
    Some (throw_pretty ("Invalid argument: " ++ "lb has wrong dimension (it should be "
                        ++ to_string nx ++ ")")%string)
  else if negb (length ub =? nx)%nat then
    Some (throw_pretty ("Invalid argument: " ++ "ub has wrong dimension (it should be "
                        ++ to_string nx ++ ")")%string)
  else if negb (length xinit =? nx)%nat then
    Some (throw_pretty ("Invalid argument: " ++ "xinit has wrong dimension (it should be "
                        ++ to_string nx ++ ")")%string)
  else None.

Definition assign_loop (f : nat -> float) (n : nat) (v : VectorXd) : VectorXd :=
  fold_left (fun w i => set_at w i (f i)) (seq 0 n) v.

(** [std::max(std::min(v, ub(i)), lb(i))]. *)
Definition clip (lb ub : VectorXd) (i : nat) (v : float) : float :=
  std_max (std_min v (at_ ub i)) (at_ lb i).

(** Lines 60-62. *)
Definition warm_start (s : BoxQP) (lb ub xinit : VectorXd) : BoxQP :=
  with_x s (assign_loop (fun i => clip lb ub i (at_ xinit i)) (nx_ s) (x_ s)).

(** Lines 69-70. *)
Definition gradient (H : MatrixXd) (q xk : VectorXd) : VectorXd :=
  vadd q (mat_vec (coeffs H) xk).

(** Line 76. *)
Definition is_clamped (xk g lb ub : VectorXd) (j : nat) : bool :=
  ((at_ xk j =? at_ lb j) && (0 <? at_ g j))
  || ((at_ xk j =? at_ ub j) && (at_ g j <? 0)).

(** Lines 71-81. *)
Fixpoint partition_loop (xk g lb ub : VectorXd) (js : list nat) (cl fr : list nat)
  : list nat * list nat :=
  match js with
  | [] => (cl, fr)
  | j :: js' =>
      if is_clamped xk g lb ub j
      then partition_loop xk g lb ub js' (cl ++ [j]) fr
      else partition_loop xk g lb ub js' cl (fr ++ [j])
  end.

Definition block (H : MatrixXd) (ri ci : list nat) : MatrixXd :=
  mkMatrixXd (length ri) (length ci)
             (map (fun i => map (fun j => coeff H i j) ci) ri).

(** Lines 88-97 and 119-136. *)
Definition Hff_reg (reg : float) (H : MatrixXd) (fr : list nat) : MatrixXd :=
  let Hff := block H fr fr in
  if negb (reg =? 0) then add_diagonal reg Hff else Hff.

(** Lines 104-105 and 143-144. *)
Definition inverse_of (llt : LLT) (nf : nat) : MatrixXd :=
  mkMatrixXd nf nf (solveInPlace_matrix llt nf (Identity nf)).

(** Lines 145-150. *)
Definition reduced_rhs (H : MatrixXd) (q xk : VectorXd) (cl fr : list nat) : VectorXd :=
  let qf := map (at_ q) fr in
  let xc := map (at_ xk) cl in
  let Hfc := block H fr cl in
  if negb (length cl =? 0)%nat
  then vsub (vopp qf) (mat_vec (coeffs Hfc) xc)
  else vopp qf.

Definition newton_dxf (llt : LLT) (H : MatrixXd) (q xk : VectorXd) (cl fr : list nat)
  : VectorXd :=
  let xf := map (at_ xk) fr in
  vsub (solveInPlace llt (reduced_rhs H q xk cl fr)) xf.

(** Lines 151-154. *)
Definition scatter (fr : list nat) (dxf dx : VectorXd) : VectorXd :=
  fold_left (fun w i => set_at w (nth i fr 0%nat) (at_ dxf i))
            (seq 0 (length fr)) (setZero dx).

(** Lines 166 and 172. *)
Definition objective (H : MatrixXd) (q v : VectorXd) : float :=
  0.5 * dot v (mat_vec (coeffs H) v) + dot q v.

(** Lines 169-171. *)
Definition trial_point (lb ub : VectorXd) (steplength : float) (s : BoxQP) : VectorXd :=
  assign_loop (fun i => clip lb ub i (at_ (x_ s) i + steplength * at_ (dx_ s) i))
              (nx_ s) (xnew_ s).

(** Line 173: [fold - fnew > th_acceptstep_ * g_.dot(x_ - xnew_)]. *)
Definition accepts (H : MatrixXd) (q : VectorXd) (th_acceptstep fold : float)
           (g xk xnew : VectorXd) : bool :=
  th_acceptstep * dot g (vsub xk xnew) <? fold - objective H q xnew.

(** Lines 167-177. *)
Fixpoint line_search (H : MatrixXd) (q lb ub : VectorXd) (fold : float)
         (alphas : list float) (s : BoxQP) : BoxQP :=
  match alphas with
  | [] => s
  | steplength :: alphas' =>
      let s1 := with_xnew s (trial_point lb ub steplength s) in
      if accepts H q (th_acceptstep_ s1) fold (g_ s1) (x_ s1) (xnew_ s1)
      then with_x s1 (xnew_ s1)
      else line_search H q lb ub fold alphas' s1
  end.

(** Lines 107-111, 158-162 and 179-183. *)
Definition store_solution (s : BoxQP) : BoxQP :=
  with_solution s (mkBoxQPSolution (Hff_inv_ s) (x_ s) (free_idx_ s) (clamped_idx_ s)).

Inductive flow :=
| Continue (s : BoxQP)
| Return (s : BoxQP)
| Throw (s : BoxQP) (e : Exception).

(** Lines 66-81. *)
Definition classify (H : MatrixXd) (q lb ub : VectorXd) (s : BoxQP) : BoxQP :=
  let s1 := with_idx s [] [] in
  let s2 := with_g s1 (gradient H q (x_ s1)) in
  let '(cl, fr) := partition_loop (x_ s2) (g_ s2) lb ub (seq 0 (nx_ s2))
                                  (clamped_idx_ s2) (free_idx_ s2) in
  with_idx s2 cl fr.

(** Line 86. *)
Definition converged (s : BoxQP) : bool :=
  (lpNorm_Infinity (g_ s) <=? th_grad_ s) || (length (free_idx_ s) =? 0)%nat.

(** Lines 66-177. *)
Definition iteration (H : MatrixXd) (q lb ub : VectorXd) (k : nat) (s : BoxQP) : flow :=
  let s := classify H q lb ub s in
  let nf := length (free_idx_ s) in
  if converged s then
    if (k =? 0)%nat then
      let llt := compute (Hff_reg (reg_ s) H (free_idx_ s)) in
      match info llt with
      | Success => Return (store_solution (with_Hff_inv s (inverse_of llt nf)))
      | NumericalIssue => Throw s (throw_pretty "backward_error")
      end
    else Return (store_solution s)
  else
    let llt := compute (Hff_reg (reg_ s) H (free_idx_ s)) in
    match info llt with
    | NumericalIssue => Throw s (throw_pretty "backward_error")
    | Success =>
        let s := with_Hff_inv s (inverse_of llt nf) in
        let dxf := newton_dxf llt H q (x_ s) (clamped_idx_ s) (free_idx_ s) in
        let s := with_dx s (scatter (free_idx_ s) dxf (dx_ s)) in
        if lpNorm_Infinity (dx_ s) <? th_grad_ s then Return (store_solution s)
        else
          let fold := objective H q (x_ s) in
          Continue (line_search H q lb ub fold (alphas_ s) s)
    end.

(** Lines 65 and 178-183. *)
Fixpoint for_k (H : MatrixXd) (q lb ub : VectorXd) (remaining k : nat) (s : BoxQP)
  : BoxQP * (Exception + BoxQPSolution) :=
  match remaining with
  | O => let s' := store_solution s in (s', inr (solution_ s'))
  | S remaining' =>
      match iteration H q lb ub k s with
      | Continue s' => for_k H q lb ub remaining' (S k) s'
      | Return s' => (s', inr (solution_ s'))
      | Throw s' e => (s', inl e)
      end
  end.

(** [BoxQP::solve]. *)
Definition solve (s : BoxQP) (H : MatrixXd) (q lb ub xinit : VectorXd)
  : BoxQP * (Exception + BoxQPSolution) :=
  match check_dimensions (nx_ s) H q lb ub xinit with
  | Some e => (s, inl e)
  | None => for_k H q lb ub (maxiter_ s) 0 (warm_start s lb ub xinit)
  end.


(** *** Predicates of the statements on [double] values *)

(** Every coordinate below [n] of [v] is in [[lb, ub]], by the comparisons
    of the values: a NaN is in no interval. *)
Definition in_box (n : nat) (lb ub v : VectorXd) : Prop :=
  forall j, (j < n)%nat ->
            (at_ lb j <=? at_ v j) = true /\ (at_ v j <=? at_ ub j) = true.

(** Elementwise [lb <= ub]; it leaves no NaN among the bounds. *)
Definition ordered_bounds (n : nat) (lb ub : VectorXd) : Prop :=
  forall j, (j < n)%nat -> (at_ lb j <=? at_ ub j) = true.

(** No coordinate below [n] of [v] is NaN. *)
Definition no_nan (n : nat) (v : VectorXd) : Prop :=
  forall j, (j < n)%nat -> is_nan (at_ v j) = false.

Definition sized (s : BoxQP) : Prop :=
  length (x_ s) = nx_ s /\ length (xnew_ s) = nx_ s /\ length (dx_ s) = nx_ s.

Definition well_sized (n : nat) (H : MatrixXd) (q lb ub xinit : VectorXd) : Prop :=
  rows H = n /\ cols H = n /\ length q = n /\ length lb = n /\ length ub = n
  /\ length xinit = n.

(** [r] is the point of [[lo, hi]] nearest to [v]: the bound that [v] is
    beyond, or [v] itself when it is in the interval. *)
Definition projection_of (lo hi v r : float) : Prop :=
  ((v <? lo) = true /\ r = lo)
  \/ ((hi <? v) = true /\ r = hi)
  \/ ((lo <=? v) = true /\ (v <=? hi) = true /\ r = v).

(** The trial point of the line search for the step length [a]:
    [xk + a * dx] through [std::min] and [std::max], coordinate by
    coordinate. *)
Definition projected_step (n : nat) (lb ub xk dx : VectorXd) (a : float) : VectorXd :=
  map (fun i => clip lb ub i (at_ xk i + a * at_ dx i)) (seq 0 n).

(** The two lists hold every index below [n]. *)
Definition covers (n : nat) (fr cl : list nat) : Prop :=
  forall j, (j < n)%nat -> In j (fr ++ cl).

(** *** Concrete solvers and problems *)

Definition H_single : MatrixXd := mkMatrixXd 1 1 [[2]].

Definition solver_single : BoxQP := BoxQP_BoxQP 1 10 0.125 0.0009765625 0.

Definition H_triple : MatrixXd := mkMatrixXd 3 3 [[2; 0; 0]; [0; 2; 0]; [0; 0; 2]].

Definition solver_no_pass : BoxQP := BoxQP_BoxQP 3 0 0.125 0.0009765625 0.

Definition solver_idle : BoxQP := BoxQP_BoxQP 1 0 0.125 0.0009765625 0.

(** A one-dimensional problem whose products overflow at the largest power
    of two among the doubles: [H = [[4]]], [q = [0]]. *)
Definition H_steep : MatrixXd := mkMatrixXd 1 1 [[4]].

Definition huge : float := 0x1p+1023.

(** The solver of the one-dimensional problem after a call, with its number
    of iterations then set to 0. *)
Definition solver_used : BoxQP :=
  let s := fst (solve solver_single H_single [-4] [0] [1] [0]) in
  mkBoxQP (nx_ s) 0 (th_acceptstep_ s) (th_grad_ s) (reg_ s) (solution_ s)
          (free_idx_ s) (clamped_idx_ s) (alphas_ s) (x_ s) (xnew_ s) (g_ s) (dx_ s)
          (Hff_inv_ s).

End Float64.

(** Reads the value off a projection onto an interval with known ends. *)
Ltac projection_value P :=
  destruct P as [(P & ?) | [(P & ?) | (P & ? & ?)]];
  try (vm_compute in P; discriminate); subst.

(** * Proofs *)

(** ** Scalars *)

Lemma Qltb_true (a b : Q) : Qltb a b = true <-> a < b.
Proof.
  unfold Qltb. rewrite negb_true_iff, <- not_true_iff_false, Qle_bool_iff.
  split; [apply Qnot_le_lt | apply Qlt_not_le].
Qed.

Lemma Qltb_false (a b : Q) : Qltb a b = false <-> b <= a.
Proof.
  unfold Qltb. rewrite negb_false_iff. apply Qle_bool_iff.
Qed.

Lemma std_max_cases (a b : Q) :
  (a < b /\ std_max a b = b) \/ (b <= a /\ std_max a b = a).
Proof.
  unfold std_max. destruct (Qltb a b) eqn:E.
  - left. split; [now apply Qltb_true | reflexivity].
  - right. split; [now apply Qltb_false | reflexivity].
Qed.

Lemma std_min_cases (a b : Q) :
  (b < a /\ std_min a b = b) \/ (a <= b /\ std_min a b = a).
Proof.
  unfold std_min. destruct (Qltb b a) eqn:E.
  - left. split; [now apply Qltb_true | reflexivity].
  - right. split; [now apply Qltb_false | reflexivity].
Qed.

Lemma clip_in_bounds (lb ub : VectorXd) (j : nat) (v : Q) :
  at_ lb j <= at_ ub j ->
  at_ lb j <= clip lb ub j v /\ clip lb ub j v <= at_ ub j.
Proof.
  intros Hb. unfold clip.
  destruct (std_min_cases v (at_ ub j)) as [[? ->] | [? ->]];
    destruct (std_max_cases (at_ ub j) (at_ lb j)) as [[? E] | [? E]];
    destruct (std_max_cases v (at_ lb j)) as [[? E'] | [? E']];
    rewrite ?E, ?E'; split; lra.
Qed.

(** A value on a bound stays on a bound. *)
Lemma clip_on_bound (lb ub : VectorXd) (j : nat) (v : Q) :
  v == at_ lb j \/ v == at_ ub j ->
  clip lb ub j v == at_ lb j \/ clip lb ub j v == at_ ub j.
Proof.
  intros Hv. unfold clip.
  destruct (std_min_cases v (at_ ub j)) as [[? ->] | [? ->]].
  - destruct (std_max_cases (at_ ub j) (at_ lb j)) as [[? ->] | [? ->]];
      [left | right]; reflexivity.
  - destruct (std_max_cases v (at_ lb j)) as [[? ->] | [? ->]].
    + left; reflexivity.
    + destruct Hv; [left | right]; assumption.
Qed.

(** ** Vectors *)

Lemma set_at_length (v : VectorXd) (i : nat) (a : Q) :
  length (set_at v i a) = length v.
Proof.
  revert i; induction v as [|b v IH]; intros [|i]; simpl; auto.
Qed.

Lemma at_set_at_same (v : VectorXd) (i : nat) (a : Q) :
  (i < length v)%nat -> at_ (set_at v i a) i = a.
Proof.
  unfold at_. revert i; induction v as [|b v IH]; intros [|i] Hi; simpl in *;
    try lia; auto. apply IH; lia.
Qed.

Lemma at_set_at_other (v : VectorXd) (i j : nat) (a : Q) :
  i <> j -> at_ (set_at v i a) j = at_ v j.
Proof.
  unfold at_. revert i j; induction v as [|b v IH]; intros [|i] [|j] Hij; simpl;
    try congruence; auto.
Qed.

Lemma set_at_app (v w : VectorXd) (a b : Q) :
  set_at (v ++ b :: w) (length v) a = v ++ a :: w.
Proof.
  induction v as [|c v IH]; simpl; [reflexivity | now rewrite IH].
Qed.

(** The loop that assigns every coefficient computes the same vector as
    [map] over the indices. *)
Lemma assign_loop_from (f : nat -> Q) (done todo : VectorXd) (n : nat) :
  length todo = n ->
  fold_left (fun w i => set_at w i (f i)) (seq (length done) n) (done ++ todo)
  = done ++ map f (seq (length done) n).
Proof.
  revert done todo; induction n as [|n IH]; intros done todo Hn.
  - destruct todo; [reflexivity | discriminate].
  - destruct todo as [|b todo]; [discriminate|]. simpl.
    rewrite set_at_app.
    replace (done ++ f (length done) :: todo) with ((done ++ [f (length done)]) ++ todo)
      by (now rewrite <- app_assoc).
    replace (S (length done)) with (length (done ++ [f (length done)]))
      by (rewrite length_app; simpl; lia).
    rewrite IH by (simpl in Hn; lia).
    rewrite <- app_assoc. reflexivity.
Qed.

Lemma assign_loop_map (f : nat -> Q) (n : nat) (v : VectorXd) :
  length v = n -> assign_loop f n v = map f (seq 0 n).
Proof.
  intros Hn. unfold assign_loop.
  apply (assign_loop_from f [] v n Hn).
Qed.

Lemma at_map_seq (f : nat -> Q) (n j : nat) :
  (j < n)%nat -> at_ (map f (seq 0 n)) j = f j.
Proof.
  intros Hj. unfold at_.
  rewrite (nth_indep _ 0 (f 0%nat)) by (now rewrite length_map, length_seq).
  rewrite (map_nth f (seq 0 n) 0%nat j), seq_nth by assumption. reflexivity.
Qed.

(** ** The line search *)

Lemma trial_point_projected (lb ub : VectorXd) (a : Q) (s : BoxQP) :
  length (xnew_ s) = nx_ s ->
  trial_point lb ub a s = projected_step (nx_ s) lb ub (x_ s) (dx_ s) a.
Proof.
  intros Hn. unfold trial_point, projected_step. now apply assign_loop_map.
Qed.

Lemma projected_step_length (n : nat) (lb ub xk dx : VectorXd) (a : Q) :
  length (projected_step n lb ub xk dx a) = n.
Proof.
  unfold projected_step. now rewrite length_map, length_seq.
Qed.

(** The loop over the step lengths, for any fold value and any tail of the
    schedule: the iterate becomes the first accepted trial point, or stays. *)
Lemma line_search_result (H : MatrixXd) (q lb ub : VectorXd) (fold : Q)
      (alphas : list Q) (s : BoxQP) :
  sized s ->
  let s' := line_search H q lb ub fold alphas s in
  same_but_iterate s s' /\ sized s'
  /\ x_ s' = match find (fun a => accepts H q (th_acceptstep_ s) fold (g_ s) (x_ s)
                                         (projected_step (nx_ s) lb ub (x_ s) (dx_ s) a))
                        alphas with
             | Some a => projected_step (nx_ s) lb ub (x_ s) (dx_ s) a
             | None => x_ s
             end.
Proof.
  revert s; induction alphas as [|a alphas IH]; intros s Hs; simpl.
  - repeat split; try reflexivity; apply Hs.
  - destruct Hs as (Hx & Hxn & Hdx).
    rewrite (trial_point_projected lb ub a s Hxn).
    destruct (accepts H q (th_acceptstep_ s) fold (g_ s) (x_ s)
                      (projected_step (nx_ s) lb ub (x_ s) (dx_ s) a)) eqn:E.
    + repeat split; simpl; try reflexivity; try assumption;
        apply projected_step_length.
    + set (s1 := with_xnew s (projected_step (nx_ s) lb ub (x_ s) (dx_ s) a)).
      assert (Hs1 : sized s1).
      { repeat split; simpl; try assumption. apply projected_step_length. }
      destruct (IH s1 Hs1) as (Hsame & Hsz & Hx').
      repeat split; try apply Hsame; try apply Hsz. exact Hx'.
Qed.

(** ** The partition *)

(** The loop appends to the two lists the clamped and the other
    coordinates, each in the order of the loop. *)
Lemma partition_loop_filter (xk g lb ub : VectorXd) (js cl fr : list nat) :
  partition_loop xk g lb ub js cl fr
  = (cl ++ filter (is_clamped xk g lb ub) js,
     fr ++ filter (fun j => negb (is_clamped xk g lb ub j)) js).
Proof.
  revert cl fr; induction js as [|j js IH]; intros cl fr; simpl.
  - now rewrite !app_nil_r.
  - destruct (is_clamped xk g lb ub j); simpl; rewrite IH, <- app_assoc; reflexivity.
Qed.

Lemma classify_fields (H : MatrixXd) (q lb ub : VectorXd) (s : BoxQP) :
  let s' := classify H q lb ub s in
  let g := gradient H q (x_ s) in
  x_ s' = x_ s /\ xnew_ s' = xnew_ s /\ dx_ s' = dx_ s /\ nx_ s' = nx_ s
  /\ Hff_inv_ s' = Hff_inv_ s /\ alphas_ s' = alphas_ s
  /\ th_acceptstep_ s' = th_acceptstep_ s /\ th_grad_ s' = th_grad_ s
  /\ reg_ s' = reg_ s /\ solution_ s' = solution_ s
  /\ g_ s' = g
  /\ clamped_idx_ s' = filter (is_clamped (x_ s) g lb ub) (seq 0 (nx_ s))
  /\ free_idx_ s' = filter (fun j => negb (is_clamped (x_ s) g lb ub j)) (seq 0 (nx_ s)).
Proof.
  unfold classify. cbn [with_idx with_g x_ g_ nx_ clamped_idx_ free_idx_].
  rewrite partition_loop_filter. simpl. repeat split; reflexivity.
Qed.

Lemma is_clamped_iff (xk g lb ub : VectorXd) (j : nat) :
  is_clamped xk g lb ub j = true
  <-> (at_ xk j == at_ lb j /\ at_ g j > 0) \/ (at_ xk j == at_ ub j /\ at_ g j < 0).
Proof.
  unfold is_clamped.
  rewrite orb_true_iff, !andb_true_iff, !Qeq_bool_iff, !Qltb_true. reflexivity.
Qed.

(** ** The shape of one pass *)

Lemma iteration_cases (H : MatrixXd) (q lb ub : VectorXd) (k : nat) (s : BoxQP) :
  let s0 := classify H q lb ub s in
  let llt := compute (Hff_reg (reg_ s0) H (free_idx_ s0)) in
  let s2 := before_line_search H q lb ub s in
  (converged s0 = true /\ k = 0%nat /\ info llt = Success
   /\ iteration H q lb ub k s
      = Return (store_solution (with_Hff_inv s0 (inverse_of llt (length (free_idx_ s0))))))
  \/ (converged s0 = true /\ k <> 0%nat
      /\ iteration H q lb ub k s = Return (store_solution s0))
  \/ ((converged s0 = false \/ k = 0%nat) /\ info llt = NumericalIssue
      /\ iteration H q lb ub k s = Throw s0 (throw_pretty "backward_error"))
  \/ (converged s0 = false /\ info llt = Success
      /\ Qltb (lpNorm_Infinity (dx_ s2)) (th_grad_ s2) = true
      /\ iteration H q lb ub k s = Return (store_solution s2))
  \/ (converged s0 = false /\ info llt = Success
      /\ Qltb (lpNorm_Infinity (dx_ s2)) (th_grad_ s2) = false
      /\ iteration H q lb ub k s
         = Continue (line_search H q lb ub (objective H q (x_ s2)) (alphas_ s2) s2)).
Proof.
  intros s0 llt s2. subst s2. unfold iteration, before_line_search. cbv zeta.
  fold s0. fold llt.
  destruct (converged s0) eqn:Ec.
  - destruct (Nat.eqb_spec k 0) as [-> | Hk].
    + destruct (info llt) eqn:Ei.
      * left. repeat split; try reflexivity; auto.
      * right; right; left. repeat split; try reflexivity; auto.
    + right; left. repeat split; try reflexivity; auto.
  - destruct (info llt) eqn:Ei.
    + match goal with
      | |- context [if ?c then Return _ else Continue _] => destruct c eqn:Es
      end.
      * right; right; right; left. repeat split; try reflexivity; auto.
      * right; right; right; right. repeat split; try reflexivity; auto.
    + right; right; left. repeat split; try reflexivity; auto.
Qed.

Lemma scatter_length (fr : list nat) (dxf dx : VectorXd) :
  length (scatter fr dxf dx) = length dx.
Proof.
  unfold scatter.
  assert (G : forall (l : list nat) (w : VectorXd),
             length (fold_left (fun w i => set_at w (nth i fr 0%nat) (at_ dxf i)) l w)
             = length w).
  { induction l as [|i l IH]; intros w; simpl; [reflexivity|].
    now rewrite IH, set_at_length. }
  rewrite G. unfold setZero. apply length_map.
Qed.

Lemma before_line_search_fields (H : MatrixXd) (q lb ub : VectorXd) (s : BoxQP) :
  let s0 := classify H q lb ub s in
  let s2 := before_line_search H q lb ub s in
  x_ s2 = x_ s /\ xnew_ s2 = xnew_ s /\ nx_ s2 = nx_ s /\ alphas_ s2 = alphas_ s
  /\ th_acceptstep_ s2 = th_acceptstep_ s /\ th_grad_ s2 = th_grad_ s
  /\ g_ s2 = g_ s0 /\ free_idx_ s2 = free_idx_ s0 /\ clamped_idx_ s2 = clamped_idx_ s0
  /\ length (dx_ s2) = length (dx_ s).
Proof.
  intros s0 s2.
  destruct (classify_fields H q lb ub s)
    as (Hx & Hxn & Hdx & Hnx & _ & Hal & Hta & Htg & _).
  subst s0 s2. unfold before_line_search. cbv zeta.
  cbn [with_dx with_Hff_inv x_ xnew_ nx_ alphas_ th_acceptstep_ th_grad_ g_ free_idx_
       clamped_idx_ dx_].
  rewrite scatter_length, Hdx. repeat split; assumption.
Qed.

(** ** Feasibility of the iterates *)

Lemma projected_step_in_box (n : nat) (lb ub xk dx : VectorXd) (a : Q) :
  ordered_bounds n lb ub -> in_box n lb ub (projected_step n lb ub xk dx a).
Proof.
  intros Hb j Hj. unfold projected_step. rewrite at_map_seq by assumption.
  apply clip_in_bounds. now apply Hb.
Qed.

Lemma warm_start_x (s : BoxQP) (lb ub xinit : VectorXd) :
  sized s ->
  x_ (warm_start s lb ub xinit)
  = map (fun i => clip lb ub i (at_ xinit i)) (seq 0 (nx_ s)).
Proof.
  intros (Hx & _). unfold warm_start. simpl. now apply assign_loop_map.
Qed.

Lemma warm_start_sized (s : BoxQP) (lb ub xinit : VectorXd) :
  sized s -> sized (warm_start s lb ub xinit).
Proof.
  intros Hs. pose proof (warm_start_x s lb ub xinit Hs) as E.
  destruct Hs as (Hx & Hxn & Hdx). unfold sized. rewrite E.
  unfold warm_start. simpl. rewrite length_map, length_seq. auto.
Qed.

Lemma warm_start_in_box (s : BoxQP) (lb ub xinit : VectorXd) :
  sized s -> ordered_bounds (nx_ s) lb ub ->
  in_box (nx_ s) lb ub (x_ (warm_start s lb ub xinit)).
Proof.
  intros Hs Hb j Hj. rewrite warm_start_x by assumption.
  rewrite at_map_seq by assumption. apply clip_in_bounds. now apply Hb.
Qed.

(** What a pass does to the iterate: a pass that returns or throws leaves
    it, a pass that falls through leaves it or moves it to a trial point. *)
Lemma iteration_iterate (H : MatrixXd) (q lb ub : VectorXd) (k : nat) (s : BoxQP) :
  sized s ->
  match iteration H q lb ub k s with
  | Continue s' =>
      sized s' /\ nx_ s' = nx_ s
      /\ (x_ s' = x_ s
          \/ exists a dx, x_ s' = projected_step (nx_ s) lb ub (x_ s) dx a)
  | Return s' => x_ s' = x_ s /\ nx_ s' = nx_ s /\ x (solution_ s') = x_ s
  | Throw s' _ => x_ s' = x_ s /\ nx_ s' = nx_ s
  end.
Proof.
  intros Hs.
  destruct (classify_fields H q lb ub s)
    as (Hx & Hxn & Hdx & Hnx & _).
  destruct (before_line_search_fields H q lb ub s)
    as (Bx & Bxn & Bnx & Bal & Bta & Btg & Bg & Bfr & Bcl & Bdx).
  destruct (iteration_cases H q lb ub k s)
    as [(_ & _ & _ & ->) | [(_ & _ & ->) | [(_ & _ & ->) | [(_ & _ & _ & ->)
       | (_ & _ & _ & ->)]]]]; [simpl; auto .. | cbv iota].
  assert (Hs2 : sized (before_line_search H q lb ub s)).
  { destruct Hs as (H1 & H2 & H3). unfold sized. rewrite Bx, Bxn, Bnx, Bdx. auto. }
  destruct (line_search_result H q lb ub
              (objective H q (x_ (before_line_search H q lb ub s)))
              (alphas_ (before_line_search H q lb ub s))
              (before_line_search H q lb ub s) Hs2) as (Hsame & Hsz & Hxs).
  split; [exact Hsz|]. split; [destruct Hsame as (-> & _); exact Bnx|].
  rewrite Hxs, Bx, Bnx. clear Hxs.
  match goal with |- context [find ?f ?l] => destruct (find f l) end;
    [right; eauto | left; reflexivity].
Qed.

Lemma reaches_in_box (H : MatrixXd) (q lb ub : VectorXd) (s0 : BoxQP) (k : nat) (s : BoxQP) :
  sized s0 -> ordered_bounds (nx_ s0) lb ub -> in_box (nx_ s0) lb ub (x_ s0) ->
  reaches H q lb ub s0 k s ->
  sized s /\ nx_ s = nx_ s0 /\ in_box (nx_ s0) lb ub (x_ s).
Proof.
  intros Hs0 Hb Hin Hr. induction Hr as [|k s s' Hr IH Hit].
  - auto.
  - destruct IH as (Hs & Hn & Hbox).
    pose proof (iteration_iterate H q lb ub k s Hs) as Hi. rewrite Hit in Hi.
    destruct Hi as (Hs' & Hn' & Hx'). split; [exact Hs'|]. split; [congruence|].
    destruct Hx' as [-> | (a & dx & ->)]; [exact Hbox|].
    rewrite Hn. now apply projected_step_in_box.
Qed.

(** The loop from the head of pass [k]: what it returns is the iterate of a
    solver reached from there. *)
Lemma for_k_reaches (H : MatrixXd) (q lb ub : VectorXd) (s0 : BoxQP)
      (remaining k : nat) (s s' : BoxQP) (sol : BoxQPSolution) :
  reaches H q lb ub s0 k s ->
  for_k H q lb ub remaining k s = (s', inr sol) ->
  exists k' s1, reaches H q lb ub s0 k' s1 /\ (k' <= k + remaining)%nat
                /\ x sol = x_ s1 /\ x_ s' = x_ s1 /\ sol = solution_ s'.
Proof.
  revert k s; induction remaining as [|r IH]; intros k s Hr Hf; simpl in Hf.
  - inversion Hf; subst. exists k, s. repeat split; auto; lia.
  - destruct (iteration H q lb ub k s) as [s1 | s1 | s1 e] eqn:Hit.
    + destruct (IH (S k) s1 (reaches_next H q lb ub s0 k s s1 Hr Hit) Hf)
        as (k' & s2 & Hr2 & Hk & Hx).
      exists k', s2. repeat split; try apply Hx; auto; lia.
    + inversion Hf; subst.
      pose proof (iteration_cases H q lb ub k s) as Hc.
      assert (Hxs : x_ s' = x_ s /\ x (solution_ s') = x_ s).
      { destruct (classify_fields H q lb ub s) as (Hx & _).
        destruct (before_line_search_fields H q lb ub s) as (Bx & _).
        rewrite Hit in Hc.
        destruct Hc as [(_ & _ & _ & E) | [(_ & _ & E) | [(_ & _ & E)
          | [(_ & _ & _ & E) | (_ & _ & _ & E)]]]];
          try discriminate; inversion E; subst; simpl; auto. }
      exists k, s. destruct Hxs. repeat split; auto; lia.
    + discriminate.
Qed.

(** Every pass keeps the sizes of the vectors and the schedule. *)
Lemma iteration_sized (H : MatrixXd) (q lb ub : VectorXd) (k : nat) (s : BoxQP) :
  sized s ->
  let s' := flow_state (iteration H q lb ub k s) in
  sized s' /\ alphas_ s' = alphas_ s.
Proof.
  intros Hs.
  destruct (classify_fields H q lb ub s)
    as (Hx & Hxn & Hdx & Hnx & _ & Hal & _).
  destruct (before_line_search_fields H q lb ub s)
    as (Bx & Bxn & Bnx & Bal & _ & _ & _ & _ & _ & Bdx).
  assert (Hs0 : sized (classify H q lb ub s)).
  { destruct Hs as (H1 & H2 & H3). unfold sized. rewrite Hx, Hxn, Hdx, Hnx. auto. }
  assert (Hs2 : sized (before_line_search H q lb ub s)).
  { destruct Hs as (H1 & H2 & H3). unfold sized. rewrite Bx, Bxn, Bnx, Bdx. auto. }
  destruct (iteration_cases H q lb ub k s)
    as [(_ & _ & _ & E) | [(_ & _ & E) | [(_ & _ & E) | [(_ & _ & _ & E)
       | (_ & _ & _ & E)]]]]; rewrite E; cbv beta iota zeta delta [flow_state].
  - split; [exact Hs0 | exact Hal].
  - split; [exact Hs0 | exact Hal].
  - split; [exact Hs0 | exact Hal].
  - split; [exact Hs2 | exact Bal].
  - destruct (line_search_result H q lb ub
                (objective H q (x_ (before_line_search H q lb ub s)))
                (alphas_ (before_line_search H q lb ub s))
                (before_line_search H q lb ub s) Hs2)
      as ((_ & _ & _ & _ & _ & _ & _ & _ & Lal & _) & Hsz & _).
    split; [exact Hsz | now rewrite Lal].
Qed.

Lemma for_k_sized (H : MatrixXd) (q lb ub : VectorXd) (remaining k : nat) (s : BoxQP) :
  sized s ->
  sized (fst (for_k H q lb ub remaining k s))
  /\ alphas_ (fst (for_k H q lb ub remaining k s)) = alphas_ s.
Proof.
  revert k s; induction remaining as [|r IH]; intros k s Hs; simpl.
  - split; [exact Hs | reflexivity].
  - pose proof (iteration_sized H q lb ub k s Hs) as (Hs' & Hal).
    destruct (iteration H q lb ub k s) as [s1 | s1 | s1 e]; simpl in *.
    + destruct (IH (S k) s1 Hs') as (Hs'' & Hal'). split; [exact Hs'' | congruence].
    + auto.
    + auto.
Qed.

(** The sizes are an invariant of the solver object: the constructor sets
    them and [solve] keeps them, as it keeps the schedule. *)
Lemma solve_sized (s : BoxQP) (H : MatrixXd) (q lb ub xinit : VectorXd) :
  sized s ->
  sized (fst (solve s H q lb ub xinit))
  /\ alphas_ (fst (solve s H q lb ub xinit)) = alphas_ s.
Proof.
  intros Hs. unfold solve.
  destruct (check_dimensions (nx_ s) H q lb ub xinit); [simpl; auto|].
  apply (for_k_sized H q lb ub (maxiter_ s) 0 (warm_start s lb ub xinit)).
  now apply warm_start_sized.
Qed.

Lemma BoxQP_BoxQP_sized (nx maxiter : nat) (th_acceptstep th_grad reg : Q) :
  sized (BoxQP_BoxQP nx maxiter th_acceptstep th_grad reg).
Proof.
  unfold sized, BoxQP_BoxQP. simpl. rewrite !repeat_length. auto.
Qed.

(** ** The partition of a pass *)

Lemma line_search_same (H : MatrixXd) (q lb ub : VectorXd) (fold : Q)
      (alphas : list Q) (s : BoxQP) :
  same_but_iterate s (line_search H q lb ub fold alphas s).
Proof.
  revert s; induction alphas as [|a alphas IH]; intros s; simpl.
  - repeat split.
  - destruct (accepts _ _ _ _ _ _ _).
    + repeat split.
    + specialize (IH (with_xnew s (trial_point lb ub a s))).
      repeat split; apply IH.
Qed.

(** Whatever a pass does after the classification, it leaves the gradient
    and the two lists as the classification made them. *)
Lemma iteration_keeps_partition (H : MatrixXd) (q lb ub : VectorXd) (k : nat) (s : BoxQP) :
  let s0 := classify H q lb ub s in
  let s' := flow_state (iteration H q lb ub k s) in
  g_ s' = g_ s0 /\ free_idx_ s' = free_idx_ s0 /\ clamped_idx_ s' = clamped_idx_ s0
  /\ nx_ s' = nx_ s.
Proof.
  intros s0 s'. subst s'.
  destruct (classify_fields H q lb ub s) as (_ & _ & _ & Hnx & _).
  destruct (before_line_search_fields H q lb ub s)
    as (_ & _ & Bnx & _ & _ & _ & Bg & Bfr & Bcl & _).
  fold s0 in Hnx, Bg, Bfr, Bcl.
  destruct (iteration_cases H q lb ub k s)
    as [(_ & _ & _ & ->) | [(_ & _ & ->) | [(_ & _ & ->) | [(_ & _ & _ & ->)
       | (_ & _ & _ & ->)]]]]; [simpl; auto .. | cbv beta iota delta [flow_state]].
  destruct (line_search_same H q lb ub
              (objective H q (x_ (before_line_search H q lb ub s)))
              (alphas_ (before_line_search H q lb ub s))
              (before_line_search H q lb ub s))
    as (Ln & _ & _ & _ & _ & _ & Lfr & Lcl & _ & Lg & _).
  rewrite Ln, Lfr, Lcl, Lg. auto.
Qed.

(** ** Consistency of the returned partition *)

Lemma at_setZero (v : VectorXd) (j : nat) : at_ (setZero v) j = 0.
Proof.
  unfold at_, setZero. revert j; induction v as [|b v IH]; intros [|j]; simpl; auto.
Qed.

(** Outside the free indices the direction is 0. *)
Lemma scatter_outside (fr : list nat) (dxf dx : VectorXd) (j : nat) :
  ~ In j fr -> at_ (scatter fr dxf dx) j = 0.
Proof.
  intros Hj. unfold scatter.
  assert (G : forall (l : list nat) (w : VectorXd),
             (forall i, In i l -> (i < length fr)%nat) ->
             at_ (fold_left (fun w i => set_at w (nth i fr 0%nat) (at_ dxf i)) l w) j
             = at_ w j).
  { induction l as [|i l IH]; intros w Hl; simpl; [reflexivity|].
    rewrite IH by (intros; apply Hl; now right).
    apply at_set_at_other. intros E. apply Hj. rewrite <- E.
    apply nth_In, Hl. now left. }
  rewrite G by (intros i Hi; apply in_seq in Hi; lia).
  apply at_setZero.
Qed.

Lemma filter_partition (f : nat -> bool) (n : nat) :
  let cl := filter f (seq 0 n) in
  let fr := filter (fun j => negb (f j)) (seq 0 n) in
  NoDup (fr ++ cl) /\ (forall j, In j (fr ++ cl) <-> (j < n)%nat)
  /\ (length fr + length cl = n)%nat.
Proof.
  intros cl fr. subst cl fr. split; [|split].
  - apply NoDup_app; try (apply NoDup_filter, seq_NoDup).
    intros j. rewrite !filter_In. intros (_ & E) (_ & E').
    rewrite E' in E. discriminate.
  - intros j. rewrite in_app_iff, !filter_In, !in_seq.
    destruct (f j); simpl; intuition (try lia; try discriminate).
  - rewrite Nat.add_comm, filter_length. apply length_seq.
Qed.

(** After the classification of a pass the lists are consistent with the
    iterate the pass started from. *)
Lemma classify_consistent (H : MatrixXd) (q lb ub : VectorXd) (s : BoxQP) :
  let s0 := classify H q lb ub s in
  bound_consistent (nx_ s) lb ub (x_ s) (free_idx_ s0) (clamped_idx_ s0).
Proof.
  intros s0.
  destruct (classify_fields H q lb ub s)
    as (_ & _ & _ & _ & _ & _ & _ & _ & _ & _ & _ & Ccl & Cfr).
  fold s0 in Ccl, Cfr. rewrite Ccl, Cfr.
  destruct (filter_partition (is_clamped (x_ s) (gradient H q (x_ s)) lb ub) (nx_ s))
    as (Hnd & Hcov & Hlen).
  repeat split; try assumption; try apply Hcov.
  intros j Hj. apply filter_In in Hj. destruct Hj as (_ & Hc).
  apply is_clamped_iff in Hc. destruct Hc as [(E & _) | (E & _)]; auto.
Qed.

Lemma NoDup_app_disjoint (fr cl : list nat) (j : nat) :
  NoDup (fr ++ cl) -> In j cl -> ~ In j fr.
Proof.
  induction fr as [|i fr IH]; simpl; intros Hnd Hj Hin; [exact Hin|].
  inversion Hnd as [|? ? Hnotin Hnd']; subst.
  destruct Hin as [-> | Hin].
  - apply Hnotin, in_or_app. now right.
  - now apply IH.
Qed.

(** A trial point keeps the clamped coordinates on their bounds. *)
Lemma projected_step_clamped (n : nat) (lb ub xk : VectorXd) (fr cl : list nat)
      (dxf dx : VectorXd) (a : Q) :
  bound_consistent n lb ub xk fr cl ->
  bound_consistent n lb ub (projected_step n lb ub xk (scatter fr dxf dx) a) fr cl.
Proof.
  intros (Hnd & Hcov & Hlen & Hcl). repeat split; try assumption; try apply Hcov.
  intros j Hj.
  assert (Hjn : (j < n)%nat) by (apply Hcov, in_or_app; now right).
  assert (Hfr : ~ In j fr) by now apply (NoDup_app_disjoint fr cl).
  unfold projected_step. rewrite at_map_seq by assumption.
  rewrite (scatter_outside fr dxf dx j Hfr).
  apply clip_on_bound. destruct (Hcl j Hj) as [E | E]; [left | right]; rewrite <- E; ring.
Qed.

Lemma before_line_search_dx (H : MatrixXd) (q lb ub : VectorXd) (s : BoxQP) :
  let s0 := classify H q lb ub s in
  let llt := compute (Hff_reg (reg_ s0) H (free_idx_ s0)) in
  dx_ (before_line_search H q lb ub s)
  = scatter (free_idx_ s0) (newton_dxf llt H q (x_ s) (clamped_idx_ s0) (free_idx_ s0))
            (dx_ s).
Proof.
  intros s0 llt.
  destruct (classify_fields H q lb ub s) as (Hx & _ & Hdx & _).
  fold s0 in Hx, Hdx. unfold before_line_search. cbv zeta. fold s0. fold llt.
  cbn [with_dx with_Hff_inv dx_ x_ free_idx_ clamped_idx_].
  now rewrite Hx, Hdx.
Qed.

Lemma store_solution_fields (s : BoxQP) :
  solution_ (store_solution s)
  = mkBoxQPSolution (Hff_inv_ s) (x_ s) (free_idx_ s) (clamped_idx_ s)
  /\ x_ (store_solution s) = x_ s /\ free_idx_ (store_solution s) = free_idx_ s
  /\ clamped_idx_ (store_solution s) = clamped_idx_ s
  /\ Hff_inv_ (store_solution s) = Hff_inv_ s /\ nx_ (store_solution s) = nx_ s
  /\ g_ (store_solution s) = g_ s.
Proof. repeat split. Qed.

(** Every pass leaves lists that are consistent with the iterate it leaves,
    and a pass that returns has filled the solution from the members. *)
Lemma iteration_consistent (H : MatrixXd) (q lb ub : VectorXd) (k : nat) (s : BoxQP) :
  sized s ->
  let s' := flow_state (iteration H q lb ub k s) in
  bound_consistent (nx_ s) lb ub (x_ s') (free_idx_ s') (clamped_idx_ s')
  /\ (forall s1, iteration H q lb ub k s = Return s1 ->
                 solution_ s1
                 = mkBoxQPSolution (Hff_inv_ s1) (x_ s1) (free_idx_ s1) (clamped_idx_ s1)).
Proof.
  intros Hs s'.
  pose proof (classify_consistent H q lb ub s) as Hc. cbv zeta in Hc.
  destruct (iteration_keeps_partition H q lb ub k s) as (_ & Kfr & Kcl & _).
  fold s' in Kfr, Kcl. rewrite Kfr, Kcl.
  destruct (classify_fields H q lb ub s) as (Hx & Hxn & Hdx & Hnx & _).
  destruct (before_line_search_fields H q lb ub s)
    as (Bx & Bxn & Bnx & Bal & Bta & Btg & Bg & Bfr & Bcl & Bdx).
  pose proof (before_line_search_dx H q lb ub s) as Bd. cbv zeta in Bd.
  subst s'.
  destruct (iteration_cases H q lb ub k s)
    as [(_ & _ & _ & E) | [(_ & _ & E) | [(_ & _ & E) | [(_ & _ & _ & E)
       | (_ & _ & _ & E)]]]]; rewrite E; cbv beta iota delta [flow_state].
  - split; [simpl; rewrite Hx; exact Hc|]. intros s1 E1. now inversion E1.
  - split; [simpl; rewrite Hx; exact Hc|]. intros s1 E1. now inversion E1.
  - split; [rewrite Hx; exact Hc|]. intros s1 E1. discriminate.
  - split.
    + destruct (store_solution_fields (before_line_search H q lb ub s))
        as (_ & -> & _). rewrite Bx. exact Hc.
    + intros s1 E1. now inversion E1.
  - split; [|intros s1 E1; discriminate].
    assert (Hs2 : sized (before_line_search H q lb ub s)).
    { destruct Hs as (H1 & H2 & H3). unfold sized. rewrite Bx, Bxn, Bnx, Bdx. auto. }
    destruct (line_search_result H q lb ub
                (objective H q (x_ (before_line_search H q lb ub s)))
                (alphas_ (before_line_search H q lb ub s))
                (before_line_search H q lb ub s) Hs2) as (_ & _ & Hxs).
    rewrite Hxs, Bx, Bnx, Bd. clear Hxs.
    match goal with |- context [find ?f ?l] => destruct (find f l) end;
      [now apply projected_step_clamped | exact Hc].
Qed.

(** The loop, entered with lists that are consistent or with a pass still
    to make, returns a consistent solution. *)
Lemma for_k_consistent (H : MatrixXd) (q lb ub : VectorXd) (remaining k : nat)
      (s s' : BoxQP) (sol : BoxQPSolution) :
  sized s ->
  (1 <= remaining)%nat
  \/ bound_consistent (nx_ s) lb ub (x_ s) (free_idx_ s) (clamped_idx_ s) ->
  for_k H q lb ub remaining k s = (s', inr sol) ->
  bound_consistent (nx_ s) lb ub (x sol) (free_idx sol) (clamped_idx sol).
Proof.
  revert k s; induction remaining as [|r IH]; intros k s Hs Hor Hf; simpl in Hf.
  - destruct Hor as [Hr | Hc]; [lia|]. inversion Hf; subst. exact Hc.
  - pose proof (iteration_consistent H q lb ub k s Hs) as (Hc & Hret).
    pose proof (iteration_iterate H q lb ub k s Hs) as Hi.
    destruct (iteration H q lb ub k s) as [s1 | s1 | s1 e] eqn:Hit.
    + destruct Hi as (Hs1 & Hn1 & _). simpl in Hc.
      rewrite <- Hn1. apply (IH (S k) s1 Hs1); [|exact Hf].
      right. rewrite Hn1. exact Hc.
    + inversion Hf; subst. rewrite (Hret s' eq_refl). exact Hc.
    + discriminate.
Qed.

(** C7 (as amended): when at least one pass is made ([maxiter >= 1]), the
    free and clamped lists of the returned solution are disjoint and without
    repetition, hold exactly the indices below [n], their sizes add up to
    [n], and the returned [x] is on a bound at every clamped index. *)
Theorem solve_bound_consistent (s : BoxQP) (H : MatrixXd) (q lb ub xinit : VectorXd)
        (s' : BoxQP) (sol : BoxQPSolution) :
  sized s ->
  (1 <= maxiter_ s)%nat ->
  solve s H q lb ub xinit = (s', inr sol) ->
  bound_consistent (nx_ s) lb ub (x sol) (free_idx sol) (clamped_idx sol).
Proof.
  intros Hs Hm Hsolve. unfold solve in Hsolve.
  destruct (check_dimensions (nx_ s) H q lb ub xinit); [discriminate|].
  apply (for_k_consistent H q lb ub (maxiter_ s) 0 (warm_start s lb ub xinit) s' sol);
    auto. now apply warm_start_sized.
Qed.

Lemma solve_bound_consistent_witness :
  sized solver_single /\ (1 <= maxiter_ solver_single)%nat
  /\ bound_consistent 1 [0] [1] [1] [] [0%nat].
Proof.
  assert (Hs : sized solver_single) by apply BoxQP_BoxQP_sized.
  assert (Hm : (1 <= maxiter_ solver_single)%nat) by (simpl; lia).
  split; [exact Hs|]. split; [exact Hm|].
  refine (solve_bound_consistent solver_single H_single [-4] [0] [1] [0]
            (fst (solve solver_single H_single [-4] [0] [1] [0]))
            (mkBoxQPSolution (mkMatrixXd 1 1 [[1 # 2]]) [1] [] [0%nat]) Hs Hm _).
  vm_compute. reflexivity.
Defined.

(** C7 (as stated) fails: a fresh solver with [maxiter = 0] returns two
    empty lists for a problem with one coordinate. *)
Lemma solve_bound_consistent_counterexample :
  exists s' sol,
    solve solver_no_pass H_single [-4] [0] [1] [0] = (s', inr sol)
    /\ ~ bound_consistent 1 [0] [1] (x sol) (free_idx sol) (clamped_idx sol).
Proof.
  exists (fst (solve solver_no_pass H_single [-4] [0] [1] [0])).
  exists (mkBoxQPSolution empty_matrix [0] [] []).
  split; [vm_compute; reflexivity|].
  intros (_ & Hcov & _). simpl in Hcov.
  apply (proj2 (Hcov 0%nat)). lia.
Qed.

(** ** The argument checks *)

Lemma check_dimensions_none (n : nat) (H : MatrixXd) (q lb ub xinit : VectorXd) :
  check_dimensions n H q lb ub xinit = None <-> well_sized n H q lb ub xinit.
Proof.
  unfold check_dimensions, well_sized.
  destruct (Nat.eqb_spec (rows H) n); destruct (Nat.eqb_spec (cols H) n); simpl;
    try (split; [discriminate | intros (? & ? & _); congruence]).
  destruct (Nat.eqb_spec (length q) n); simpl;
    try (split; [discriminate | intros (_ & _ & ? & _); congruence]).
  destruct (Nat.eqb_spec (length lb) n); simpl;
    try (split; [discriminate | intros (_ & _ & _ & ? & _); congruence]).
  destruct (Nat.eqb_spec (length ub) n); simpl;
    try (split; [discriminate | intros (_ & _ & _ & _ & ? & _); congruence]).
  destruct (Nat.eqb_spec (length xinit) n); simpl;
    try (split; [discriminate | intros (_ & _ & _ & _ & _ & ?); congruence]).
  split; auto 10.
Qed.

(** C9: an argument of the wrong size makes [solve] throw the
    invalid-argument exception of the first check that fails, the checks
    being made in the order [H], [q], [lb], [ub], [xinit]; the solver is
    left as it was (no warm start, no pass of the loop). *)
Theorem solve_checks_dimensions (s : BoxQP) (H : MatrixXd) (q lb ub xinit : VectorXd) :
  let n := nx_ s in
  let r := solve s H q lb ub xinit in
  (rows H <> n \/ cols H <> n ->
   r = (s, inl (throw_pretty (wrong_dimension_H n))))
  /\ (rows H = n -> cols H = n -> length q <> n ->
      r = (s, inl (throw_pretty (wrong_dimension "q" n))))
  /\ (rows H = n -> cols H = n -> length q = n -> length lb <> n ->
      r = (s, inl (throw_pretty (wrong_dimension "lb" n))))
  /\ (rows H = n -> cols H = n -> length q = n -> length lb = n -> length ub <> n ->
      r = (s, inl (throw_pretty (wrong_dimension "ub" n))))
  /\ (rows H = n -> cols H = n -> length q = n -> length lb = n -> length ub = n ->
      length xinit <> n ->
      r = (s, inl (throw_pretty (wrong_dimension "xinit" n))))
  /\ (~ well_sized n H q lb ub xinit -> exists e, r = (s, inl e)).
Proof.
  intros n r. subst r. unfold solve. fold n.
  repeat split.
  - intros Hbad. unfold check_dimensions.
    destruct (Nat.eqb_spec (rows H) n); destruct (Nat.eqb_spec (cols H) n); simpl;
      try reflexivity. tauto.
  - intros H1 H2 H3. unfold check_dimensions.
    rewrite (proj2 (Nat.eqb_eq _ _) H1), (proj2 (Nat.eqb_eq _ _) H2),
      (proj2 (Nat.eqb_neq _ _) H3). reflexivity.
  - intros H1 H2 H3 H4. unfold check_dimensions.
    rewrite (proj2 (Nat.eqb_eq _ _) H1), (proj2 (Nat.eqb_eq _ _) H2),
      (proj2 (Nat.eqb_eq _ _) H3), (proj2 (Nat.eqb_neq _ _) H4). reflexivity.
  - intros H1 H2 H3 H4 H5. unfold check_dimensions.
    rewrite (proj2 (Nat.eqb_eq _ _) H1), (proj2 (Nat.eqb_eq _ _) H2),
      (proj2 (Nat.eqb_eq _ _) H3), (proj2 (Nat.eqb_eq _ _) H4),
      (proj2 (Nat.eqb_neq _ _) H5). reflexivity.
  - intros H1 H2 H3 H4 H5 H6. unfold check_dimensions.
    rewrite (proj2 (Nat.eqb_eq _ _) H1), (proj2 (Nat.eqb_eq _ _) H2),
      (proj2 (Nat.eqb_eq _ _) H3), (proj2 (Nat.eqb_eq _ _) H4),
      (proj2 (Nat.eqb_eq _ _) H5), (proj2 (Nat.eqb_neq _ _) H6). reflexivity.
  - intros Hbad.
    destruct (check_dimensions n H q lb ub xinit) as [e|] eqn:E.
    + now exists e.
    + apply check_dimensions_none in E. contradiction.
Qed.

Lemma solve_checks_dimensions_witness :
  solve solver_single (mkMatrixXd 2 2 [[2; 0]; [0; 2]]) [-4] [0] [1] [0]
  = (solver_single,
     inl (throw_pretty "Invalid argument: H has wrong dimension (it should be 1,1)"))
  /\ solve solver_single H_single [-4] [0] [1] [0; 0]
     = (solver_single,
        inl (throw_pretty "Invalid argument: xinit has wrong dimension (it should be 1)")).
Proof.
  split.
  - apply (proj1 (solve_checks_dimensions solver_single
                    (mkMatrixXd 2 2 [[2; 0]; [0; 2]]) [-4] [0] [1] [0])).
    left. simpl. lia.
  - apply (proj1 (proj2 (proj2 (proj2 (proj2
             (solve_checks_dimensions solver_single H_single [-4] [0] [1] [0; 0]))))));
      simpl; lia.
Defined.

(** ** Failure of the factorization *)

(** The loop from the first pass is the loop from any pass it reaches. *)
Lemma reaches_for_k (H : MatrixXd) (q lb ub : VectorXd) (s0 : BoxQP) (k : nat) (s : BoxQP) :
  reaches H q lb ub s0 k s ->
  forall remaining,
    for_k H q lb ub (k + remaining) 0 s0 = for_k H q lb ub remaining k s.
Proof.
  intros Hr. induction Hr as [|k s s' Hr IH Hit]; intros r.
  - reflexivity.
  - replace (S k + r)%nat with (k + S r)%nat by lia.
    rewrite IH. simpl. rewrite Hit. reflexivity.
Qed.

Lemma classify_parameters (H : MatrixXd) (q lb ub : VectorXd) (s : BoxQP) :
  reg_ (classify H q lb ub s) = reg_ s.
Proof.
  now destruct (classify_fields H q lb ub s) as (_ & _ & _ & _ & _ & _ & _ & _ & E & _).
Qed.

(** C8: when a pass factorizes the regularized free-free block and the
    factorization fails, the pass throws [backward_error]; [solve] then
    ends with that exception, returns no solution, and makes no further
    pass (so nothing is tried again with another regularization). *)
Theorem factorization_failure_throws (s : BoxQP) (H : MatrixXd) (q lb ub xinit : VectorXd)
        (k : nat) (sk : BoxQP) :
  well_sized (nx_ s) H q lb ub xinit ->
  reaches H q lb ub (warm_start s lb ub xinit) k sk ->
  (k < maxiter_ s)%nat ->
  factorization_fails H q lb ub k sk ->
  iteration H q lb ub k sk
  = Throw (classify H q lb ub sk) (throw_pretty "backward_error")
  /\ solve s H q lb ub xinit
     = (classify H q lb ub sk, inl (throw_pretty "backward_error")).
Proof.
  intros Hw Hr Hk (Hatt & Hfail).
  rewrite <- (classify_parameters H q lb ub sk) in Hfail.
  assert (Hit : iteration H q lb ub k sk
                = Throw (classify H q lb ub sk) (throw_pretty "backward_error")).
  { destruct (iteration_cases H q lb ub k sk)
      as [(Hc & Hk0 & Hi & _) | [(Hc & Hk0 & _) | [(_ & _ & E) | [(_ & Hi & _)
         | (_ & Hi & _)]]]]; try congruence.
    destruct Hatt; congruence. }
  split; [exact Hit|].
  unfold solve. rewrite (proj2 (check_dimensions_none _ _ _ _ _ _) Hw).
  replace (maxiter_ s) with (k + S (maxiter_ s - S k))%nat by lia.
  rewrite (reaches_for_k H q lb ub _ k sk Hr). simpl. rewrite Hit. reflexivity.
Qed.

Lemma factorization_failure_throws_witness :
  well_sized 1 H_indefinite [1] [1 # 2] [10] [2]
  /\ factorization_fails H_indefinite [1] [1 # 2] [10] 0
       (warm_start solver_indefinite [1 # 2] [10] [2])
  /\ exists s',
      solve solver_indefinite H_indefinite [1] [1 # 2] [10] [2]
      = (s', inl (throw_pretty "backward_error")).
Proof.
  assert (Hw : well_sized (nx_ solver_indefinite) H_indefinite [1] [1 # 2] [10] [2])
    by (repeat split).
  assert (Hf : factorization_fails H_indefinite [1] [1 # 2] [10] 0
                 (warm_start solver_indefinite [1 # 2] [10] [2]))
    by (split; [now right | vm_compute; reflexivity]).
  split; [exact Hw|]. split; [exact Hf|].
  eexists.
  refine (proj2 (factorization_failure_throws solver_indefinite H_indefinite
                   [1] [1 # 2] [10] [2] 0 _ Hw (reaches_first _ _ _ _ _) _ Hf)).
  simpl. lia.
Defined.

(** ** The inverse that is returned *)

(** A pass that falls through leaves in [Hff_inv_] the inverse for the
    free list it leaves in [free_idx_]. *)
Lemma continue_inverse (H : MatrixXd) (q lb ub : VectorXd) (k : nat) (s s' : BoxQP) :
  iteration H q lb ub k s = Continue s' ->
  inverse_for (reg_ s) H (free_idx_ s') (Hff_inv_ s') /\ reg_ s' = reg_ s.
Proof.
  intros Hit.
  pose proof (classify_parameters H q lb ub s) as Hreg.
  destruct (iteration_cases H q lb ub k s)
    as [(_ & _ & _ & E) | [(_ & _ & E) | [(_ & _ & E) | [(_ & _ & _ & E)
       | (_ & _ & _ & E)]]]]; rewrite E in Hit; try discriminate.
  assert (Es : s' = line_search H q lb ub
                      (objective H q (x_ (before_line_search H q lb ub s)))
                      (alphas_ (before_line_search H q lb ub s))
                      (before_line_search H q lb ub s)) by congruence.
  destruct (line_search_same H q lb ub
              (objective H q (x_ (before_line_search H q lb ub s)))
              (alphas_ (before_line_search H q lb ub s))
              (before_line_search H q lb ub s))
    as (_ & _ & _ & _ & Lreg & _ & Lfr & _ & _ & _ & _ & Linv).
  rewrite <- Es in Lreg, Lfr, Linv. unfold inverse_for.
  rewrite Lreg, Lfr, Linv. unfold before_line_search. cbv zeta.
  cbn [with_dx with_Hff_inv Hff_inv_ free_idx_ reg_]. rewrite Hreg. auto.
Qed.

Lemma reaches_inverse (H : MatrixXd) (q lb ub : VectorXd) (s0 : BoxQP) (k : nat) (s : BoxQP) :
  reaches H q lb ub s0 k s ->
  reg_ s = reg_ s0
  /\ (k <> 0%nat -> inverse_for (reg_ s0) H (free_idx_ s) (Hff_inv_ s)).
Proof.
  intros Hr. induction Hr as [|k s s' Hr IH Hit].
  - split; [reflexivity | congruence].
  - destruct IH as (Hreg & _).
    destruct (continue_inverse H q lb ub k s s' Hit) as (Hinv & Hreg').
    split; [congruence|]. intros _. rewrite <- Hreg. exact Hinv.
Qed.

(** C5 (as amended): when [solve] stops at the convergence test of its
    first pass ([k = 0]) and the factorization succeeds, it returns the
    inverse of the regularized free-free block for the partition of that
    pass; when it stops at the convergence test of a later pass, it returns
    the partition of that pass together with the inverse that the pass
    before computed, which is the inverse for the free list of that earlier
    pass. *)
Theorem convergence_returns_inverse (s : BoxQP) (H : MatrixXd) (q lb ub xinit : VectorXd)
        (k : nat) (sk : BoxQP) :
  well_sized (nx_ s) H q lb ub xinit ->
  reaches H q lb ub (warm_start s lb ub xinit) k sk ->
  (k < maxiter_ s)%nat ->
  converged (classify H q lb ub sk) = true ->
  let s0 := classify H q lb ub sk in
  let llt := compute (Hff_reg (reg_ s) H (free_idx_ s0)) in
  (k = 0%nat -> info llt = Success ->
   exists s' sol,
     solve s H q lb ub xinit = (s', inr sol)
     /\ free_idx sol = free_idx_ s0 /\ clamped_idx sol = clamped_idx_ s0
     /\ x sol = x_ sk
     /\ inverse_for (reg_ s) H (free_idx sol) (Hff_inv sol))
  /\ (k <> 0%nat ->
      exists s' sol,
        solve s H q lb ub xinit = (s', inr sol)
        /\ free_idx sol = free_idx_ s0 /\ clamped_idx sol = clamped_idx_ s0
        /\ x sol = x_ sk
        /\ Hff_inv sol = Hff_inv_ sk
        /\ inverse_for (reg_ s) H (free_idx_ sk) (Hff_inv sol)).
Proof.
  intros Hw Hr Hk Hc. cbv zeta.
  destruct (reaches_inverse H q lb ub _ k sk Hr) as (Hreg & Hinv).
  change (reg_ (warm_start s lb ub xinit)) with (reg_ s) in Hreg, Hinv.
  pose proof (classify_parameters H q lb ub sk) as Creg.
  destruct (classify_fields H q lb ub sk) as (Cx & _ & _ & _ & Cinv & _).
  assert (Hsolve : forall s1, iteration H q lb ub k sk = Return s1 ->
                              solve s H q lb ub xinit = (s1, inr (solution_ s1))).
  { intros s1 Hit. unfold solve.
    rewrite (proj2 (check_dimensions_none _ _ _ _ _ _) Hw).
    replace (maxiter_ s) with (k + S (maxiter_ s - S k))%nat by lia.
    rewrite (reaches_for_k H q lb ub _ k sk Hr). simpl. rewrite Hit. reflexivity. }
  rewrite <- Hreg, <- Creg.
  destruct (iteration_cases H q lb ub k sk)
    as [(_ & Hk0 & Hi & E) | [(_ & Hk0 & E) | [(Hatt & Hi & E) | [(Hc' & _)
       | (Hc' & _)]]]]; try congruence.
  - split; [|intros; congruence]. intros _ _.
    eexists. eexists. split; [apply Hsolve, E|].
    simpl. repeat split; assumption.
  - split; [intros; congruence|]. intros _.
    eexists. eexists. split; [apply Hsolve, E|].
    simpl. repeat split; try assumption. rewrite Cinv, Creg, Hreg. now apply Hinv.
  - split; [intros; congruence|]. intros Hk0.
    destruct Hatt; congruence.
Qed.

Lemma convergence_returns_inverse_witness :
  well_sized 1 H_single [-1] [0] [1] [1 # 2]
  /\ converged (classify H_single [-1] [0] [1] (warm_start solver_single [0] [1] [1 # 2]))
     = true
  /\ exists s' sol,
      solve solver_single H_single [-1] [0] [1] [1 # 2] = (s', inr sol)
      /\ free_idx sol = [0%nat]
      /\ inverse_for 0 H_single (free_idx sol) (Hff_inv sol).
Proof.
  assert (Hw : well_sized (nx_ solver_single) H_single [-1] [0] [1] [1 # 2])
    by (repeat split).
  assert (Hc : converged (classify H_single [-1] [0] [1]
                            (warm_start solver_single [0] [1] [1 # 2])) = true)
    by (vm_compute; reflexivity).
  assert (Hk : (0 < maxiter_ solver_single)%nat) by (simpl; lia).
  split; [exact Hw|]. split; [exact Hc|].
  destruct (proj1 (convergence_returns_inverse solver_single H_single [-1] [0] [1] [1 # 2]
                     0 _ Hw (reaches_first _ _ _ _ _) Hk Hc) eq_refl)
    as (s' & sol & Hsolve & Hfr & _ & _ & Hinv).
  - vm_compute. reflexivity.
  - exists s', sol. split; [exact Hsolve|]. split; [|exact Hinv].
    rewrite Hfr. vm_compute. reflexivity.
Defined.

(** C5 (as stated) fails: on the one-dimensional problem started at the
    lower bound, the first pass moves the iterate to the upper bound, the
    second pass stops at the convergence test with an empty free list, and
    the inverse returned is the 1-by-1 inverse of the first pass. *)
Lemma convergence_inverse_counterexample :
  exists k sk s' sol,
    reaches H_single [-4] [0] [1] single_start k sk
    /\ (k < maxiter_ solver_single)%nat
    /\ converged (classify H_single [-4] [0] [1] sk) = true
    /\ solve solver_single H_single [-4] [0] [1] [0] = (s', inr sol)
    /\ free_idx sol = free_idx_ (classify H_single [-4] [0] [1] sk)
    /\ ~ inverse_for (reg_ solver_single) H_single (free_idx sol) (Hff_inv sol).
Proof.
  exists 1%nat, (flow_state (iteration H_single [-4] [0] [1] 0 single_start)).
  exists (fst (solve solver_single H_single [-4] [0] [1] [0])).
  exists (mkBoxQPSolution (mkMatrixXd 1 1 [[1 # 2]]) [1] [] [0%nat]).
  split; [|split; [|split; [|split; [|split]]]].
  - apply (reaches_next _ _ _ _ _ 0%nat single_start); [apply reaches_first|].
    vm_compute. reflexivity.
  - simpl. lia.
  - vm_compute. reflexivity.
  - vm_compute. reflexivity.
  - vm_compute. reflexivity.
  - unfold inverse_for. vm_compute. discriminate.
Qed.

(** ** Linear algebra on the rows *)

Lemma veq_refl (a : VectorXd) : veq a a.
Proof. induction a; constructor; [reflexivity | assumption]. Qed.

Lemma veq_sym (a b : VectorXd) : veq a b -> veq b a.
Proof. induction 1; constructor; [now symmetry | assumption]. Qed.

Lemma veq_trans (a b c : VectorXd) : veq a b -> veq b c -> veq a c.
Proof.
  intros Hab; revert c; induction Hab as [|x y a b Hxy Hab IH]; intros c Hbc;
    inversion Hbc; subst; constructor; [now rewrite Hxy | now apply IH].
Qed.

Lemma veq_length (a b : VectorXd) : veq a b -> length a = length b.
Proof. induction 1; simpl; congruence. Qed.

Lemma veq_nth (a b : VectorXd) :
  length a = length b ->
  (forall j, (j < length a)%nat -> at_ a j == at_ b j) ->
  veq a b.
Proof.
  revert b; induction a as [|x a IH]; intros [|y b] Hl Hn; try discriminate;
    constructor.
  - apply (Hn 0%nat). simpl; lia.
  - apply IH; [simpl in Hl; lia|]. intros j Hj. apply (Hn (S j)). simpl; lia.
Qed.

Lemma dot_nil_r (a : VectorXd) : dot a [] = 0.
Proof. now destruct a. Qed.

Lemma dot_comm (a b : VectorXd) : dot a b == dot b a.
Proof.
  revert b; induction a as [|x a IH]; intros [|y b]; simpl; try reflexivity.
  rewrite IH. ring.
Qed.

Lemma dot_veq_l (a a' b : VectorXd) : veq a a' -> dot a b == dot a' b.
Proof.
  intros Ha; revert b; induction Ha as [|x y a a' Hxy Ha IH]; intros [|z b]; simpl;
    try reflexivity.
  rewrite Hxy, IH. reflexivity.
Qed.

Lemma dot_veq_r (a b b' : VectorXd) : veq b b' -> dot a b == dot a b'.
Proof.
  intros Hb. rewrite (dot_comm a b), (dot_comm a b'). now apply dot_veq_l.
Qed.

Lemma vsub_length (a b : VectorXd) :
  length a = length b -> length (vsub a b) = length a.
Proof.
  revert b; induction a as [|x a IH]; intros [|y b] Hl; simpl in *; try lia.
  rewrite IH; lia.
Qed.

Lemma vadd_length (a b : VectorXd) :
  length a = length b -> length (vadd a b) = length a.
Proof.
  revert b; induction a as [|x a IH]; intros [|y b] Hl; simpl in *; try lia.
  rewrite IH; lia.
Qed.

Lemma dot_vsub_l (a b c : VectorXd) :
  length a = length b -> dot (vsub a b) c == dot a c - dot b c.
Proof.
  revert b c; induction a as [|x a IH]; intros [|y b] [|z c] Hl; simpl in *;
    try discriminate; try ring.
  rewrite IH by lia. ring.
Qed.

Lemma dot_vadd_l (a b c : VectorXd) :
  length a = length b -> dot (vadd a b) c == dot a c + dot b c.
Proof.
  revert b c; induction a as [|x a IH]; intros [|y b] [|z c] Hl; simpl in *;
    try discriminate; try ring.
  rewrite IH by lia. ring.
Qed.

Lemma dot_vscale_l (k : Q) (a c : VectorXd) : dot (vscale k a) c == k * dot a c.
Proof.
  revert c; induction a as [|x a IH]; intros [|z c]; simpl; try ring.
  rewrite IH. ring.
Qed.

Lemma dot_vopp_l (a c : VectorXd) : dot (vopp a) c == - dot a c.
Proof.
  revert c; induction a as [|x a IH]; intros [|z c]; simpl; try ring.
  rewrite IH. ring.
Qed.

Lemma mat_vec_length (A : list (list Q)) (v : VectorXd) :
  length (mat_vec A v) = length A.
Proof. apply length_map. Qed.

(** The product with [b0 :: b'], split along the first column. *)
Lemma dot_mat_vec_cons (a : VectorXd) (rest : list (list Q)) (b0 : Q) (b' : VectorXd) :
  dot a (mat_vec rest (b0 :: b'))
  == b0 * dot a (map (hd 0) rest) + dot a (mat_vec (map (@tl Q) rest) b').
Proof.
  revert a; induction rest as [|row rest IH]; intros [|a0 a]; simpl; try ring.
  rewrite IH. destruct row as [|h t]; simpl; ring.
Qed.

Lemma mat_vec_cons (rest : list (list Q)) (b0 : Q) (b' : VectorXd) :
  veq (mat_vec rest (b0 :: b'))
      (vadd (vscale b0 (map (hd 0) rest)) (mat_vec (map (@tl Q) rest) b')).
Proof.
  induction rest as [|row rest IH]; simpl; constructor; [|exact IH].
  destruct row as [|h t]; simpl; ring.
Qed.

Lemma at_tl (row : VectorXd) (j : nat) : at_ (tl row) j = at_ row (S j).
Proof. unfold at_. destruct row; simpl; [now destruct j | reflexivity]. Qed.

Lemma at_hd (row : VectorXd) : hd 0 row = at_ row 0.
Proof. now destruct row. Qed.

Lemma nth_map_tl (rest : list (list Q)) (i : nat) :
  nth i (map (@tl Q) rest) [] = tl (nth i rest []).
Proof. exact (map_nth (@tl Q) rest [] i). Qed.

Lemma at_map_hd (rest : list (list Q)) (i : nat) :
  at_ (map (hd 0) rest) i = hd 0 (nth i rest []).
Proof. exact (map_nth (hd 0) rest [] i). Qed.

(** A symmetric matrix with a first row and column: the corner, the rest
    of the first row, which is also the rest of the first column, and the
    symmetric block that remains. *)
Lemma square_symmetric_cons (n : nat) (A : list (list Q)) :
  square_symmetric (S n) A ->
  exists a r rest,
    A = (a :: r) :: rest /\ length r = n /\ length rest = n
    /\ veq r (map (hd 0) rest) /\ square_symmetric n (map (@tl Q) rest).
Proof.
  intros (Hlen & Hrows & Hsym).
  destruct A as [|row0 rest]; [discriminate|].
  inversion Hrows as [|? ? Hrow0 Hrest]; subst.
  destruct row0 as [|a r]; [discriminate|].
  exists a, r, rest. simpl in Hlen, Hrow0.
  assert (Hr : length r = n) by lia. assert (Hre : length rest = n) by lia.
  repeat split; try assumption.
  - apply veq_nth; [now rewrite length_map, Hr, Hre|].
    intros j Hj. rewrite at_map_hd, at_hd.
    apply (Hsym 0%nat (S j)); lia.
  - now rewrite length_map.
  - rewrite Forall_forall in *. intros row Hin. apply in_map_iff in Hin.
    destruct Hin as (row' & <- & Hin'). specialize (Hrest row' Hin').
    destruct row'; simpl in *; [discriminate | lia].
  - intros i j Hi Hj. rewrite !nth_map_tl, !at_tl.
    apply (Hsym (S i) (S j)); lia.
Qed.

(** The bilinear form of a symmetric matrix is symmetric. *)
Lemma dot_mat_vec_symmetric (n : nat) (A : list (list Q)) (a b : VectorXd) :
  square_symmetric n A -> length a = n -> length b = n ->
  dot a (mat_vec A b) == dot b (mat_vec A a).
Proof.
  revert A a b; induction n as [|n IH]; intros A a b HA Ha Hb.
  - destruct a; [|discriminate]. destruct b; [|discriminate]. reflexivity.
  - destruct (square_symmetric_cons n A HA) as (m & r & rest & -> & Hr & Hre & Hrb & Hsub).
    destruct a as [|a0 a]; [discriminate|]. destruct b as [|b0 b]; [discriminate|].
    simpl in Ha, Hb.
    change (mat_vec ((m :: r) :: rest) (b0 :: b))
      with ((m * b0 + dot r b) :: mat_vec rest (b0 :: b)).
    change (mat_vec ((m :: r) :: rest) (a0 :: a))
      with ((m * a0 + dot r a) :: mat_vec rest (a0 :: a)).
    cbn [dot]. rewrite !dot_mat_vec_cons.
    rewrite (IH (map (@tl Q) rest) a b Hsub) by lia.
    rewrite (dot_veq_l r _ b Hrb), (dot_veq_l r _ a Hrb).
    rewrite (dot_comm a (map (hd 0) rest)), (dot_comm b (map (hd 0) rest)).
    ring.
Qed.

Lemma well_formed_square_symmetric (n : nat) (M : MatrixXd) :
  well_formed M -> rows M = n -> cols M = n -> symmetric M ->
  square_symmetric n (coeffs M).
Proof.
  intros (Hl & Hr) Hn Hc Hs. unfold square_symmetric.
  split; [congruence|]. split; [now rewrite <- Hc|].
  intros i j Hi Hj. apply (Hs i j); congruence.
Qed.

(** ** The objective along the line search *)

(** For a symmetric [H] the decrease of the objective from [v] to [w] is
    [g.(v - w) - 0.5 (v - w)^T H (v - w)], with [g] the gradient at [v]. *)
Lemma objective_difference (n : nat) (H : MatrixXd) (q v w : VectorXd) :
  square_symmetric n (coeffs H) ->
  length q = n -> length v = n -> length w = n ->
  objective H q v - objective H q w
  == dot (gradient H q v) (vsub v w)
     - (1 # 2) * dot (vsub v w) (mat_vec (coeffs H) (vsub v w)).
Proof.
  intros HA Hq Hv Hw. unfold objective, gradient.
  set (A := coeffs H) in *. set (d := vsub v w).
  assert (HAl : length A = n) by apply HA.
  assert (Hd : length d = n) by (unfold d; rewrite vsub_length; congruence).
  assert (Hvw : length v = length w) by congruence.
  rewrite (dot_vadd_l q (mat_vec A v) d) by (rewrite mat_vec_length; congruence).
  rewrite (dot_comm q d), (dot_comm (mat_vec A v) d).
  unfold d at 1 2 3. rewrite !(dot_vsub_l v w) by exact Hvw. fold d.
  rewrite (dot_mat_vec_symmetric n A v d HA Hv Hd).
  rewrite (dot_mat_vec_symmetric n A w d HA Hw Hd).
  unfold d. rewrite !(dot_vsub_l v w) by exact Hvw.
  rewrite (dot_mat_vec_symmetric n A w v HA Hw Hv).
  rewrite (dot_comm q v), (dot_comm q w). ring.
Qed.

(** An accepted trial point has a smaller objective when [H] is symmetric
    positive semi-definite and [0 <= th_acceptstep <= 1]. *)
Lemma accepts_decreases (n : nat) (H : MatrixXd) (q v w : VectorXd) (th : Q) :
  square_symmetric n (coeffs H) -> positive_semidefinite n H ->
  length q = n -> length v = n -> length w = n ->
  0 <= th -> th <= 1 ->
  accepts H q th (objective H q v) (gradient H q v) v w = true ->
  objective H q w < objective H q v.
Proof.
  intros HA Hpsd Hq Hv Hw Ht0 Ht1 Hacc. unfold accepts in Hacc.
  apply Qltb_true in Hacc.
  pose proof (objective_difference n H q v w HA Hq Hv Hw) as Hd.
  assert (Hdl : length (vsub v w) = n) by (rewrite vsub_length; congruence).
  pose proof (Hpsd (vsub v w) Hdl) as Hb.
  set (a := dot (gradient H q v) (vsub v w)) in *.
  set (b := dot (vsub v w) (mat_vec (coeffs H) (vsub v w))) in *.
  set (fv := objective H q v) in *. set (fw := objective H q w) in *.
  destruct (Qlt_le_dec 0 a) as [Ha | Ha].
  - assert (0 <= th * a) by (apply Qmult_le_0_compat; lra). lra.
  - assert (0 <= (1 - th) * (- a)) by (apply Qmult_le_0_compat; lra). lra.
Qed.

(** C6 (as amended): for a symmetric positive semi-definite [H] and
    [0 <= th_acceptstep <= 1], a pass that reaches the line search never
    increases the objective: when a trial point is accepted the objective at
    the new iterate is smaller than at the previous one, and when none is
    accepted the iterate is unchanged. *)
Theorem line_search_monotone (s : BoxQP) (H : MatrixXd) (q lb ub : VectorXd)
        (k : nat) (s' : BoxQP) :
  sized s ->
  well_formed H -> rows H = nx_ s -> cols H = nx_ s -> length q = nx_ s ->
  symmetric H -> positive_semidefinite (nx_ s) H ->
  0 <= th_acceptstep_ s -> th_acceptstep_ s <= 1 ->
  iteration H q lb ub k s = Continue s' ->
  objective H q (x_ s') <= objective H q (x_ s)
  /\ match first_accepted H q lb ub (before_line_search H q lb ub s) with
     | Some a => objective H q (x_ s') < objective H q (x_ s)
     | None => x_ s' = x_ s
     end.
Proof.
  intros Hs Hwf Hr Hc Hq Hsym Hpsd Ht0 Ht1 Hit.
  pose proof (well_formed_square_symmetric (nx_ s) H Hwf Hr Hc Hsym) as HA.
  destruct (before_line_search_fields H q lb ub s)
    as (Bx & Bxn & Bnx & Bal & Bta & Btg & Bg & Bfr & Bcl & Bdx).
  destruct (classify_fields H q lb ub s)
    as (_ & _ & _ & _ & _ & _ & _ & _ & _ & _ & Cg & _).
  assert (Hs2 : sized (before_line_search H q lb ub s)).
  { destruct Hs as (H1 & H2 & H3). unfold sized. rewrite Bx, Bxn, Bnx, Bdx. auto. }
  destruct (iteration_cases H q lb ub k s)
    as [(_ & _ & _ & E) | [(_ & _ & E) | [(_ & _ & E) | [(_ & _ & _ & E)
       | (_ & _ & _ & E)]]]]; rewrite E in Hit; try discriminate.
  assert (Es : s' = line_search H q lb ub
                      (objective H q (x_ (before_line_search H q lb ub s)))
                      (alphas_ (before_line_search H q lb ub s))
                      (before_line_search H q lb ub s)) by congruence.
  destruct (line_search_result H q lb ub
              (objective H q (x_ (before_line_search H q lb ub s)))
              (alphas_ (before_line_search H q lb ub s))
              (before_line_search H q lb ub s) Hs2)
    as (_ & _ & Hxs).
  rewrite <- Es in Hxs. unfold first_accepted.
  destruct (find _ (alphas_ (before_line_search H q lb ub s))) as [a|] eqn:Ef.
  - apply find_some in Ef. destruct Ef as (_ & Hacc).
    rewrite Bg, Cg, Bx, Bnx, Bta in Hacc. rewrite Bx, Bnx in Hxs.
    assert (Hlt : objective H q (x_ s') < objective H q (x_ s)).
    { rewrite Hxs.
      apply (accepts_decreases (nx_ s) H q (x_ s) _ (th_acceptstep_ s)); auto.
      - apply Hs.
      - apply projected_step_length. }
    split; [apply Qlt_le_weak|]; exact Hlt.
  - rewrite Bx in Hxs. rewrite Hxs. split; [apply Qle_refl | reflexivity].
Qed.

Lemma H_single_positive_semidefinite : positive_semidefinite 1 H_single.
Proof.
  intros [|a [|b v]] Hv; try discriminate. simpl.
  assert (0 <= a * a) by (destruct (Qlt_le_dec a 0);
                          [setoid_replace (a * a) with ((- a) * (- a)) by ring|];
                          apply Qmult_le_0_compat; lra).
  lra.
Qed.

Lemma H_single_symmetric : symmetric H_single.
Proof.
  intros [|i] [|j] Hi Hj; simpl in Hi, Hj; try lia. reflexivity.
Qed.

Lemma line_search_monotone_witness :
  sized single_start /\ symmetric H_single /\ positive_semidefinite 1 H_single
  /\ iteration H_single [-4] [0] [1] 0 single_start
     = Continue (flow_state (iteration H_single [-4] [0] [1] 0 single_start))
  /\ objective H_single [-4]
       (x_ (flow_state (iteration H_single [-4] [0] [1] 0 single_start)))
     <= objective H_single [-4] (x_ single_start).
Proof.
  assert (Hs : sized single_start) by (apply warm_start_sized, BoxQP_BoxQP_sized).
  assert (Hit : iteration H_single [-4] [0] [1] 0 single_start
                = Continue (flow_state (iteration H_single [-4] [0] [1] 0 single_start)))
    by (vm_compute; reflexivity).
  split; [exact Hs|]. split; [exact H_single_symmetric|].
  split; [exact H_single_positive_semidefinite|]. split; [exact Hit|].
  refine (proj1 (line_search_monotone single_start H_single [-4] [0] [1] 0 _ Hs
                   _ _ _ _ H_single_symmetric H_single_positive_semidefinite _ _ Hit)).
  - split; [reflexivity | repeat constructor].
  - reflexivity.
  - reflexivity.
  - reflexivity.
  - vm_compute. discriminate.
  - vm_compute. discriminate.
Defined.

(** C6 (as stated) fails: with [H = [[-1]]], regularization 2 and
    [th_acceptstep = 1/2], the first pass from [x = 2] accepts the step
    length 1, which moves the iterate to the lower bound 1/2 and raises the
    objective from 0 to 3/8. *)
Lemma line_search_monotone_counterexample :
  exists s',
    iteration H_indefinite [1] [1 # 2] [10] 0 regularized_start = Continue s'
    /\ first_accepted H_indefinite [1] [1 # 2] [10]
         (before_line_search H_indefinite [1] [1 # 2] [10] regularized_start)
       = Some 1
    /\ objective H_indefinite [1] (x_ regularized_start) == 0
    /\ objective H_indefinite [1] (x_ s') == 3 # 8
    /\ ~ objective H_indefinite [1] (x_ s')
         <= objective H_indefinite [1] (x_ regularized_start).
Proof.
  exists (flow_state (iteration H_indefinite [1] [1 # 2] [10] 0 regularized_start)).
  split; [vm_compute; reflexivity|]. split; [vm_compute; reflexivity|].
  split; [vm_compute; reflexivity|]. split; [vm_compute; reflexivity|].
  vm_compute. intros Hle. apply Hle. reflexivity.
Qed.

(** ** The factorization solves the system *)

Lemma veq_at (a b : VectorXd) (i : nat) : veq a b -> at_ a i == at_ b i.
Proof.
  intros Hab; revert i; induction Hab as [|x y a b Hxy Hab IH]; intros [|i];
    unfold at_ in *; simpl; try reflexivity; auto.
Qed.

Lemma at_vadd (u v : VectorXd) (i : nat) :
  length u = length v -> at_ (vadd u v) i == at_ u i + at_ v i.
Proof.
  unfold at_. revert v i; induction u as [|a u IH]; intros [|b v] [|i] Hl; simpl in *;
    try discriminate; try ring. apply IH; lia.
Qed.

Lemma at_vsub (u v : VectorXd) (i : nat) :
  length u = length v -> at_ (vsub u v) i == at_ u i - at_ v i.
Proof.
  unfold at_. revert v i; induction u as [|a u IH]; intros [|b v] [|i] Hl; simpl in *;
    try discriminate; try ring. apply IH; lia.
Qed.

Lemma at_vscale (c : Q) (u : VectorXd) (i : nat) : at_ (vscale c u) i == c * at_ u i.
Proof.
  unfold at_, vscale. revert i; induction u as [|a u IH]; intros [|i]; simpl;
    try ring. apply IH.
Qed.

Lemma at_mat_vec (A : list (list Q)) (v : VectorXd) (i : nat) :
  at_ (mat_vec A v) i = dot (nth i A []) v.
Proof. exact (map_nth (fun r => dot r v) A [] i). Qed.

Lemma schur_row_length (a bi : Q) (b c : VectorXd) :
  length b = length c -> length (schur_row a bi b c) = length b.
Proof.
  intros Hl. unfold schur_row. rewrite length_map, length_combine. lia.
Qed.

Lemma at_schur_row (a bi : Q) (b c : VectorXd) (j : nat) :
  length b = length c ->
  at_ (schur_row a bi b c) j == at_ c j - bi * at_ b j / a.
Proof.
  unfold at_, schur_row. revert c j; induction b as [|b0 b IH]; intros [|c0 c] [|j] Hl;
    simpl in *; try discriminate; try (unfold Qdiv; ring). apply IH; lia.
Qed.

Lemma dot_schur_row (a bi : Q) (b c v : VectorXd) :
  length b = length c ->
  dot (schur_row a bi b c) v == dot c v - bi / a * dot b v.
Proof.
  unfold schur_row. revert c v; induction b as [|b0 b IH]; intros [|c0 c] [|v0 v] Hl;
    simpl in *; try discriminate; try (unfold Qdiv; ring).
  rewrite IH by lia. unfold Qdiv; ring.
Qed.

Lemma nth_schur_rows (a : Q) (bfull b : VectorXd) (C : list (list Q)) (i : nat) :
  (i < length b)%nat -> (i < length C)%nat ->
  nth i (map (fun bi_r => schur_row a (fst bi_r) bfull (snd bi_r)) (combine b C)) []
  = schur_row a (at_ b i) bfull (nth i C []).
Proof.
  unfold at_. revert C i; induction b as [|b0 b IH]; intros [|c0 C] [|i] Hb HC;
    simpl in *; try lia; try reflexivity.
  apply IH; lia.
Qed.

Lemma nth_schur (a : Q) (b : VectorXd) (C : list (list Q)) (i : nat) :
  (i < length b)%nat -> (i < length C)%nat ->
  nth i (schur a b C) [] = schur_row a (at_ b i) b (nth i C []).
Proof. apply nth_schur_rows. Qed.

Lemma schur_length (a : Q) (b : VectorXd) (C : list (list Q)) :
  length b = length C -> length (schur a b C) = length b.
Proof.
  intros Hl. unfold schur. rewrite length_map, length_combine. lia.
Qed.

(** The block left by a step of the elimination on a symmetric block is
    symmetric. *)
Lemma schur_symmetric (n : nat) (a : Q) (b : VectorXd) (C : list (list Q)) :
  square_symmetric n C -> length b = n -> square_symmetric n (schur a b C).
Proof.
  intros (Hlen & Hrows & Hsym) Hb.
  assert (Hrow : forall i, (i < n)%nat -> length (nth i C []) = n).
  { intros i Hi. rewrite Forall_forall in Hrows. apply Hrows, nth_In. lia. }
  split; [|split].
  - rewrite schur_length; congruence.
  - rewrite Forall_forall. intros row Hin.
    destruct (In_nth _ _ [] Hin) as (i & Hi & <-).
    rewrite schur_length in Hi by congruence.
    rewrite nth_schur by lia. rewrite schur_row_length; [lia|].
    rewrite Hrow; lia.
  - intros i j Hi Hj. rewrite !nth_schur by lia.
    rewrite !at_schur_row by (rewrite Hrow; lia).
    rewrite (Hsym i j Hi Hj). unfold Qdiv. ring.
Qed.

Lemma solve_factor_length (n : nat) :
  forall (A : list (list Q)) (F : factor) (y : VectorXd),
    factorize n A = Some F -> length (solve_factor F y) = n.
Proof.
  induction n as [|n IH]; intros A F y HF; simpl in HF.
  - injection HF as <-. reflexivity.
  - destruct (Qle_bool _ 0); [discriminate|].
    destruct (factorize n _) as [F'|] eqn:HF'; [|discriminate].
    injection HF as <-. simpl. f_equal. eapply IH, HF'.
Qed.

(** When the factorization of a symmetric matrix succeeds, the substitution
    with the factor solves the linear system. *)
Lemma solve_factor_correct (n : nat) :
  forall (A : list (list Q)) (F : factor) (y : VectorXd),
    square_symmetric n A -> factorize n A = Some F -> length y = n ->
    veq (mat_vec A (solve_factor F y)) y.
Proof.
  induction n as [|n IH]; intros A F y HA HF Hy.
  - destruct HA as (Hl & _). destruct A; [|discriminate].
    destruct y; [|discriminate]. constructor.
  - destruct (square_symmetric_cons n A HA)
      as (a & r & rest & -> & Hr & Hre & Hrb & Hsub).
    destruct y as [|y0 y1]; [discriminate|]. simpl in Hy.
    simpl in HF. unfold at_ in HF. simpl in HF.
    destruct (Qle_bool a 0) eqn:Hpiv; [discriminate|].
    assert (Ha : ~ a == 0).
    { intros E. rewrite <- not_true_iff_false, Qle_bool_iff in Hpiv.
      apply Hpiv. rewrite E. apply Qle_refl. }
    set (b := map (hd 0) rest) in *. set (C := map (@tl Q) rest) in *.
    destruct (factorize n (schur a b C)) as [F'|] eqn:HF'; [|discriminate].
    injection HF as <-.
    assert (Hb : length b = n) by (unfold b; now rewrite length_map).
    assert (HS : square_symmetric n (schur a b C)) by now apply schur_symmetric.
    assert (HCl : length C = n) by apply Hsub.
    assert (HCrow : forall i, (i < n)%nat -> length (nth i C []) = n).
    { intros i Hi. destruct Hsub as (_ & Hrows & _).
      rewrite Forall_forall in Hrows. apply Hrows, nth_In. lia. }
    set (rhs := vsub y1 (vscale (y0 / a) b)).
    assert (Hsc : length (vscale (y0 / a) b) = n)
      by (unfold vscale; now rewrite length_map).
    assert (Hrhs : length rhs = n) by (unfold rhs; rewrite vsub_length; lia).
    pose proof (IH (schur a b C) F' rhs HS HF' Hrhs) as Hsol.
    cbn [solve_factor hd tl]. fold rhs.
    set (x1 := solve_factor F' rhs) in *.
    assert (Hx1 : length x1 = n) by (apply (solve_factor_length n _ F' rhs HF')).
    change (mat_vec ((a :: r) :: rest) (((y0 - dot b x1) / a) :: x1))
      with ((a * ((y0 - dot b x1) / a) + dot r x1)
              :: mat_vec rest (((y0 - dot b x1) / a) :: x1)).
    constructor.
    + rewrite (dot_veq_l r b x1 Hrb). field. exact Ha.
    + apply veq_nth; [rewrite mat_vec_length; lia|].
      intros i Hi. rewrite mat_vec_length, Hre in Hi.
      rewrite (veq_at _ _ i (mat_vec_cons rest ((y0 - dot b x1) / a) x1)).
      fold b C.
      rewrite at_vadd
        by (unfold vscale; rewrite length_map, mat_vec_length; congruence).
      rewrite at_vscale.
      pose proof (veq_at _ _ i Hsol) as Hi'.
      rewrite at_mat_vec, nth_schur, dot_schur_row in Hi' by (rewrite ?HCrow; lia).
      unfold rhs in Hi'. rewrite at_vsub, at_vscale in Hi' by lia.
      rewrite at_mat_vec. 
      setoid_replace (dot (nth i C []) x1)
        with (at_ y1 i - y0 / a * at_ b i + at_ b i / a * dot b x1)
        by (rewrite <- Hi'; ring).
      field. exact Ha.
Qed.

(** ** The regularized free-free block *)

Lemma add_diagonal_from_length (k : nat) (reg : Q) (A : list (list Q)) :
  length (add_diagonal_from k reg A) = length A.
Proof.
  revert k; induction A as [|r A IH]; intros k; simpl; [reflexivity | now rewrite IH].
Qed.

Lemma nth_add_diagonal_from (k : nat) (reg : Q) (A : list (list Q)) (i : nat) :
  (i < length A)%nat ->
  nth i (add_diagonal_from k reg A) []
  = set_at (nth i A []) (k + i) (at_ (nth i A []) (k + i) + reg).
Proof.
  revert k i; induction A as [|r A IH]; intros k [|i] Hi; simpl in *; try lia.
  - now rewrite Nat.add_0_r.
  - rewrite IH by lia. now rewrite Nat.add_succ_r.
Qed.

Lemma nth_block_row (H : MatrixXd) (ri ci : list nat) (i : nat) :
  (i < length ri)%nat ->
  nth i (coeffs (block H ri ci)) [] = map (fun j => coeff H (nth i ri 0%nat) j) ci.
Proof.
  intros Hi. unfold block. cbn [coeffs].
  rewrite (nth_indep _ [] (map (fun j => coeff H 0%nat j) ci))
    by (now rewrite length_map).
  exact (map_nth (fun i => map (fun j => coeff H i j) ci) ri 0%nat i).
Qed.

Lemma coeff_block (H : MatrixXd) (ri ci : list nat) (i j : nat) :
  (i < length ri)%nat -> (j < length ci)%nat ->
  coeff (block H ri ci) i j = coeff H (nth i ri 0%nat) (nth j ci 0%nat).
Proof.
  intros Hi Hj. unfold coeff at 1. rewrite nth_block_row by assumption.
  rewrite (nth_indep _ 0 (coeff H (nth i ri 0%nat) 0%nat))
    by (now rewrite length_map).
  exact (map_nth (fun j => coeff H (nth i ri 0%nat) j) ci 0%nat j).
Qed.

(** The coefficients of the block that is factorized: those of [H] on the
    free rows and columns, with [reg] added on the diagonal. *)
Lemma coeff_Hff_reg (reg : Q) (H : MatrixXd) (fr : list nat) (i j : nat) :
  (i < length fr)%nat -> (j < length fr)%nat ->
  coeff (Hff_reg reg H fr) i j
  == coeff H (nth i fr 0%nat) (nth j fr 0%nat) + (if (i =? j)%nat then reg else 0).
Proof.
  intros Hi Hj. unfold Hff_reg.
  destruct (Qeq_bool reg 0) eqn:Ereg; cbn [negb].
  - rewrite coeff_block by assumption. apply Qeq_bool_iff in Ereg.
    destruct (i =? j)%nat; rewrite ?Ereg; ring.
  - unfold coeff at 1. cbn [add_diagonal coeffs].
    rewrite nth_add_diagonal_from by (simpl; now rewrite length_map).
    cbn [Nat.add]. fold (at_ (nth i (coeffs (block H fr fr)) []) i).
    fold (at_ (set_at (nth i (coeffs (block H fr fr)) []) i
                      (at_ (nth i (coeffs (block H fr fr)) []) i + reg)) j).
    destruct (Nat.eqb_spec i j) as [<- | Hij].
    + rewrite at_set_at_same by (rewrite nth_block_row, length_map; assumption).
      change (at_ (nth i (coeffs (block H fr fr)) []) i)
        with (coeff (block H fr fr) i i).
      rewrite coeff_block by assumption. reflexivity.
    + rewrite at_set_at_other by assumption.
      change (at_ (nth i (coeffs (block H fr fr)) []) j)
        with (coeff (block H fr fr) i j).
      rewrite coeff_block by assumption. ring.
Qed.

Lemma Hff_reg_shape (reg : Q) (H : MatrixXd) (fr : list nat) :
  rows (Hff_reg reg H fr) = length fr
  /\ length (coeffs (Hff_reg reg H fr)) = length fr
  /\ Forall (fun r => length r = length fr) (coeffs (Hff_reg reg H fr)).
Proof.
  unfold Hff_reg. destruct (negb (Qeq_bool reg 0)); cbn [add_diagonal block rows coeffs].
  - split; [reflexivity|]. split; [now rewrite add_diagonal_from_length, length_map|].
    rewrite Forall_forall. intros row Hin.
    destruct (In_nth _ _ [] Hin) as (i & Hi & <-).
    rewrite add_diagonal_from_length, length_map in Hi.
    rewrite nth_add_diagonal_from by (now rewrite length_map).
    rewrite set_at_length.
    change (length (nth i (coeffs (block H fr fr)) []) = length fr).
    rewrite nth_block_row by assumption. apply length_map.
  - split; [reflexivity|]. split; [apply length_map|].
    rewrite Forall_forall. intros row Hin. apply in_map_iff in Hin.
    destruct Hin as (i & <- & _). apply length_map.
Qed.

Lemma Hff_reg_symmetric (reg : Q) (H : MatrixXd) (fr : list nat) :
  symmetric H -> (forall i, In i fr -> (i < rows H)%nat) ->
  square_symmetric (length fr) (coeffs (Hff_reg reg H fr)).
Proof.
  intros Hsym Hfr. destruct (Hff_reg_shape reg H fr) as (_ & Hl & Hrows).
  split; [exact Hl|]. split; [exact Hrows|].
  intros i j Hi Hj.
  change (coeff (Hff_reg reg H fr) i j == coeff (Hff_reg reg H fr) j i).
  rewrite !coeff_Hff_reg by assumption.
  rewrite (Hsym (nth i fr 0%nat) (nth j fr 0%nat)) by (apply Hfr, nth_In; assumption).
  rewrite (Nat.eqb_sym j i). reflexivity.
Qed.

(** ** The direction of the Newton step *)

Lemma scatter_loop_outside (fr : list nat) (dxf : VectorXd) (l : list nat)
      (w : VectorXd) (p : nat) :
  (forall i, In i l -> nth i fr 0%nat <> p) ->
  at_ (fold_left (fun w i => set_at w (nth i fr 0%nat) (at_ dxf i)) l w) p = at_ w p.
Proof.
  revert w; induction l as [|i l IH]; intros w Hl; simpl; [reflexivity|].
  rewrite IH by (intros; apply Hl; now right).
  apply at_set_at_other. apply Hl. now left.
Qed.

Lemma scatter_loop_length (fr : list nat) (dxf : VectorXd) (l : list nat) (w : VectorXd) :
  length (fold_left (fun w i => set_at w (nth i fr 0%nat) (at_ dxf i)) l w) = length w.
Proof.
  revert w; induction l as [|i l IH]; intros w; simpl; [reflexivity|].
  now rewrite IH, set_at_length.
Qed.

(** On the free indices the direction is [dxf_]. *)
Lemma scatter_inside (fr : list nat) (dxf dx : VectorXd) (i : nat) :
  NoDup fr -> (forall j, In j fr -> (j < length dx)%nat) ->
  (i < length fr)%nat ->
  at_ (scatter fr dxf dx) (nth i fr 0%nat) = at_ dxf i.
Proof.
  intros Hnd Hfr Hi. unfold scatter.
  assert (G : forall (l : list nat) (w : VectorXd),
             NoDup l -> (forall i', In i' l -> (i' < length fr)%nat) ->
             length w = length dx -> In i l ->
             at_ (fold_left (fun w i => set_at w (nth i fr 0%nat) (at_ dxf i)) l w)
                 (nth i fr 0%nat) = at_ dxf i).
  { induction l as [|i' l IH]; intros w Hl Hlt Hw Hin; [destruct Hin|].
    inversion Hl as [|? ? Hnotin Hl']; subst. simpl.
    destruct Hin as [-> | Hin].
    - rewrite scatter_loop_outside.
      + apply at_set_at_same. rewrite Hw. apply Hfr, nth_In, Hi.
      + intros i2 Hi2 E.
        assert (i2 = i); [|subst; contradiction].
        apply (proj1 (NoDup_nth fr 0%nat) Hnd); auto. apply Hlt. now right.
    - apply IH; auto.
      + intros i2 Hi2. apply Hlt. now right.
      + now rewrite set_at_length. }
  apply G.
  - apply seq_NoDup.
  - intros i' Hi'. apply in_seq in Hi'. lia.
  - unfold setZero. apply length_map.
  - apply in_seq. lia.
Qed.

Lemma reduced_rhs_veq (H : MatrixXd) (q xk : VectorXd) (cl fr : list nat) :
  veq (reduced_rhs H q xk cl fr)
      (vsub (vopp (map (at_ q) fr))
            (mat_vec (coeffs (block H fr cl)) (map (at_ xk) cl))).
Proof.
  unfold reduced_rhs. destruct cl as [|c cl]; [|apply veq_refl].
  cbn [length Nat.eqb negb block coeffs map mat_vec].
  induction fr as [|f fr IH]; simpl; constructor; [ring | exact IH].
Qed.

Lemma reduced_rhs_length (H : MatrixXd) (q xk : VectorXd) (cl fr : list nat) :
  length (reduced_rhs H q xk cl fr) = length fr.
Proof.
  unfold reduced_rhs, vopp.
  destruct (negb (length cl =? 0)%nat).
  - rewrite vsub_length; rewrite !length_map; [reflexivity|].
    unfold block. cbn [coeffs]. now rewrite mat_vec_length, length_map.
  - now rewrite !length_map.
Qed.

(** A pass that goes past the convergence test leaves in [dx_] the
    direction computed before the line search. *)
Lemma iteration_direction (H : MatrixXd) (q lb ub : VectorXd) (k : nat) (s : BoxQP) :
  converged (classify H q lb ub s) = false ->
  info (compute (Hff_reg (reg_ s) H (free_idx_ (classify H q lb ub s)))) = Success ->
  dx_ (flow_state (iteration H q lb ub k s)) = dx_ (before_line_search H q lb ub s)
  /\ exists s', iteration H q lb ub k s = Return s' \/ iteration H q lb ub k s = Continue s'.
Proof.
  intros Hc Hi. rewrite <- (classify_parameters H q lb ub s) in Hi.
  destruct (iteration_cases H q lb ub k s)
    as [(Hc' & _) | [(Hc' & _) | [(_ & Hi' & _) | [(_ & _ & _ & E)
       | (_ & _ & _ & E)]]]]; try congruence; rewrite E; cbv beta iota delta [flow_state].
  - split; [reflexivity | eauto].
  - split; [|eauto].
    now destruct (line_search_same H q lb ub
                    (objective H q (x_ (before_line_search H q lb ub s)))
                    (alphas_ (before_line_search H q lb ub s))
                    (before_line_search H q lb ub s))
      as (_ & _ & _ & _ & _ & _ & _ & _ & _ & _ & Ldx & _).
Qed.

(** ** The solution of the system is unique *)

Lemma vsub_veq (a a' b b' : VectorXd) :
  veq a a' -> veq b b' -> veq (vsub a b) (vsub a' b').
Proof.
  intros Ha; revert b b'; induction Ha as [|x x' a a' Hx Ha IH]; intros b b' Hb;
    inversion Hb; subst; simpl; constructor; [now rewrite Hx, H | now apply IH].
Qed.

Lemma vscale_veq (c c' : Q) (b : VectorXd) : c == c' -> veq (vscale c b) (vscale c' b).
Proof.
  intros Hc. induction b as [|x b IH]; simpl; constructor; [now rewrite Hc | exact IH].
Qed.

Lemma solve_factor_veq (F : factor) :
  forall y y', veq y y' -> veq (solve_factor F y) (solve_factor F y').
Proof.
  induction F as [|a b F IH]; intros y y' Hy; simpl; [constructor|].
  assert (Hhd : hd 0 y == hd 0 y') by (destruct Hy; [reflexivity | assumption]).
  assert (Htl : veq (tl y) (tl y')) by (destruct Hy; [constructor | assumption]).
  assert (Hx1 : veq (solve_factor F (vsub (tl y) (vscale (hd 0 y / a) b)))
                    (solve_factor F (vsub (tl y') (vscale (hd 0 y' / a) b)))).
  { apply IH, vsub_veq; [exact Htl|]. apply vscale_veq. now rewrite Hhd. }
  constructor; [|exact Hx1].
  rewrite (dot_veq_r b _ _ Hx1), Hhd. reflexivity.
Qed.

Lemma solve_factor_left_inverse (n : nat) :
  forall (A : list (list Q)) (F : factor) (z : VectorXd),
    square_symmetric n A -> factorize n A = Some F -> length z = n ->
    veq (solve_factor F (mat_vec A z)) z.
Proof.
  induction n as [|n IH]; intros A F z HA HF Hz.
  - simpl in HF. injection HF as <-. destruct z; [constructor | discriminate].
  - destruct (square_symmetric_cons n A HA)
      as (a & r & rest & -> & Hr & Hre & Hrb & Hsub).
    destruct z as [|z0 z1]; [discriminate|]. simpl in Hz.
    apply Nat.succ_inj in Hz.
    simpl in HF. unfold at_ in HF. simpl in HF.
    destruct (Qle_bool a 0) eqn:Hpiv; [discriminate|].
    assert (Ha : ~ a == 0).
    { intros E. rewrite <- not_true_iff_false, Qle_bool_iff in Hpiv.
      apply Hpiv. rewrite E. apply Qle_refl. }
    set (b := map (hd 0) rest) in *. set (C := map (@tl Q) rest) in *.
    destruct (factorize n (schur a b C)) as [F'|] eqn:HF'; [|discriminate].
    injection HF as <-.
    assert (Hb : length b = n) by (unfold b; now rewrite length_map).
    assert (HS : square_symmetric n (schur a b C)) by now apply schur_symmetric.
    assert (HCl : length C = n) by apply Hsub.
    assert (HCrow : forall i, (i < n)%nat -> length (nth i C []) = n).
    { intros i Hi. destruct Hsub as (_ & Hrows & _).
      rewrite Forall_forall in Hrows. apply Hrows, nth_In. lia. }
    change (mat_vec ((a :: r) :: rest) (z0 :: z1))
      with ((a * z0 + dot r z1) :: mat_vec rest (z0 :: z1)).
    cbn [solve_factor hd tl].
    set (rhs := vsub (mat_vec rest (z0 :: z1)) (vscale ((a * z0 + dot r z1) / a) b)).
    assert (Hrhs : veq rhs (mat_vec (schur a b C) z1)).
    { apply veq_nth.
      - unfold rhs. rewrite vsub_length; unfold vscale;
          rewrite ?length_map, !mat_vec_length, ?schur_length; congruence.
      - intros i Hi. unfold rhs in Hi.
        rewrite vsub_length, mat_vec_length, Hre in Hi
          by (unfold vscale; rewrite length_map, mat_vec_length; congruence).
        unfold rhs. rewrite at_vsub
          by (unfold vscale; rewrite length_map, mat_vec_length; congruence).
        rewrite (veq_at _ _ i (mat_vec_cons rest z0 z1)). fold b C.
        rewrite at_vadd
          by (unfold vscale; rewrite length_map, mat_vec_length; congruence).
        rewrite !at_vscale, !at_mat_vec, nth_schur, dot_schur_row
          by (rewrite ?HCrow; lia).
        rewrite (dot_veq_l r b z1 Hrb). field. exact Ha. }
    pose proof (veq_trans _ _ _ (solve_factor_veq F' _ _ Hrhs)
                  (IH (schur a b C) F' z1 HS HF' Hz)) as Hx1.
    constructor; [|exact Hx1].
    rewrite (dot_veq_r b _ _ Hx1), (dot_veq_l r b z1 Hrb). field. exact Ha.
Qed.

(** Any solution of the system is the one the factor gives. *)
Lemma solve_factor_unique (n : nat) (A : list (list Q)) (F : factor) (y z : VectorXd) :
  square_symmetric n A -> factorize n A = Some F -> length z = n ->
  veq (mat_vec A z) y -> veq z (solve_factor F y).
Proof.
  intros HA HF Hz Hzy.
  apply veq_sym. eapply veq_trans; [apply solve_factor_veq, veq_sym, Hzy|].
  now apply (solve_factor_left_inverse n).
Qed.

Lemma compute_success (M : MatrixXd) :
  info (compute M) = Success ->
  factorize (rows M) (coeffs M) = Some (matrixLLT (compute M)).
Proof.
  unfold compute. destruct (factorize (rows M) (coeffs M)); simpl;
    [reflexivity | discriminate].
Qed.

(** C2 (as amended): in a pass that goes on to the Newton step (the
    convergence test does not stop it and the factorization succeeds), for
    a symmetric [H]:
    [y] is the solution of [Hff_reg y = -qf - Hfc xc], where [Hff_reg] is
    the free-free block of [H] with [reg_] added on its diagonal, and it is
    the only one, that is [y = Hff_reg^-1 (-qf - Hfc xc)]; [dxf = y - xf];
    and the direction [dx_] that the pass leaves holds [dxf] on the free
    indices and 0 on the clamped ones. *)
Theorem reduced_newton_direction (s : BoxQP) (H : MatrixXd) (q lb ub : VectorXd) (k : nat) :
  sized s -> well_formed H -> rows H = nx_ s -> cols H = nx_ s -> symmetric H ->
  converged (classify H q lb ub s) = false ->
  info (compute (Hff_reg (reg_ s) H (free_idx_ (classify H q lb ub s)))) = Success ->
  let fr := free_idx_ (classify H q lb ub s) in
  let cl := clamped_idx_ (classify H q lb ub s) in
  let Hreg := Hff_reg (reg_ s) H fr in
  let rhs := vsub (vopp (map (at_ q) fr))
                  (mat_vec (coeffs (block H fr cl)) (map (at_ (x_ s)) cl)) in
  let xf := map (at_ (x_ s)) fr in
  let dx := dx_ (flow_state (iteration H q lb ub k s)) in
  exists y dxf,
    veq (mat_vec (coeffs Hreg) y) rhs
    /\ (forall z, length z = length fr -> veq (mat_vec (coeffs Hreg) z) rhs -> veq z y)
    /\ dxf = vsub y xf
    /\ (forall i j, (i < length fr)%nat -> (j < length fr)%nat ->
                    coeff Hreg i j
                    == coeff H (nth i fr 0%nat) (nth j fr 0%nat)
                       + (if (i =? j)%nat then reg_ s else 0))
    /\ (forall i, (i < length fr)%nat -> at_ dx (nth i fr 0%nat) = at_ dxf i)
    /\ (forall j, In j cl -> at_ dx j = 0)
    /\ (forall j, ~ In j fr -> at_ dx j = 0).
Proof.
  intros Hs Hwf Hr Hc Hsym Hconv Hinfo fr cl Hreg rhs xf dx.
  set (llt := compute Hreg) in *.
  set (rhs0 := reduced_rhs H q (x_ s) cl fr).
  pose proof (classify_consistent H q lb ub s) as (Hnd & Hcov & _ & _).
  fold fr cl in Hnd, Hcov.
  assert (Hfr_lt : forall j, In j fr -> (j < nx_ s)%nat).
  { intros j Hj. apply Hcov, in_or_app. now left. }
  assert (Hfr_nd : NoDup fr) by (eapply NoDup_app_remove_r, Hnd).
  assert (Hcl_fr : forall j, In j cl -> ~ In j fr)
    by (intros j Hj; now apply (NoDup_app_disjoint fr cl)).
  assert (HA : square_symmetric (length fr) (coeffs Hreg)).
  { apply Hff_reg_symmetric; [exact Hsym|]. intros i Hi. rewrite Hr. now apply Hfr_lt. }
  destruct (Hff_reg_shape (reg_ s) H fr) as (Hrows & _). fold Hreg in Hrows.
  pose proof (compute_success Hreg Hinfo) as HF. rewrite Hrows in HF. fold llt in HF.
  assert (Hrhs0 : veq rhs0 rhs) by apply reduced_rhs_veq.
  assert (Hlen0 : length rhs0 = length fr) by apply reduced_rhs_length.
  destruct (iteration_direction H q lb ub k s Hconv Hinfo) as (Hdx & _).
  fold dx in Hdx.
  pose proof (before_line_search_dx H q lb ub s) as Bd. cbv zeta in Bd.
  rewrite (classify_parameters H q lb ub s) in Bd.
  fold fr cl Hreg llt in Bd. rewrite Bd in Hdx. clear Bd.
  exists (solveInPlace llt rhs0), (newton_dxf llt H q (x_ s) cl fr).
  split; [|split; [|split; [|split; [|split; [|split]]]]].
  - eapply veq_trans; [|exact Hrhs0].
    apply (solve_factor_correct (length fr)); assumption.
  - intros z Hz Hzr. apply (solve_factor_unique (length fr) (coeffs Hreg)); auto.
    eapply veq_trans; [exact Hzr | apply veq_sym, Hrhs0].
  - reflexivity.
  - intros i j Hi Hj. now apply coeff_Hff_reg.
  - intros i Hi. rewrite Hdx. apply scatter_inside; auto.
    intros j Hj. destruct Hs as (_ & _ & ->). now apply Hfr_lt.
  - intros j Hj. rewrite Hdx. apply scatter_outside. now apply Hcl_fr.
  - intros j Hj. rewrite Hdx. now apply scatter_outside.
Qed.

Lemma reduced_newton_direction_witness :
  sized single_start /\ well_formed H_single /\ symmetric H_single
  /\ converged (classify H_single [-4] [0] [1] single_start) = false
  /\ exists y dxf,
      veq (mat_vec [[2]] y) [4]
      /\ dxf = vsub y [0]
      /\ at_ (dx_ (flow_state (iteration H_single [-4] [0] [1] 0 single_start))) 0
         = at_ dxf 0.
Proof.
  assert (Hs : sized single_start) by (apply warm_start_sized, BoxQP_BoxQP_sized).
  assert (Hwf : well_formed H_single) by (split; [reflexivity | repeat constructor]).
  assert (Hc : converged (classify H_single [-4] [0] [1] single_start) = false)
    by (vm_compute; reflexivity).
  assert (Hi : info (compute (Hff_reg (reg_ single_start) H_single
                                (free_idx_ (classify H_single [-4] [0] [1] single_start))))
               = Success) by (vm_compute; reflexivity).
  split; [exact Hs|]. split; [exact Hwf|]. split; [exact H_single_symmetric|].
  split; [exact Hc|].
  destruct (reduced_newton_direction single_start H_single [-4] [0] [1] 0 Hs Hwf
              eq_refl eq_refl H_single_symmetric Hc Hi)
    as (y & dxf & Hy & _ & Hdxf & _ & Hfree & _).
  exists y, dxf. split; [exact Hy|]. split; [exact Hdxf|].
  apply (Hfree 0%nat). simpl. lia.
Defined.

(** C2 (as stated) fails: a pass with a free coordinate that stops at the
    convergence test computes no direction.  On the separable problem with
    [q = [-3, -2]], the box [[0, 1] x [-16, 16]] and a gradient threshold
    of 1, the first pass moves the iterate to [(1, 1)] with [dx_ = (3/2, 1)];
    the second pass clamps coordinate 0, keeps coordinate 1 free and stops at
    the convergence test with [dx_] as the first pass left it: not 0 on the
    clamped coordinate, and 1 on the free coordinate, where the direction
    of the claim is 0. *)
Lemma reduced_newton_direction_counterexample :
  exists s1 s',
    iteration H_diagonal [-3; -2] [0; -16] [1; 16] 0 loose_start = Continue s1
    /\ iteration H_diagonal [-3; -2] [0; -16] [1; 16] 1 s1 = Return s'
    /\ free_idx_ s' = [1%nat] /\ clamped_idx_ s' = [0%nat]
    /\ veq (x_ s1) [1; 1]
    /\ veq (dx_ s') [3 # 2; 1]
    /\ ~ at_ (dx_ s') 0 == 0
    /\ (forall y,
           veq (mat_vec (coeffs (Hff_reg (reg_ s1) H_diagonal [1%nat])) y)
               (vsub (vopp (map (at_ [-3; -2]) [1%nat]))
                     (mat_vec (coeffs (block H_diagonal [1%nat] [0%nat]))
                              (map (at_ (x_ s1)) [0%nat]))) ->
           at_ (vsub y (map (at_ (x_ s1)) [1%nat])) 0 == 0)
    /\ ~ at_ (dx_ s') 1 == 0.
Proof.
  eexists. eexists.
  split; [vm_compute; reflexivity|]. split; [vm_compute; reflexivity|].
  split; [reflexivity|]. split; [reflexivity|].
  split; [repeat constructor; vm_compute; reflexivity|].
  split; [repeat constructor; vm_compute; reflexivity|].
  split; [intros E; vm_compute in E; discriminate|].
  split; [|intros E; vm_compute in E; discriminate].
  intros y Hy. cbn in Hy.
  destruct y as [|y0 y]; cbn in Hy |- *; inversion Hy as [|? ? ? ? E0 _]; subst.
  - vm_compute in E0. discriminate.
  - unfold at_. cbn. lra.
Qed.

(** ** The kernel on concrete problems *)

(** With a box that does not bind, the solver returns the unconstrained
    minimizer and both coordinates are free. *)
Example solve_pair_unconstrained :
  exists s' sol,
    solve solver_pair H_pair [-4; 2] [-16; -16] [16; 16] [0; 0] = (s', inr sol)
    /\ veq (x sol) [3; -4] /\ free_idx sol = [0%nat; 1%nat] /\ clamped_idx sol = []
    /\ veq (mat_vec (coeffs H_pair) (x sol)) (vopp [-4; 2]).
Proof.
  eexists. eexists. split; [vm_compute; reflexivity|]. simpl.
  repeat split; repeat constructor; vm_compute; reflexivity.
Qed.

(** With the box [[0, 1]] on the first coordinate, that coordinate is
    clamped at its upper bound and the second one minimizes the reduced
    problem. *)
Example solve_pair_clamped :
  exists s' sol,
    solve solver_pair H_pair [-4; 2] [0; -16] [1; 16] [0; 0] = (s', inr sol)
    /\ veq (x sol) [1; -2] /\ free_idx sol = [1%nat] /\ clamped_idx sol = [0%nat]
    /\ coeffs (Hff_inv sol) = [[1 # 2]].
Proof.
  eexists. eexists. split; [vm_compute; reflexivity|]. simpl.
  repeat split; repeat constructor; vm_compute; reflexivity.
Qed.

(** The one-dimensional problem of the specification: the unconstrained
    minimizer 2 is outside the box, and the solver returns the upper bound
    with the coordinate clamped. *)
Example solve_single_active_bound :
  snd (solve solver_single H_single [-4] [0] [1] [0])
  = inr (mkBoxQPSolution (mkMatrixXd 1 1 [[1 # 2]]) [1] [] [0%nat]).
Proof. vm_compute. reflexivity. Qed.

(** * Further properties of [BoxQP::solve] *)

(** ** What a call leaves in the solver *)

Lemma classify_configuration (H : MatrixXd) (q lb ub : VectorXd) (s : BoxQP) :
  same_configuration s (classify H q lb ub s)
  /\ solution_ (classify H q lb ub s) = solution_ s.
Proof.
  unfold classify. cbn [with_idx with_g x_ g_ nx_ clamped_idx_ free_idx_].
  rewrite partition_loop_filter. repeat split.
Qed.

Lemma before_line_search_configuration (H : MatrixXd) (q lb ub : VectorXd) (s : BoxQP) :
  same_configuration s (before_line_search H q lb ub s)
  /\ solution_ (before_line_search H q lb ub s) = solution_ s.
Proof.
  destruct (classify_configuration H q lb ub s)
    as ((C1 & C2 & C3 & C4 & C5 & C6) & C7).
  unfold before_line_search. cbv zeta. unfold same_configuration.
  cbn [with_dx with_Hff_inv nx_ maxiter_ th_acceptstep_ th_grad_ reg_ alphas_ solution_].
  auto 10.
Qed.

(** One pass: the configuration stays; a pass that returns has filled the
    solution from the members, any other pass leaves the solution alone,
    and the only exception of a pass is [backward_error]. *)
Lemma iteration_frame (H : MatrixXd) (q lb ub : VectorXd) (k : nat) (s : BoxQP) :
  same_configuration s (flow_state (iteration H q lb ub k s))
  /\ match iteration H q lb ub k s with
     | Return s' => solution_ s' = members_solution s'
     | Continue s' => solution_ s' = solution_ s
     | Throw s' e => solution_ s' = solution_ s /\ e = throw_pretty "backward_error"
     end.
Proof.
  pose proof (classify_configuration H q lb ub s) as (Cc & Cs).
  pose proof (before_line_search_configuration H q lb ub s) as (Bc & Bs).
  destruct (iteration_cases H q lb ub k s)
    as [(_ & _ & _ & E) | [(_ & _ & E) | [(_ & _ & E) | [(_ & _ & _ & E)
       | (_ & _ & _ & E)]]]]; rewrite E; cbv beta iota zeta delta [flow_state].
  - split; [exact Cc | reflexivity].
  - split; [exact Cc | reflexivity].
  - split; [exact Cc | split; [exact Cs | reflexivity]].
  - split; [exact Bc | reflexivity].
  - destruct (line_search_same H q lb ub
                (objective H q (x_ (before_line_search H q lb ub s)))
                (alphas_ (before_line_search H q lb ub s))
                (before_line_search H q lb ub s))
      as (L1 & L2 & L3 & L4 & L5 & L6 & _ & _ & L7 & _).
    destruct Bc as (B1 & B2 & B3 & B4 & B5 & B6).
    split; [unfold same_configuration; repeat split; congruence | congruence].
Qed.

Lemma same_configuration_trans (s1 s2 s3 : BoxQP) :
  same_configuration s1 s2 -> same_configuration s2 s3 -> same_configuration s1 s3.
Proof.
  unfold same_configuration. intros (A1 & A2 & A3 & A4 & A5 & A6)
    (B1 & B2 & B3 & B4 & B5 & B6). repeat split; congruence.
Qed.

Lemma for_k_frame (H : MatrixXd) (q lb ub : VectorXd) (remaining k : nat) (s : BoxQP) :
  let r := for_k H q lb ub remaining k s in
  same_configuration s (fst r)
  /\ match snd r with
     | inr sol => sol = solution_ (fst r) /\ sol = members_solution (fst r)
     | inl e => solution_ (fst r) = solution_ s /\ e = throw_pretty "backward_error"
     end.
Proof.
  revert k s; induction remaining as [|n IH]; intros k s; cbn [for_k].
  - cbv zeta. split; [repeat split | split; reflexivity].
  - pose proof (iteration_frame H q lb ub k s) as (Hc & Hm).
    destruct (iteration H q lb ub k s) as [s1 | s1 | s1 e]; cbn [flow_state] in Hc.
    + specialize (IH (S k) s1). cbv zeta in IH. destruct IH as (Hc' & Hm').
      split; [exact (same_configuration_trans _ _ _ Hc Hc')|].
      destruct (snd (for_k H q lb ub n (S k) s1)); [|exact Hm'].
      destruct Hm' as (E1 & E2). split; congruence.
    + cbn [fst snd]. split; [exact Hc | split; [reflexivity | exact Hm]].
    + cbn [fst snd]. split; [exact Hc | exact Hm].
Qed.

Lemma warm_start_configuration (s : BoxQP) (lb ub xinit : VectorXd) :
  same_configuration s (warm_start s lb ub xinit)
  /\ solution_ (warm_start s lb ub xinit) = solution_ s.
Proof. repeat split. Qed.

(** X1: a call of [solve], whatever its outcome, leaves the construction
    parameters ([nx_], [maxiter_], the thresholds, [reg_]) and the schedule
    as they were, and keeps the sizes of the vectors of the solver. *)
Theorem solve_keeps_configuration (s : BoxQP) (H : MatrixXd) (q lb ub xinit : VectorXd) :
  sized s ->
  same_configuration s (fst (solve s H q lb ub xinit))
  /\ sized (fst (solve s H q lb ub xinit)).
Proof.
  intros Hs. split; [|now apply solve_sized].
  unfold solve.
  destruct (check_dimensions (nx_ s) H q lb ub xinit); [repeat split|].
  destruct (for_k_frame H q lb ub (maxiter_ s) 0 (warm_start s lb ub xinit)) as (Hc & _).
  exact (same_configuration_trans _ _ _
           (proj1 (warm_start_configuration s lb ub xinit)) Hc).
Qed.

Lemma solve_keeps_configuration_witness :
  sized solver_single
  /\ same_configuration solver_single (fst (solve solver_single H_single [-4] [0] [1] [0]))
  /\ sized (fst (solve solver_single H_single [-4] [0] [1] [0])).
Proof.
  assert (Hs : sized solver_single) by apply BoxQP_BoxQP_sized.
  split; [exact Hs|].
  exact (solve_keeps_configuration solver_single H_single [-4] [0] [1] [0] Hs).
Defined.

(** X2: when [solve] throws, for a wrong size or for a failed
    factorization, the solution stored in the solver is the one it held
    before the call. *)
Theorem solve_failure_keeps_solution (s : BoxQP) (H : MatrixXd) (q lb ub xinit : VectorXd)
        (s' : BoxQP) (e : Exception) :
  solve s H q lb ub xinit = (s', inl e) ->
  solution_ s' = solution_ s.
Proof.
  unfold solve. intros Hsolve.
  destruct (check_dimensions (nx_ s) H q lb ub xinit).
  - now inversion Hsolve.
  - pose proof (for_k_frame H q lb ub (maxiter_ s) 0 (warm_start s lb ub xinit)) as Hf.
    cbv zeta in Hf. rewrite Hsolve in Hf. cbn [fst snd] in Hf.
    destruct Hf as (_ & Hsol & _). exact Hsol.
Qed.

Lemma solve_failure_keeps_solution_witness :
  solve solver_indefinite H_indefinite [1] [1 # 2] [10] [2]
  = (fst (solve solver_indefinite H_indefinite [1] [1 # 2] [10] [2]),
     inl (throw_pretty "backward_error"))
  /\ solution_ (fst (solve solver_indefinite H_indefinite [1] [1 # 2] [10] [2]))
     = solution_ solver_indefinite.
Proof.
  assert (E : solve solver_indefinite H_indefinite [1] [1 # 2] [10] [2]
              = (fst (solve solver_indefinite H_indefinite [1] [1 # 2] [10] [2]),
                 inl (throw_pretty "backward_error")))
    by (vm_compute; reflexivity).
  split; [exact E|].
  exact (solve_failure_keeps_solution _ _ _ _ _ _ _ _ E).
Defined.

(** X3: when [solve] returns, on any of its paths, the value returned is
    the solution stored in the solver, and its four fields are the members
    [Hff_inv_], [x_], [free_idx_] and [clamped_idx_] of the solver after the
    call. *)
Theorem solve_returns_members (s : BoxQP) (H : MatrixXd) (q lb ub xinit : VectorXd)
        (s' : BoxQP) (sol : BoxQPSolution) :
  solve s H q lb ub xinit = (s', inr sol) ->
  sol = solution_ s' /\ sol = members_solution s'.
Proof.
  unfold solve. intros Hsolve.
  destruct (check_dimensions (nx_ s) H q lb ub xinit); [discriminate|].
  pose proof (for_k_frame H q lb ub (maxiter_ s) 0 (warm_start s lb ub xinit)) as Hf.
  cbv zeta in Hf. rewrite Hsolve in Hf. cbn [fst snd] in Hf.
  exact (proj2 Hf).
Qed.

Lemma solve_returns_members_witness :
  solve solver_single H_single [-4] [0] [1] [0]
  = (fst (solve solver_single H_single [-4] [0] [1] [0]),
     inr (mkBoxQPSolution (mkMatrixXd 1 1 [[1 # 2]]) [1] [] [0%nat]))
  /\ mkBoxQPSolution (mkMatrixXd 1 1 [[1 # 2]]) [1] [] [0%nat]
     = members_solution (fst (solve solver_single H_single [-4] [0] [1] [0])).
Proof.
  assert (E : solve solver_single H_single [-4] [0] [1] [0]
              = (fst (solve solver_single H_single [-4] [0] [1] [0]),
                 inr (mkBoxQPSolution (mkMatrixXd 1 1 [[1 # 2]]) [1] [] [0%nat])))
    by (vm_compute; reflexivity).
  split; [exact E|].
  exact (proj2 (solve_returns_members _ _ _ _ _ _ _ _ E)).
Defined.

(** X4: with arguments of the right sizes the only exception [solve] can
    throw is [backward_error]; an invalid-argument exception means a wrong
    size. *)
Theorem solve_well_sized_exception (s : BoxQP) (H : MatrixXd) (q lb ub xinit : VectorXd)
        (s' : BoxQP) (e : Exception) :
  well_sized (nx_ s) H q lb ub xinit ->
  solve s H q lb ub xinit = (s', inl e) ->
  e = throw_pretty "backward_error".
Proof.
  intros Hw. unfold solve.
  rewrite (proj2 (check_dimensions_none _ _ _ _ _ _) Hw). intros Hsolve.
  pose proof (for_k_frame H q lb ub (maxiter_ s) 0 (warm_start s lb ub xinit)) as Hf.
  cbv zeta in Hf. rewrite Hsolve in Hf. cbn [fst snd] in Hf.
  exact (proj2 (proj2 Hf)).
Qed.

Lemma solve_well_sized_exception_witness :
  well_sized 1 H_indefinite [1] [1 # 2] [10] [2]
  /\ solve solver_indefinite H_indefinite [1] [1 # 2] [10] [2]
     = (fst (solve solver_indefinite H_indefinite [1] [1 # 2] [10] [2]),
        inl (throw_pretty "backward_error")).
Proof.
  assert (Hw : well_sized (nx_ solver_indefinite) H_indefinite [1] [1 # 2] [10] [2])
    by (repeat split).
  split; [exact Hw|].
  destruct (solve solver_indefinite H_indefinite [1] [1 # 2] [10] [2])
    as [s' [e | sol]] eqn:E.
  - cbn [fst]. f_equal. f_equal.
    exact (solve_well_sized_exception _ _ _ _ _ _ s' e Hw E).
  - exfalso. revert E. vm_compute. discriminate.
Defined.

(** ** The outcome does not depend on earlier calls *)

Lemma setZero_length_eq (a b : VectorXd) :
  length a = length b -> setZero a = setZero b.
Proof.
  unfold setZero. revert b; induction a as [|x a IH]; intros [|y b] Hl; simpl in *;
    try discriminate; [reflexivity|]. f_equal. apply IH. lia.
Qed.

(** What a pass computes before its line search is determined by the
    configuration and the iterate. *)
Lemma pass_data_independent (H : MatrixXd) (q lb ub : VectorXd) (s1 s2 : BoxQP) :
  same_configuration s1 s2 -> x_ s1 = x_ s2 -> sized s1 -> sized s2 ->
  let c1 := classify H q lb ub s1 in
  let c2 := classify H q lb ub s2 in
  let b1 := before_line_search H q lb ub s1 in
  let b2 := before_line_search H q lb ub s2 in
  (g_ c1 = g_ c2 /\ free_idx_ c1 = free_idx_ c2 /\ clamped_idx_ c1 = clamped_idx_ c2
   /\ th_grad_ c1 = th_grad_ c2 /\ reg_ c1 = reg_ c2 /\ x_ c1 = x_ c2)
  /\ (g_ b1 = g_ b2 /\ free_idx_ b1 = free_idx_ b2 /\ clamped_idx_ b1 = clamped_idx_ b2
      /\ th_grad_ b1 = th_grad_ b2 /\ x_ b1 = x_ b2 /\ dx_ b1 = dx_ b2
      /\ Hff_inv_ b1 = Hff_inv_ b2 /\ alphas_ b1 = alphas_ b2
      /\ th_acceptstep_ b1 = th_acceptstep_ b2 /\ nx_ b1 = nx_ b2).
Proof.
  intros (N & _ & Ta & Tg & R & Al) Hx (_ & _ & D1) (_ & _ & D2). cbv zeta.
  destruct (classify_fields H q lb ub s1)
    as (X1 & _ & _ & N1 & _ & A1 & TA1 & TG1 & R1 & _ & G1 & CL1 & FR1).
  destruct (classify_fields H q lb ub s2)
    as (X2 & _ & _ & N2 & _ & A2 & TA2 & TG2 & R2 & _ & G2 & CL2 & FR2).
  assert (Eg : g_ (classify H q lb ub s1) = g_ (classify H q lb ub s2))
    by (rewrite G1, G2, Hx; reflexivity).
  assert (Efr : free_idx_ (classify H q lb ub s1) = free_idx_ (classify H q lb ub s2))
    by (rewrite FR1, FR2, Hx, N; reflexivity).
  assert (Ecl : clamped_idx_ (classify H q lb ub s1)
                = clamped_idx_ (classify H q lb ub s2))
    by (rewrite CL1, CL2, Hx, N; reflexivity).
  assert (Ereg : reg_ (classify H q lb ub s1) = reg_ (classify H q lb ub s2))
    by congruence.
  split; [repeat split; congruence|].
  destruct (before_line_search_fields H q lb ub s1)
    as (BX1 & _ & BN1 & BA1 & BTA1 & BTG1 & BG1 & BF1 & BC1 & _).
  destruct (before_line_search_fields H q lb ub s2)
    as (BX2 & _ & BN2 & BA2 & BTA2 & BTG2 & BG2 & BF2 & BC2 & _).
  pose proof (before_line_search_dx H q lb ub s1) as BD1.
  pose proof (before_line_search_dx H q lb ub s2) as BD2.
  cbv zeta in BD1, BD2.
  repeat split; try congruence.
  - rewrite BD1, BD2, Efr, Ecl, Ereg, Hx. unfold scatter.
    rewrite (setZero_length_eq (dx_ s1) (dx_ s2)) by congruence. reflexivity.
  - unfold before_line_search. cbv zeta. cbn [with_dx with_Hff_inv Hff_inv_].
    rewrite Efr, Ereg. reflexivity.
Qed.

(** Two solvers with the same configuration and iterate make the same
    pass: the same way out, the same new iterate, lists and inverse, the
    same solution, the same exception. *)
Lemma iteration_independent (H : MatrixXd) (q lb ub : VectorXd) (k : nat) (s1 s2 : BoxQP) :
  same_configuration s1 s2 -> x_ s1 = x_ s2 -> sized s1 -> sized s2 ->
  (k = 0%nat \/ Hff_inv_ s1 = Hff_inv_ s2) ->
  match iteration H q lb ub k s1, iteration H q lb ub k s2 with
  | Continue a, Continue b =>
      x_ a = x_ b /\ Hff_inv_ a = Hff_inv_ b /\ free_idx_ a = free_idx_ b
      /\ clamped_idx_ a = clamped_idx_ b
  | Return a, Return b => solution_ a = solution_ b
  | Throw _ e1, Throw _ e2 => e1 = e2
  | _, _ => False
  end.
Proof.
  intros Hc Hx Hs1 Hs2 Hinv.
  destruct (pass_data_independent H q lb ub s1 s2 Hc Hx Hs1 Hs2)
    as ((Cg & Cfr & Ccl & Ctg & Creg & Cx) & (Bg & Bfr & Bcl & Btg & Bx & Bdx & Binv
        & Bal & Bta & Bnx)).
  assert (Econv : converged (classify H q lb ub s1) = converged (classify H q lb ub s2))
    by (unfold converged; rewrite Cg, Cfr, Ctg; reflexivity).
  assert (Ellt : compute (Hff_reg (reg_ (classify H q lb ub s1)) H
                                   (free_idx_ (classify H q lb ub s1)))
                 = compute (Hff_reg (reg_ (classify H q lb ub s2)) H
                                     (free_idx_ (classify H q lb ub s2))))
    by (rewrite Cfr, Creg; reflexivity).
  assert (Estall : Qltb (lpNorm_Infinity (dx_ (before_line_search H q lb ub s1)))
                        (th_grad_ (before_line_search H q lb ub s1))
                   = Qltb (lpNorm_Infinity (dx_ (before_line_search H q lb ub s2)))
                          (th_grad_ (before_line_search H q lb ub s2)))
    by (rewrite Bdx, Btg; reflexivity).
  assert (Cinv : k <> 0%nat -> Hff_inv_ (classify H q lb ub s1)
                               = Hff_inv_ (classify H q lb ub s2)).
  { intros Hk. destruct Hinv as [-> | Hinv]; [congruence|].
    destruct (classify_fields H q lb ub s1) as (_ & _ & _ & _ & -> & _).
    destruct (classify_fields H q lb ub s2) as (_ & _ & _ & _ & -> & _).
    exact Hinv. }
  destruct (iteration_cases H q lb ub k s1)
    as [(F1 & F2 & F3 & E1) | [(F1 & F2 & E1) | [(F1 & F2 & E1) | [(F1 & F2 & F3 & E1)
       | (F1 & F2 & F3 & E1)]]]]; rewrite E1;
    destruct (iteration_cases H q lb ub k s2)
      as [(G1 & G2 & G3 & E2) | [(G1 & G2 & E2) | [(G1 & G2 & E2) | [(G1 & G2 & G3 & E2)
         | (G1 & G2 & G3 & E2)]]]]; rewrite E2;
    try congruence;
    try (destruct F1; congruence); try (destruct G1; congruence).
  - cbn [store_solution with_solution with_Hff_inv solution_ Hff_inv_ x_ free_idx_
         clamped_idx_]. rewrite Ellt, Cfr, Ccl, Cx. reflexivity.
  - cbn [store_solution with_solution solution_]. rewrite (Cinv F2), Cfr, Ccl, Cx.
    reflexivity.
  - cbn [store_solution with_solution solution_]. rewrite Binv, Bfr, Bcl, Bx.
    reflexivity.
  - assert (S1 : sized (before_line_search H q lb ub s1)).
    { destruct (before_line_search_fields H q lb ub s1)
        as (X & XN & N & _ & _ & _ & _ & _ & _ & D).
      destruct Hs1 as (H1 & H2 & H3). unfold sized. rewrite X, XN, N, D. auto. }
    assert (S2 : sized (before_line_search H q lb ub s2)).
    { destruct (before_line_search_fields H q lb ub s2)
        as (X & XN & N & _ & _ & _ & _ & _ & _ & D).
      destruct Hs2 as (H1 & H2 & H3). unfold sized. rewrite X, XN, N, D. auto. }
    destruct (line_search_result H q lb ub
                (objective H q (x_ (before_line_search H q lb ub s1)))
                (alphas_ (before_line_search H q lb ub s1))
                (before_line_search H q lb ub s1) S1)
      as ((_ & _ & _ & _ & _ & _ & Lfr1 & Lcl1 & _ & _ & _ & Linv1) & _ & Lx1).
    destruct (line_search_result H q lb ub
                (objective H q (x_ (before_line_search H q lb ub s2)))
                (alphas_ (before_line_search H q lb ub s2))
                (before_line_search H q lb ub s2) S2)
      as ((_ & _ & _ & _ & _ & _ & Lfr2 & Lcl2 & _ & _ & _ & Linv2) & _ & Lx2).
    rewrite Lx1, Lx2, Lfr1, Lfr2, Lcl1, Lcl2, Linv1, Linv2.
    rewrite Bg, Bfr, Bcl, Bx, Bdx, Binv, Bal, Bta, Bnx. auto.
Qed.

Lemma for_k_independent (H : MatrixXd) (q lb ub : VectorXd) (remaining : nat) :
  forall (k : nat) (s1 s2 : BoxQP),
    same_configuration s1 s2 -> x_ s1 = x_ s2 -> sized s1 -> sized s2 ->
    (k = 0%nat /\ (1 <= remaining)%nat)
    \/ (Hff_inv_ s1 = Hff_inv_ s2 /\ free_idx_ s1 = free_idx_ s2
        /\ clamped_idx_ s1 = clamped_idx_ s2) ->
    snd (for_k H q lb ub remaining k s1) = snd (for_k H q lb ub remaining k s2).
Proof.
  induction remaining as [|n IH]; intros k s1 s2 Hc Hx Hs1 Hs2 Hor; cbn [for_k].
  - destruct Hor as [(_ & Hn) | (Hi & Hf & Hcl)]; [lia|].
    cbn [snd store_solution with_solution solution_]. now rewrite Hi, Hx, Hf, Hcl.
  - assert (Hinv : k = 0%nat \/ Hff_inv_ s1 = Hff_inv_ s2)
      by (destruct Hor as [(? & _) | (? & _)]; auto).
    pose proof (iteration_independent H q lb ub k s1 s2 Hc Hx Hs1 Hs2 Hinv) as Hi.
    pose proof (iteration_frame H q lb ub k s1) as (Hc1 & _).
    pose proof (iteration_frame H q lb ub k s2) as (Hc2 & _).
    pose proof (iteration_sized H q lb ub k s1 Hs1) as (Hz1 & _).
    pose proof (iteration_sized H q lb ub k s2 Hs2) as (Hz2 & _).
    destruct (iteration H q lb ub k s1) as [a | a | a e1];
      destruct (iteration H q lb ub k s2) as [b | b | b e2]; try contradiction;
      cbn [flow_state] in *.
    + destruct Hi as (Ex & Einv & Efr & Ecl).
      apply IH; auto.
      destruct Hc as (A1 & A2 & A3 & A4 & A5 & A6).
      destruct Hc1 as (B1 & B2 & B3 & B4 & B5 & B6).
      destruct Hc2 as (C1 & C2 & C3 & C4 & C5 & C6).
      unfold same_configuration. repeat split; congruence.
    + cbn [snd]. now rewrite Hi.
    + cbn [snd]. now rewrite Hi.
Qed.

(** X5: when at least one pass is made ([maxiter >= 1]), what [solve]
    returns or throws is determined by its arguments and the construction
    parameters: two solvers with the same parameters, whatever earlier calls
    left in their members, give the same outcome. *)
Theorem solve_history_independent (s1 s2 : BoxQP) (H : MatrixXd) (q lb ub xinit : VectorXd) :
  sized s1 -> sized s2 -> same_configuration s1 s2 ->
  (1 <= maxiter_ s1)%nat ->
  snd (solve s1 H q lb ub xinit) = snd (solve s2 H q lb ub xinit).
Proof.
  intros Hs1 Hs2 Hc Hm. unfold solve.
  assert (Hn : nx_ s2 = nx_ s1) by apply Hc.
  assert (Hmi : maxiter_ s2 = maxiter_ s1) by apply Hc.
  rewrite Hn, Hmi.
  destruct (check_dimensions (nx_ s1) H q lb ub xinit); [reflexivity|].
  apply for_k_independent.
  - exact Hc.
  - rewrite !warm_start_x by assumption. now rewrite Hn.
  - now apply warm_start_sized.
  - now apply warm_start_sized.
  - left. split; [reflexivity | exact Hm].
Qed.

Lemma solve_history_independent_witness :
  sized solver_single
  /\ sized (fst (solve solver_single H_single [-4] [0] [1] [0]))
  /\ same_configuration solver_single (fst (solve solver_single H_single [-4] [0] [1] [0]))
  /\ snd (solve solver_single H_single [-1] [0] [1] [1 # 2])
     = snd (solve (fst (solve solver_single H_single [-4] [0] [1] [0]))
                  H_single [-1] [0] [1] [1 # 2]).
Proof.
  assert (Hs1 : sized solver_single) by apply BoxQP_BoxQP_sized.
  assert (Hs2 : sized (fst (solve solver_single H_single [-4] [0] [1] [0])))
    by (apply solve_sized, Hs1).
  assert (Hc : same_configuration solver_single
                 (fst (solve solver_single H_single [-4] [0] [1] [0])))
    by (repeat split).
  split; [exact Hs1|]. split; [exact Hs2|]. split; [exact Hc|].
  apply (solve_history_independent solver_single _ H_single [-1] [0] [1] [1 # 2]
           Hs1 Hs2 Hc).
  simpl. lia.
Defined.

(** ** The point returned at the convergence test *)

Lemma std_max_ge (a b : Q) : a <= std_max a b /\ b <= std_max a b.
Proof.
  destruct (std_max_cases a b) as [(Hlt & ->) | (Hle & ->)]; split; lra.
Qed.

Lemma lpNorm_Infinity_bound (v : VectorXd) (t : Q) :
  lpNorm_Infinity v <= t -> forall j, Qabs (at_ v j) <= t.
Proof.
  unfold at_. induction v as [|a v IH]; intros Ht j; simpl in *.
  - destruct j; exact Ht.
  - destruct (std_max_ge (Qabs a) (lpNorm_Infinity v)) as (H1 & H2).
    destruct j as [|j]; [lra|]. apply IH. lra.
Qed.

Lemma reaches_configuration (H : MatrixXd) (q lb ub : VectorXd) (s0 : BoxQP)
      (k : nat) (s : BoxQP) :
  reaches H q lb ub s0 k s -> same_configuration s0 s.
Proof.
  induction 1 as [|k s s' Hr IH Hit].
  - repeat split.
  - pose proof (iteration_frame H q lb ub k s) as (Hc & _). rewrite Hit in Hc.
    exact (same_configuration_trans _ _ _ IH Hc).
Qed.

(** X7: when [solve] returns from the convergence test of a pass, the point
    it returns is the iterate at the head of that pass, and at that point
    every coordinate either has a gradient of absolute value at most
    [th_grad], or sits on its lower bound with a positive gradient, or on
    its upper bound with a negative gradient. *)
Theorem convergence_first_order (s : BoxQP) (H : MatrixXd) (q lb ub xinit : VectorXd)
        (k : nat) (sk s' : BoxQP) (sol : BoxQPSolution) :
  reaches H q lb ub (warm_start s lb ub xinit) k sk ->
  (k < maxiter_ s)%nat ->
  converged (classify H q lb ub sk) = true ->
  solve s H q lb ub xinit = (s', inr sol) ->
  x sol = x_ sk
  /\ forall j, (j < nx_ s)%nat ->
       Qabs (at_ (gradient H q (x sol)) j) <= th_grad_ s
       \/ clamp_condition (x sol) (gradient H q (x sol)) lb ub j.
Proof.
  intros Hr Hk Hconv Hsolve.
  pose proof (reaches_configuration H q lb ub _ k sk Hr) as (Hn & _ & _ & Htg & _).
  cbn [warm_start with_x nx_ th_grad_] in Hn, Htg.
  destruct (classify_fields H q lb ub sk)
    as (Cx & _ & _ & Cn & _ & _ & _ & Ctg & _ & _ & Cg & Ccl & Cfr).
  assert (Ex : x sol = x_ sk).
  { unfold solve in Hsolve.
    destruct (check_dimensions (nx_ s) H q lb ub xinit); [discriminate|].
    replace (maxiter_ s) with (k + S (maxiter_ s - S k))%nat in Hsolve by lia.
    rewrite (reaches_for_k H q lb ub _ k sk Hr) in Hsolve. cbn [for_k] in Hsolve.
    destruct (iteration_cases H q lb ub k sk)
      as [(_ & _ & _ & E) | [(_ & _ & E) | [(_ & _ & E) | [(F & _) | (F & _)]]]];
      try congruence; rewrite E in Hsolve; inversion Hsolve; subst; cbn; exact Cx. }
  split; [exact Ex|]. rewrite Ex. intros j Hj.
  unfold converged in Hconv. rewrite Cg, Ctg, Cfr in Hconv.
  apply orb_true_iff in Hconv. destruct Hconv as [Hnorm | Hempty].
  - left. rewrite <- Htg. apply lpNorm_Infinity_bound. now apply Qle_bool_iff.
  - right. apply Nat.eqb_eq, length_zero_iff_nil in Hempty.
    destruct (filter_partition (is_clamped (x_ sk) (gradient H q (x_ sk)) lb ub) (nx_ sk))
      as (_ & Hcov & _).
    rewrite Hempty in Hcov. cbn [app] in Hcov.
    assert (Hin : In j (filter (is_clamped (x_ sk) (gradient H q (x_ sk)) lb ub)
                               (seq 0 (nx_ sk)))) by (apply Hcov; lia).
    apply filter_In in Hin. now apply is_clamped_iff.
Qed.

Lemma convergence_first_order_witness :
  reaches H_single [-4] [0] [1] single_start 1
          (flow_state (iteration H_single [-4] [0] [1] 0 single_start))
  /\ converged (classify H_single [-4] [0] [1]
                  (flow_state (iteration H_single [-4] [0] [1] 0 single_start))) = true
  /\ clamp_condition [1] (gradient H_single [-4] [1]) [0] [1] 0.
Proof.
  assert (Hr : reaches H_single [-4] [0] [1] single_start 1
                 (flow_state (iteration H_single [-4] [0] [1] 0 single_start))).
  { apply (reaches_next _ _ _ _ _ 0%nat single_start); [apply reaches_first|].
    vm_compute. reflexivity. }
  assert (Hc : converged (classify H_single [-4] [0] [1]
                 (flow_state (iteration H_single [-4] [0] [1] 0 single_start))) = true)
    by (vm_compute; reflexivity).
  assert (E : solve solver_single H_single [-4] [0] [1] [0]
              = (fst (solve solver_single H_single [-4] [0] [1] [0]),
                 inr (mkBoxQPSolution (mkMatrixXd 1 1 [[1 # 2]]) [1] [] [0%nat])))
    by (vm_compute; reflexivity).
  assert (Hk : (1 < maxiter_ solver_single)%nat) by (simpl; lia).
  split; [exact Hr|]. split; [exact Hc|].
  destruct (proj2 (convergence_first_order solver_single H_single [-4] [0] [1] [0]
                     1 _ _ _ Hr Hk Hc E) 0%nat) as [Habs | Hcl].
  - simpl. lia.
  - exfalso. revert Habs. vm_compute. intros Hle. apply Hle. reflexivity.
  - exact Hcl.
Defined.

(** ** Which coordinates a pass moves *)

(** A value inside the bounds is not changed by the projection. *)
Lemma clip_inside (lb ub : VectorXd) (j : nat) (v : Q) :
  at_ lb j <= v -> v <= at_ ub j -> clip lb ub j v = v.
Proof.
  intros Hl Hu. unfold clip, std_min, std_max.
  rewrite (proj2 (Qltb_false (at_ ub j) v) Hu).
  now rewrite (proj2 (Qltb_false v (at_ lb j)) Hl).
Qed.

(** X8: a pass that goes through the line search changes the iterate, when
    it is in the box, on free coordinates only: every coordinate that the
    pass classified as clamped keeps its value. *)
Theorem pass_moves_free_only (s : BoxQP) (H : MatrixXd) (q lb ub : VectorXd)
        (k : nat) (s' : BoxQP) :
  sized s -> in_box (nx_ s) lb ub (x_ s) ->
  iteration H q lb ub k s = Continue s' ->
  forall j, (j < nx_ s)%nat -> ~ In j (free_idx_ s') ->
            In j (clamped_idx_ s') /\ at_ (x_ s') j == at_ (x_ s) j.
Proof.
  intros Hs Hbox Hit j Hj Hfree.
  destruct (iteration_keeps_partition H q lb ub k s) as (_ & Kfr & Kcl & _).
  rewrite Hit in Kfr, Kcl. cbn [flow_state] in Kfr, Kcl.
  pose proof (classify_consistent H q lb ub s) as (_ & Hcov & _). cbv zeta in Hcov.
  rewrite <- Kfr, <- Kcl in Hcov.
  split.
  { destruct (in_app_or _ _ _ (proj2 (Hcov j) Hj)); [contradiction | assumption]. }
  destruct (before_line_search_fields H q lb ub s)
    as (Bx & Bxn & Bnx & _ & _ & _ & _ & Bfr & _ & Bdx).
  pose proof (before_line_search_dx H q lb ub s) as Bd. cbv zeta in Bd.
  assert (Hs2 : sized (before_line_search H q lb ub s)).
  { destruct Hs as (H1 & H2 & H3). unfold sized. rewrite Bx, Bxn, Bnx, Bdx. auto. }
  destruct (iteration_cases H q lb ub k s)
    as [(_ & _ & _ & E) | [(_ & _ & E) | [(_ & _ & E) | [(_ & _ & _ & E)
       | (_ & _ & _ & E)]]]]; rewrite E in Hit; try discriminate.
  assert (Es : s' = line_search H q lb ub
                      (objective H q (x_ (before_line_search H q lb ub s)))
                      (alphas_ (before_line_search H q lb ub s))
                      (before_line_search H q lb ub s)) by congruence.
  destruct (line_search_result H q lb ub
              (objective H q (x_ (before_line_search H q lb ub s)))
              (alphas_ (before_line_search H q lb ub s))
              (before_line_search H q lb ub s) Hs2)
    as (_ & _ & Hxs).
  rewrite <- Es in Hxs. rewrite Hxs, Bx, Bnx, Bd. clear Hxs.
  match goal with |- context [find ?f ?l] => destruct (find f l) as [a|] end;
    [|reflexivity].
  unfold projected_step. rewrite at_map_seq by assumption.
  rewrite scatter_outside by (rewrite <- Kfr; exact Hfree).
  destruct (Hbox j Hj) as (Hl & Hu).
  rewrite clip_inside by (ring_simplify (at_ (x_ s) j + a * 0); assumption).
  ring.
Qed.

Lemma pass_moves_free_only_witness :
  sized (warm_start solver_pair [0; -16] [1; 16] [1; 0])
  /\ in_box 2 [0; -16] [1; 16] [1; 0]
  /\ at_ (x_ (flow_state (iteration H_pair [-8; 2] [0; -16] [1; 16] 0
                            (warm_start solver_pair [0; -16] [1; 16] [1; 0])))) 0
     == 1.
Proof.
  assert (Hs : sized (warm_start solver_pair [0; -16] [1; 16] [1; 0]))
    by (apply warm_start_sized, BoxQP_BoxQP_sized).
  assert (Hb : in_box 2 [0; -16] [1; 16] [1; 0]).
  { intros [|[|j]] Hj; try lia; split; vm_compute; discriminate. }
  assert (Hit : iteration H_pair [-8; 2] [0; -16] [1; 16] 0
                  (warm_start solver_pair [0; -16] [1; 16] [1; 0])
                = Continue (flow_state (iteration H_pair [-8; 2] [0; -16] [1; 16] 0
                              (warm_start solver_pair [0; -16] [1; 16] [1; 0]))))
    by (vm_compute; reflexivity).
  split; [exact Hs|]. split; [exact Hb|].
  refine (proj2 (pass_moves_free_only _ H_pair [-8; 2] [0; -16] [1; 16] 0 _
                   Hs Hb Hit 0%nat _ _)).
  - simpl. lia.
  - vm_compute. intros [E | []]. discriminate.
Defined.

(** ** When the factorization succeeds *)

Lemma dot_zeros_r (a : VectorXd) (n : nat) : dot a (repeat 0 n) == 0.
Proof.
  revert n; induction a as [|x a IH]; intros [|n]; simpl; try reflexivity.
  rewrite IH. ring.
Qed.

Lemma dot_vsub_r (c a b : VectorXd) :
  length a = length b -> dot c (vsub a b) == dot c a - dot c b.
Proof.
  intros Hl. rewrite (dot_comm c (vsub a b)), (dot_vsub_l a b c Hl).
  rewrite (dot_comm a c), (dot_comm b c). reflexivity.
Qed.

Lemma dot_vscale_r (k : Q) (c a : VectorXd) : dot c (vscale k a) == k * dot c a.
Proof.
  rewrite (dot_comm c (vscale k a)), dot_vscale_l, (dot_comm a c). reflexivity.
Qed.

(** The product with the block left by a step of the elimination. *)
Lemma mat_vec_schur (n : nat) (a : Q) (b : VectorXd) (C : list (list Q)) (w : VectorXd) :
  square_symmetric n C -> length b = n ->
  veq (mat_vec (schur a b C) w) (vsub (mat_vec C w) (vscale (dot b w / a) b)).
Proof.
  intros (HCl & HCrows & _) Hb.
  assert (HCrow : forall i, (i < n)%nat -> length (nth i C []) = n).
  { intros i Hi. rewrite Forall_forall in HCrows. apply HCrows, nth_In. lia. }
  assert (Hsc : length (vscale (dot b w / a) b) = n)
    by (unfold vscale; now rewrite length_map).
  apply veq_nth.
  - rewrite vsub_length; rewrite !mat_vec_length, ?schur_length; congruence.
  - intros i Hi. rewrite mat_vec_length, schur_length in Hi by congruence.
    rewrite at_vsub by (rewrite mat_vec_length; congruence).
    rewrite at_vscale, !at_mat_vec, nth_schur, dot_schur_row by (rewrite ?HCrow; lia).
    unfold Qdiv. ring.
Qed.

(** The quadratic form of a symmetric matrix, split along its first row
    and column. *)
Lemma quadratic_form_cons (n : nat) (a : Q) (r : VectorXd) (rest : list (list Q))
      (v0 : Q) (v1 : VectorXd) :
  square_symmetric (S n) ((a :: r) :: rest) -> ~ a == 0 -> length v1 = n ->
  let b := map (hd 0) rest in
  let C := map (@tl Q) rest in
  dot (v0 :: v1) (mat_vec ((a :: r) :: rest) (v0 :: v1))
  == a * ((v0 + dot b v1 / a) * (v0 + dot b v1 / a))
     + dot v1 (mat_vec (schur a b C) v1).
Proof.
  intros HA Ha Hv b C.
  destruct (square_symmetric_cons n _ HA)
    as (a' & r' & rest' & E & Hr & Hre & Hrb & Hsub).
  injection E as <- <- <-. fold b in Hrb. fold C in Hsub.
  assert (Hb : length b = n) by (unfold b; now rewrite length_map).
  change (mat_vec ((a :: r) :: rest) (v0 :: v1))
    with ((a * v0 + dot r v1) :: mat_vec rest (v0 :: v1)).
  cbn [dot]. rewrite dot_mat_vec_cons. fold b C.
  rewrite (dot_veq_r v1 _ _ (mat_vec_schur n a b C v1 Hsub Hb)).
  rewrite dot_vsub_r
    by (unfold vscale; rewrite length_map, mat_vec_length; destruct Hsub; congruence).
  rewrite dot_vscale_r, (dot_veq_l r b v1 Hrb), (dot_comm v1 b).
  field. exact Ha.
Qed.

Lemma Qsquare_nonneg (t : Q) : 0 <= t * t.
Proof.
  destruct (Qlt_le_dec t 0).
  - setoid_replace (t * t) with ((- t) * (- t)) by ring.
    apply Qmult_le_0_compat; lra.
  - apply Qmult_le_0_compat; lra.
Qed.

Lemma Qsquare_zero (t : Q) : t * t == 0 -> t == 0.
Proof.
  intros Ht. destruct (Qmult_integral _ _ Ht); assumption.
Qed.

(** A symmetric matrix that the factorization accepts is positive
    definite. *)
Lemma factorize_positive_definite (n : nat) :
  forall (A : list (list Q)) (F : factor),
    square_symmetric n A -> factorize n A = Some F -> positive_definite n A.
Proof.
  induction n as [|n IH]; intros A F HA HF v Hv.
  - destruct v; [|discriminate]. simpl. split; [apply Qle_refl | constructor].
  - destruct (square_symmetric_cons n A HA)
      as (a & r & rest & -> & Hr & Hre & Hrb & Hsub).
    destruct v as [|v0 v1]; [discriminate|]. simpl in Hv. apply Nat.succ_inj in Hv.
    simpl in HF. unfold at_ in HF. simpl in HF.
    destruct (Qle_bool a 0) eqn:Hpiv; [discriminate|].
    assert (Ha : 0 < a).
    { apply Qnot_le_lt. rewrite <- Qle_bool_iff. congruence. }
    set (b := map (hd 0) rest) in *. set (C := map (@tl Q) rest) in *.
    destruct (factorize n (schur a b C)) as [F'|] eqn:HF'; [|discriminate].
    assert (Hb : length b = n) by (unfold b; now rewrite length_map).
    assert (HS : square_symmetric n (schur a b C)) by now apply schur_symmetric.
    destruct (IH (schur a b C) F' HS HF' v1 Hv) as (Hge & Hzero).
    assert (Hq := quadratic_form_cons n a r rest v0 v1 HA
                    (fun E => Qlt_not_eq _ _ Ha (Qeq_sym _ _ E)) Hv).
    cbv zeta in Hq. fold b C in Hq. rewrite Hq.
    set (t := v0 + dot b v1 / a) in *.
    pose proof (Qsquare_nonneg t) as Ht.
    assert (Hat : 0 <= a * (t * t)) by (apply Qmult_le_0_compat; lra).
    split; [lra|]. intros Hsum.
    assert (Hs0 : dot v1 (mat_vec (schur a b C) v1) == 0) by lra.
    assert (Hat0 : a * (t * t) == 0) by lra.
    pose proof (Hzero Hs0) as Hv1.
    assert (Ht0 : t == 0).
    { apply Qsquare_zero. destruct (Qmult_integral _ _ Hat0) as [E | E]; [lra | exact E]. }
    assert (Hbv : dot b v1 == 0)
      by (rewrite (dot_veq_r b _ _ Hv1); apply dot_zeros_r).
    constructor; [|exact Hv1].
    unfold t in Ht0. rewrite Hbv in Ht0. unfold Qdiv in Ht0.
    rewrite Qmult_0_l, Qplus_0_r in Ht0. exact Ht0.
Qed.

(** The factorization accepts every symmetric positive definite matrix. *)
Lemma positive_definite_factorize (n : nat) :
  forall (A : list (list Q)),
    square_symmetric n A -> positive_definite n A -> exists F, factorize n A = Some F.
Proof.
  induction n as [|n IH]; intros A HA Hpd.
  - exists FNil. reflexivity.
  - destruct (square_symmetric_cons n A HA)
      as (a & r & rest & -> & Hr & Hre & Hrb & Hsub).
    set (b := map (hd 0) rest) in *. set (C := map (@tl Q) rest) in *.
    assert (Hb : length b = n) by (unfold b; now rewrite length_map).
    assert (Ha : 0 < a).
    { destruct (Hpd (1 :: repeat 0 n)) as (Hge & Hzero);
        [simpl; now rewrite repeat_length|].
      assert (E : dot (1 :: repeat 0 n) (mat_vec ((a :: r) :: rest) (1 :: repeat 0 n))
                  == a).
      { change (mat_vec ((a :: r) :: rest) (1 :: repeat 0 n))
          with ((a * 1 + dot r (repeat 0 n)) :: mat_vec rest (1 :: repeat 0 n)).
        cbn [dot]. rewrite dot_zeros_r, (dot_comm (repeat 0 n)), dot_zeros_r. ring. }
      rewrite E in Hge, Hzero.
      destruct (Qlt_le_dec 0 a) as [Hlt | Hle]; [exact Hlt|].
      assert (Ha0 : a == 0) by lra.
      specialize (Hzero Ha0). inversion Hzero as [|? ? ? ? H10 _]; subst.
      discriminate H10. }
    assert (Hane : ~ a == 0) by (intros E; rewrite E in Ha; discriminate Ha).
    assert (HS : square_symmetric n (schur a b C)) by now apply schur_symmetric.
    assert (HSpd : positive_definite n (schur a b C)).
    { intros v1 Hv1.
      destruct (Hpd ((- (dot b v1 / a)) :: v1)) as (Hge & Hzero);
        [simpl; now rewrite Hv1|].
      pose proof (quadratic_form_cons n a r rest (- (dot b v1 / a)) v1 HA Hane Hv1)
        as Hq. cbv zeta in Hq. fold b C in Hq.
      assert (Hq' : dot ((- (dot b v1 / a)) :: v1)
                        (mat_vec ((a :: r) :: rest) ((- (dot b v1 / a)) :: v1))
                    == dot v1 (mat_vec (schur a b C) v1))
        by (rewrite Hq; ring).
      rewrite Hq' in Hge, Hzero. split; [exact Hge|].
      intros E. specialize (Hzero E). now inversion Hzero. }
    destruct (IH (schur a b C) HS HSpd) as (F' & HF').
    exists (FCons a b F').
    assert (Hpiv : Qle_bool a 0 = false).
    { destruct (Qle_bool a 0) eqn:Hpiv; [|reflexivity].
      apply Qle_bool_iff in Hpiv. lra. }
    change (factorize (S n) ((a :: r) :: rest))
      with (if Qle_bool a 0 then None
            else match factorize n (schur a b C) with
                 | Some F => Some (FCons a b F)
                 | None => None
                 end).
    rewrite Hpiv, HF'. reflexivity.
Qed.

(** X9: for a symmetric [H], a pass that factorizes (its first pass, or any
    pass the convergence test lets through) throws [backward_error] exactly
    when the free-free block of [H] with [reg_] on its diagonal is not
    positive definite. *)
Theorem backward_error_iff_not_positive_definite (s : BoxQP) (H : MatrixXd)
        (q lb ub : VectorXd) (k : nat) :
  rows H = nx_ s -> symmetric H ->
  converged (classify H q lb ub s) = false \/ k = 0%nat ->
  let fr := free_idx_ (classify H q lb ub s) in
  iteration H q lb ub k s
  = Throw (classify H q lb ub s) (throw_pretty "backward_error")
  <-> ~ positive_definite (length fr) (coeffs (Hff_reg (reg_ s) H fr)).
Proof.
  intros Hr Hsym Hatt fr.
  assert (HA : square_symmetric (length fr) (coeffs (Hff_reg (reg_ s) H fr))).
  { apply Hff_reg_symmetric; [exact Hsym|]. intros i Hi.
    pose proof (classify_consistent H q lb ub s) as (_ & Hcov & _). cbv zeta in Hcov.
    rewrite Hr. apply Hcov, in_or_app. now left. }
  destruct (Hff_reg_shape (reg_ s) H fr) as (Hrows & _).
  pose proof (classify_parameters H q lb ub s) as Hreg.
  assert (Hinfo : info (compute (Hff_reg (reg_ s) H fr)) = Success
                  <-> positive_definite (length fr) (coeffs (Hff_reg (reg_ s) H fr))).
  { split.
    - intros Hi. pose proof (compute_success _ Hi) as HF. rewrite Hrows in HF.
      exact (factorize_positive_definite _ _ _ HA HF).
    - intros Hpd. destruct (positive_definite_factorize _ _ HA Hpd) as (F & HF).
      unfold compute. rewrite Hrows, HF. reflexivity. }
  destruct (iteration_cases H q lb ub k s)
    as [(Hc & Hk & Hi & E) | [(Hc & Hk & E) | [(_ & Hi & E) | [(Hc & Hi & _ & E)
       | (Hc & Hi & _ & E)]]]]; try (rewrite Hreg in Hi; fold fr in Hi).
  - split; [rewrite E; discriminate | intros Hn; exfalso; apply Hn, Hinfo, Hi].
  - destruct Hatt; congruence.
  - split; [|intros _; exact E].
    intros _ Hpd. apply Hinfo in Hpd. congruence.
  - split; [rewrite E; discriminate | intros Hn; exfalso; apply Hn, Hinfo, Hi].
  - split; [rewrite E; discriminate | intros Hn; exfalso; apply Hn, Hinfo, Hi].
Qed.

Lemma H_indefinite_symmetric : symmetric H_indefinite.
Proof.
  intros [|i] [|j] Hi Hj; simpl in Hi, Hj; try lia. reflexivity.
Qed.

Lemma backward_error_iff_not_positive_definite_witness :
  rows H_indefinite = 1%nat /\ symmetric H_indefinite
  /\ ~ positive_definite 1 [[-1]].
Proof.
  split; [reflexivity|]. split; [exact H_indefinite_symmetric|].
  refine (proj1 (backward_error_iff_not_positive_definite
                   (warm_start solver_indefinite [1 # 2] [10] [2])
                   H_indefinite [1] [1 # 2] [10] 0 eq_refl H_indefinite_symmetric
                   (or_intror eq_refl)) _).
  vm_compute. reflexivity.
Defined.

(** ** Calling [solve] again from the point it returned *)

Lemma map_at_seq (v : VectorXd) : map (at_ v) (seq 0 (length v)) = v.
Proof.
  unfold at_. induction v as [|a v IH]; [reflexivity|].
  cbn [length seq map nth]. f_equal.
  rewrite <- seq_shift, map_map. exact IH.
Qed.

(** Moving into the box a point that is in the box gives the point. *)
Lemma warm_start_feasible (s : BoxQP) (lb ub xinit : VectorXd) :
  sized s -> length xinit = nx_ s -> in_box (nx_ s) lb ub xinit ->
  x_ (warm_start s lb ub xinit) = xinit.
Proof.
  intros Hs Hl Hbox. rewrite warm_start_x by assumption.
  transitivity (map (at_ xinit) (seq 0 (length xinit))); [|apply map_at_seq].
  rewrite Hl. apply map_ext_in. intros j Hj. apply in_seq in Hj.
  destruct (Hbox j) as (H1 & H2); [lia|]. now apply clip_inside.
Qed.

(** What [solve] returns when it stops at the convergence test of pass
    [k]: the iterate and the lists of that pass. *)
Lemma convergence_return (s : BoxQP) (H : MatrixXd) (q lb ub xinit : VectorXd)
      (k : nat) (sk s' : BoxQP) (sol : BoxQPSolution) :
  reaches H q lb ub (warm_start s lb ub xinit) k sk ->
  (k < maxiter_ s)%nat ->
  converged (classify H q lb ub sk) = true ->
  solve s H q lb ub xinit = (s', inr sol) ->
  well_sized (nx_ s) H q lb ub xinit
  /\ x sol = x_ sk /\ free_idx sol = free_idx_ (classify H q lb ub sk)
  /\ clamped_idx sol = clamped_idx_ (classify H q lb ub sk).
Proof.
  intros Hr Hk Hconv Hsolve.
  destruct (classify_fields H q lb ub sk) as (Cx & _).
  unfold solve in Hsolve.
  destruct (check_dimensions (nx_ s) H q lb ub xinit) eqn:Hd; [discriminate|].
  split; [now apply check_dimensions_none|].
  replace (maxiter_ s) with (k + S (maxiter_ s - S k))%nat in Hsolve by lia.
  rewrite (reaches_for_k H q lb ub _ k sk Hr) in Hsolve. cbn [for_k] in Hsolve.
  destruct (iteration_cases H q lb ub k sk)
    as [(_ & _ & _ & E) | [(_ & _ & E) | [(_ & _ & E) | [(F & _) | (F & _)]]]];
    try congruence; rewrite E in Hsolve; inversion Hsolve; subst; cbn;
    repeat split; exact Cx.
Qed.

Lemma same_configuration_sym (s1 s2 : BoxQP) :
  same_configuration s1 s2 -> same_configuration s2 s1.
Proof.
  unfold same_configuration. intros (A1 & A2 & A3 & A4 & A5 & A6).
  repeat split; congruence.
Qed.

Lemma solve_frame (s : BoxQP) (H : MatrixXd) (q lb ub xinit : VectorXd) :
  same_configuration s (fst (solve s H q lb ub xinit)).
Proof.
  unfold solve.
  destruct (check_dimensions (nx_ s) H q lb ub xinit); [repeat split|].
  destruct (for_k_frame H q lb ub (maxiter_ s) 0 (warm_start s lb ub xinit)) as (Hc & _).
  exact (same_configuration_trans _ _ _
           (proj1 (warm_start_configuration s lb ub xinit)) Hc).
Qed.

(** X11: when [solve] has returned from the convergence test, calling it
    again on the same problem from the returned point (with elementwise
    [lb <= ub]) stops in its first pass and returns the same point and the
    same two lists, now with the inverse for that free list, provided the
    factorization for that free list succeeds. *)
Theorem solve_restart (s : BoxQP) (H : MatrixXd) (q lb ub xinit : VectorXd)
        (k : nat) (sk s' : BoxQP) (sol : BoxQPSolution) :
  sized s -> ordered_bounds (nx_ s) lb ub ->
  reaches H q lb ub (warm_start s lb ub xinit) k sk ->
  (k < maxiter_ s)%nat ->
  converged (classify H q lb ub sk) = true ->
  solve s H q lb ub xinit = (s', inr sol) ->
  info (compute (Hff_reg (reg_ s) H (free_idx sol))) = Success ->
  snd (solve s' H q lb ub (x sol))
  = inr (mkBoxQPSolution
           (inverse_of (compute (Hff_reg (reg_ s) H (free_idx sol)))
                       (length (free_idx sol)))
           (x sol) (free_idx sol) (clamped_idx sol)).
Proof.
  intros Hs Hb Hr Hk Hconv Hsolve Hinfo.
  destruct (convergence_return s H q lb ub xinit k sk s' sol Hr Hk Hconv Hsolve)
    as (Hw & Ex & Efr & Ecl).
  assert (Es' : s' = fst (solve s H q lb ub xinit)) by now rewrite Hsolve.
  assert (Hs' : sized s') by (rewrite Es'; now apply solve_sized).
  assert (Hc' : same_configuration s s') by (rewrite Es'; apply solve_frame).
  destruct (reaches_in_box H q lb ub _ k sk (warm_start_sized s lb ub xinit Hs) Hb
              (warm_start_in_box s lb ub xinit Hs Hb) Hr) as (Hsk & Hnk & Hbox).
  cbn [warm_start with_x nx_] in Hnk, Hbox.
  pose proof (reaches_configuration H q lb ub _ k sk Hr) as Hck.
  assert (Hcs : same_configuration s sk)
    by exact (same_configuration_trans _ _ _
                (proj1 (warm_start_configuration s lb ub xinit)) Hck).
  assert (Hn' : nx_ s' = nx_ s) by apply Hc'.
  assert (Hm' : maxiter_ s' = maxiter_ s) by apply Hc'.
  assert (Hlen : length (x sol) = nx_ s) by (rewrite Ex, <- Hnk; apply Hsk).
  set (ws := warm_start s' lb ub (x sol)).
  assert (Hwsx : x_ ws = x_ sk).
  { unfold ws. rewrite warm_start_feasible; try assumption; rewrite ?Hn'; try assumption.
    rewrite Ex. exact Hbox. }
  assert (Hwss : sized ws) by (apply warm_start_sized, Hs').
  assert (Hcw : same_configuration sk ws).
  { apply (same_configuration_trans _ s); [now apply same_configuration_sym|].
    apply (same_configuration_trans _ s'); [exact Hc'|].
    apply warm_start_configuration. }
  destruct (pass_data_independent H q lb ub sk ws Hcw (eq_sym Hwsx) Hsk Hwss)
    as ((Cg & Cfr & Ccl & Ctg & Creg & Cx) & _).
  assert (Econv : converged (classify H q lb ub ws) = true)
    by (unfold converged in *; rewrite <- Cg, <- Cfr, <- Ctg; exact Hconv).
  assert (Hregk : reg_ (classify H q lb ub sk) = reg_ s).
  { rewrite classify_parameters. apply Hcs. }
  destruct (classify_fields H q lb ub sk) as (Kx & _).
  unfold solve. rewrite Hn', Hm'.
  assert (Hw2 : well_sized (nx_ s) H q lb ub (x sol)).
  { destruct Hw as (W1 & W2 & W3 & W4 & W5 & _). repeat split; assumption. }
  rewrite (proj2 (check_dimensions_none _ _ _ _ _ _) Hw2).
  destruct (maxiter_ s) as [|m]; [lia|]. cbn [for_k]. fold ws.
  destruct (iteration_cases H q lb ub 0 ws)
    as [(_ & _ & Hi & E) | [(_ & Hk0 & _) | [(_ & Hi & _) | [(F & _) | (F & _)]]]];
    try congruence.
  - rewrite E. cbn [snd store_solution with_solution with_Hff_inv solution_ Hff_inv_
                    x_ free_idx_ clamped_idx_].
    rewrite <- Creg, <- Cfr, <- Ccl, <- Cx, Hregk, Kx, <- Efr, <- Ecl, <- Ex.
    reflexivity.
Qed.

Lemma solve_restart_witness :
  sized solver_single /\ ordered_bounds 1 [0] [1]
  /\ snd (solve (fst (solve solver_single H_single [-4] [0] [1] [0]))
                H_single [-4] [0] [1] [1])
     = inr (mkBoxQPSolution empty_matrix [1] [] [0%nat]).
Proof.
  assert (Hs : sized solver_single) by apply BoxQP_BoxQP_sized.
  assert (Hb : ordered_bounds (nx_ solver_single) [0] [1]).
  { intros [|j] Hj; [vm_compute; discriminate | simpl in Hj; lia]. }
  assert (Hr : reaches H_single [-4] [0] [1] (warm_start solver_single [0] [1] [0]) 1
                 (flow_state (iteration H_single [-4] [0] [1] 0 single_start))).
  { apply (reaches_next _ _ _ _ _ 0%nat single_start); [apply reaches_first|].
    vm_compute. reflexivity. }
  assert (Hc : converged (classify H_single [-4] [0] [1]
                 (flow_state (iteration H_single [-4] [0] [1] 0 single_start))) = true)
    by (vm_compute; reflexivity).
  assert (E : solve solver_single H_single [-4] [0] [1] [0]
              = (fst (solve solver_single H_single [-4] [0] [1] [0]),
                 inr (mkBoxQPSolution (mkMatrixXd 1 1 [[1 # 2]]) [1] [] [0%nat])))
    by (vm_compute; reflexivity).
  assert (Hk : (1 < maxiter_ solver_single)%nat) by (simpl; lia).
  split; [exact Hs|]. split; [exact Hb|].
  exact (solve_restart solver_single H_single [-4] [0] [1] [0] 1 _ _ _
           Hs Hb Hr Hk Hc E eq_refl).
Defined.

(** ** The point of the full Newton step *)

Lemma sum_over_ext (l : list nat) (F G : nat -> Q) :
  (forall j, In j l -> F j == G j) -> sum_over l F == sum_over l G.
Proof.
  induction l as [|j l IH]; intros HFG; simpl; [reflexivity|].
  rewrite (HFG j) by (now left). rewrite IH by (intros; apply HFG; now right).
  reflexivity.
Qed.

Lemma sum_over_map (g : nat -> nat) (l : list nat) (F : nat -> Q) :
  sum_over (map g l) F = sum_over l (fun j => F (g j)).
Proof.
  induction l as [|j l IH]; simpl; [reflexivity | now rewrite IH].
Qed.

Lemma sum_over_filter (p : nat -> bool) (l : list nat) (F : nat -> Q) :
  sum_over l F
  == sum_over (filter p l) F + sum_over (filter (fun j => negb (p j)) l) F.
Proof.
  induction l as [|j l IH]; simpl; [ring|].
  destruct (p j); simpl; rewrite IH; ring.
Qed.

Lemma dot_map_map (f g : nat -> Q) (l : list nat) :
  dot (map f l) (map g l) = sum_over l (fun j => f j * g j).
Proof.
  induction l as [|j l IH]; simpl; [reflexivity | now rewrite IH].
Qed.

Lemma dot_sum_over (row v : VectorXd) :
  length row = length v ->
  dot row v = sum_over (seq 0 (length row)) (fun j => at_ row j * at_ v j).
Proof.
  revert v; induction row as [|r0 row IH]; intros [|v0 v] Hl; try discriminate;
    [reflexivity|].
  cbn [length seq dot sum_over fold_right]. f_equal.
  rewrite <- seq_shift. fold (sum_over (map S (seq 0 (length row)))
                                       (fun j => at_ (r0 :: row) j * at_ (v0 :: v) j)).
  rewrite sum_over_map. apply IH. simpl in Hl. lia.
Qed.

Lemma dot_set_at_add (r y : VectorXd) (i : nat) (c : Q) :
  (i < length r)%nat -> length r = length y ->
  dot (set_at r i (at_ r i + c)) y == dot r y + c * at_ y i.
Proof.
  unfold at_. revert y i; induction r as [|r0 r IH]; intros [|y0 y] [|i] Hi Hl;
    simpl in *; try lia; try ring.
  rewrite IH by lia. ring.
Qed.

(** A row of the regularized block against a vector: the row of the block
    of [H], plus [reg] times the coefficient on the diagonal. *)
Lemma Hff_reg_row_dot (reg : Q) (H : MatrixXd) (fr : list nat) (y : VectorXd) (i : nat) :
  (i < length fr)%nat -> length y = length fr ->
  dot (nth i (coeffs (Hff_reg reg H fr)) []) y
  == dot (map (fun j => coeff H (nth i fr 0%nat) j) fr) y + reg * at_ y i.
Proof.
  intros Hi Hy. unfold Hff_reg.
  destruct (Qeq_bool reg 0) eqn:Ereg; cbn [negb].
  - rewrite nth_block_row by assumption. apply Qeq_bool_iff in Ereg.
    rewrite Ereg. ring.
  - cbn [add_diagonal coeffs].
    rewrite nth_add_diagonal_from by (simpl; now rewrite length_map).
    cbn [Nat.add].
    change (map (fun i0 => map (fun j => coeff H i0 j) fr) fr)
      with (coeffs (block H fr fr)).
    rewrite nth_block_row by assumption.
    apply dot_set_at_add; rewrite length_map; congruence.
Qed.

Lemma at_map_nth (f : nat -> Q) (l : list nat) (i : nat) :
  (i < length l)%nat -> at_ (map f l) i = f (nth i l 0%nat).
Proof.
  intros Hi. unfold at_.
  rewrite (nth_indep _ 0 (f 0%nat)) by (now rewrite length_map).
  exact (map_nth f l 0%nat i).
Qed.

Lemma at_vopp (v : VectorXd) (i : nat) : at_ (vopp v) i == - at_ v i.
Proof.
  unfold at_, vopp. revert i; induction v as [|a v IH]; intros [|i]; simpl;
    try ring. apply IH.
Qed.

(** The facts about the direction of a pass that goes on to the Newton
    step: it is 0 on the clamped indices, [dxf_] on the free ones, and the
    point of the full step satisfies the regularized first-order condition
    on the free coordinates. *)
Lemma newton_point_facts (s : BoxQP) (H : MatrixXd) (q lb ub : VectorXd) (k : nat) :
  sized s -> well_formed H -> rows H = nx_ s -> cols H = nx_ s -> length q = nx_ s ->
  symmetric H ->
  converged (classify H q lb ub s) = false ->
  info (compute (Hff_reg (reg_ s) H (free_idx_ (classify H q lb ub s)))) = Success ->
  let fr := free_idx_ (classify H q lb ub s) in
  let cl := clamped_idx_ (classify H q lb ub s) in
  let dx := dx_ (flow_state (iteration H q lb ub k s)) in
  let z := vadd (x_ s) dx in
  (forall f, In f fr -> at_ (gradient H q z) f + reg_ s * at_ z f == 0)
  /\ (forall j, In j cl -> at_ dx j = 0)
  /\ length dx = nx_ s
  /\ (exists F, factorize (length fr) (coeffs (Hff_reg (reg_ s) H fr)) = Some F)
  /\ (exists dxf, length dxf = length fr /\ veq dxf (map (at_ dx) fr)).
Proof.
  intros Hs (Hwl & Hwr) Hr Hc Hq Hsym Hconv Hinfo fr cl dx z.
  set (Hreg := Hff_reg (reg_ s) H fr) in *.
  set (llt := compute Hreg) in *.
  set (rhs0 := reduced_rhs H q (x_ s) cl fr).
  set (y := solveInPlace llt rhs0).
  destruct (classify_fields H q lb ub s)
    as (_ & _ & _ & _ & _ & _ & _ & _ & _ & _ & _ & Ccl & Cfr).
  fold cl in Ccl. fold fr in Cfr.
  pose proof (classify_consistent H q lb ub s) as (Hnd & Hcov & _ & _).
  fold fr cl in Hnd, Hcov.
  assert (Hfr_lt : forall j, In j fr -> (j < nx_ s)%nat)
    by (intros j Hj; apply Hcov, in_or_app; now left).
  assert (Hfr_nd : NoDup fr) by (eapply NoDup_app_remove_r, Hnd).
  assert (HA : square_symmetric (length fr) (coeffs Hreg)).
  { apply Hff_reg_symmetric; [exact Hsym|]. intros i Hi. rewrite Hr. now apply Hfr_lt. }
  destruct (Hff_reg_shape (reg_ s) H fr) as (Hrows & _). fold Hreg in Hrows.
  pose proof (compute_success Hreg Hinfo) as HF. rewrite Hrows in HF. fold llt in HF.
  assert (Hlen0 : length rhs0 = length fr) by apply reduced_rhs_length.
  assert (Hy : veq (mat_vec (coeffs Hreg) y)
                   (vsub (vopp (map (at_ q) fr))
                         (mat_vec (coeffs (block H fr cl)) (map (at_ (x_ s)) cl)))).
  { eapply veq_trans; [|apply reduced_rhs_veq].
    apply (solve_factor_correct (length fr)); assumption. }
  assert (Hylen : length y = length fr) by (apply (solve_factor_length _ _ _ rhs0 HF)).
  destruct (iteration_direction H q lb ub k s Hconv Hinfo) as (Hdx & _).
  fold dx in Hdx.
  pose proof (before_line_search_dx H q lb ub s) as Bd. cbv zeta in Bd.
  rewrite (classify_parameters H q lb ub s) in Bd.
  fold fr cl Hreg llt in Bd. rewrite Bd in Hdx. clear Bd.
  assert (Hdxlen : length dx = nx_ s).
  { rewrite Hdx, scatter_length. apply Hs. }
  assert (Hxlen : length (x_ s) = nx_ s) by apply Hs.
  assert (Hz : forall j, at_ z j == at_ (x_ s) j + at_ dx j)
    by (intros j; apply at_vadd; congruence).
  assert (Hzlen : length z = nx_ s) by (unfold z; rewrite vadd_length; congruence).
  assert (Hzcl : forall j, In j cl -> at_ z j == at_ (x_ s) j).
  { intros j Hj. rewrite Hz, Hdx, scatter_outside
      by (now apply (NoDup_app_disjoint fr cl)). ring. }
  assert (Hyz : veq y (map (at_ z) fr)).
  { apply veq_nth; [now rewrite length_map|]. intros i Hi. rewrite Hylen in Hi.
    rewrite at_map_nth, Hz, Hdx by assumption.
    rewrite scatter_inside; auto.
    - unfold newton_dxf. rewrite at_vsub by (now rewrite length_map).
      fold rhs0 y. rewrite at_map_nth by assumption. ring.
    - intros j Hj. destruct Hs as (_ & _ & ->). now apply Hfr_lt. }
  split; [|split; [|split; [|split]]].
  2: { intros j Hj. rewrite Hdx. apply scatter_outside.
       now apply (NoDup_app_disjoint fr cl). }
  2: exact Hdxlen.
  2: { exists (matrixLLT llt). exact HF. }
  2: { exists (newton_dxf llt H q (x_ s) cl fr). split.
       - unfold newton_dxf. rewrite vsub_length; fold rhs0 y;
           rewrite ?length_map; congruence.
       - apply veq_nth.
         + unfold newton_dxf. rewrite vsub_length; fold rhs0 y;
             rewrite ?length_map; congruence.
         + intros i Hi. unfold newton_dxf in Hi.
           rewrite vsub_length in Hi by (fold rhs0 y; rewrite length_map; congruence).
           fold rhs0 y in Hi. rewrite Hylen in Hi.
           rewrite at_map_nth, Hdx by assumption.
           rewrite scatter_inside; auto; [reflexivity|].
           intros j Hj. destruct Hs as (_ & _ & ->). now apply Hfr_lt. }
  intros f Hf.
  destruct (In_nth fr f 0%nat Hf) as (i & Hi & Hif).
  pose proof (veq_at _ _ i Hy) as Hrow. unfold Hreg in Hrow.
  rewrite at_mat_vec, Hff_reg_row_dot in Hrow by assumption.
  rewrite (dot_veq_r _ _ _ Hyz), dot_map_map, (veq_at _ _ i Hyz) in Hrow.
  rewrite at_map_nth, Hif in Hrow by assumption.
  rewrite at_vsub, at_vopp, at_mat_vec, nth_block_row, dot_map_map in Hrow
    by (unfold vopp; rewrite ?mat_vec_length; cbn [block coeffs];
        rewrite ?length_map; auto).
  rewrite at_map_nth, Hif in Hrow by assumption.
  assert (Hfn : (f < nx_ s)%nat) by now apply Hfr_lt.
  assert (Hrowlen : length (nth f (coeffs H) []) = nx_ s).
  { rewrite Forall_forall in Hwr. rewrite <- Hc. apply Hwr, nth_In. lia. }
  unfold gradient.
  rewrite at_vadd by (rewrite mat_vec_length; congruence).
  rewrite at_mat_vec, dot_sum_over, Hrowlen by congruence.
  rewrite (sum_over_filter (is_clamped (x_ s) (gradient H q (x_ s)) lb ub)).
  rewrite <- Ccl, <- Cfr.
  rewrite (sum_over_ext cl _ (fun j => coeff H f j * at_ (x_ s) j))
    by (intros j Hj; rewrite (Hzcl j Hj); reflexivity).
  unfold coeff in Hrow. unfold coeff. unfold at_ in *. lra.
Qed.

(** X10: in a pass that goes on to the Newton step, for a symmetric [H],
    the point [z = x + dx] of the full step satisfies, on every free
    coordinate [f], [(q + H z)(f) + reg * z(f) = 0]: without regularization
    the gradient at [z] vanishes on the free coordinates. *)
Theorem newton_point_stationary (s : BoxQP) (H : MatrixXd) (q lb ub : VectorXd) (k : nat) :
  sized s -> well_formed H -> rows H = nx_ s -> cols H = nx_ s -> length q = nx_ s ->
  symmetric H ->
  converged (classify H q lb ub s) = false ->
  info (compute (Hff_reg (reg_ s) H (free_idx_ (classify H q lb ub s)))) = Success ->
  let dx := dx_ (flow_state (iteration H q lb ub k s)) in
  let z := vadd (x_ s) dx in
  forall f, In f (free_idx_ (classify H q lb ub s)) ->
            at_ (gradient H q z) f + reg_ s * at_ z f == 0.
Proof.
  intros Hs Hwf Hr Hc Hq Hsym Hconv Hinfo.
  exact (proj1 (newton_point_facts s H q lb ub k Hs Hwf Hr Hc Hq Hsym Hconv Hinfo)).
Qed.


Lemma H_pair_symmetric : symmetric H_pair.
Proof.
  intros [|[|i]] [|[|j]] Hi Hj; simpl in Hi, Hj; try lia; reflexivity.
Qed.

Lemma newton_point_stationary_witness :
  sized (warm_start solver_pair [0; -16] [1; 16] [1; 0])
  /\ well_formed H_pair /\ symmetric H_pair
  /\ converged (classify H_pair [-8; 2] [0; -16] [1; 16]
                  (warm_start solver_pair [0; -16] [1; 16] [1; 0])) = false
  /\ at_ (gradient H_pair [-8; 2]
            (vadd [1; 0]
               (dx_ (flow_state (iteration H_pair [-8; 2] [0; -16] [1; 16] 0
                                   (warm_start solver_pair [0; -16] [1; 16] [1; 0]))))))
         1
     + 0 * at_ (vadd [1; 0]
                  (dx_ (flow_state (iteration H_pair [-8; 2] [0; -16] [1; 16] 0
                                      (warm_start solver_pair [0; -16] [1; 16] [1; 0])))))
              1
     == 0.
Proof.
  assert (Hs : sized (warm_start solver_pair [0; -16] [1; 16] [1; 0]))
    by (apply warm_start_sized, BoxQP_BoxQP_sized).
  assert (Hwf : well_formed H_pair) by (split; [reflexivity | repeat constructor]).
  assert (Hc : converged (classify H_pair [-8; 2] [0; -16] [1; 16]
                            (warm_start solver_pair [0; -16] [1; 16] [1; 0])) = false)
    by (vm_compute; reflexivity).
  split; [exact Hs|]. split; [exact Hwf|]. split; [exact H_pair_symmetric|].
  split; [exact Hc|].
  refine (newton_point_stationary _ H_pair [-8; 2] [0; -16] [1; 16] 0 Hs Hwf
            eq_refl eq_refl eq_refl H_pair_symmetric Hc _ 1%nat _).
  - vm_compute. reflexivity.
  - vm_compute. left. reflexivity.
Defined.

(** ** The direction of the Newton step is a descent direction *)

Lemma sum_over_zero (l : list nat) : sum_over l (fun _ => 0) == 0.
Proof.
  induction l as [|j l IH]; simpl; [reflexivity|]. rewrite IH. ring.
Qed.

Lemma dot_vadd_r (c a b : VectorXd) :
  length a = length b -> dot c (vadd a b) == dot c a + dot c b.
Proof.
  intros Hl. rewrite (dot_comm c (vadd a b)), (dot_vadd_l a b c Hl).
  rewrite (dot_comm a c), (dot_comm b c). reflexivity.
Qed.

Lemma mat_vec_vadd (A : list (list Q)) (a b : VectorXd) :
  length a = length b ->
  veq (mat_vec A (vadd a b)) (vadd (mat_vec A a) (mat_vec A b)).
Proof.
  intros Hl. induction A as [|r A IH]; simpl; constructor; [|exact IH].
  now apply dot_vadd_r.
Qed.

Lemma at_repeat_zero (n j : nat) : at_ (repeat 0 n) j = 0.
Proof.
  unfold at_. revert j; induction n as [|n IH]; intros [|j]; simpl; auto.
Qed.

(** The quadratic form of [H] at a vector that is 0 outside [fr] is the
    quadratic form of the block of [H] on [fr]. *)
Lemma quadratic_form_block (n : nat) (H : MatrixXd) (fr cl : list nat) (p : nat -> bool)
      (dx : VectorXd) :
  length (coeffs H) = n -> Forall (fun r => length r = n) (coeffs H) ->
  length dx = n ->
  cl = filter p (seq 0 n) -> fr = filter (fun j => negb (p j)) (seq 0 n) ->
  (forall j, In j cl -> at_ dx j = 0) ->
  dot dx (mat_vec (coeffs H) dx)
  == dot (map (at_ dx) fr) (mat_vec (coeffs (block H fr fr)) (map (at_ dx) fr)).
Proof.
  intros HAl HAr Hdl Hcl Hfr Hzero.
  set (T := fun f => sum_over fr (fun j => coeff H f j * at_ dx j)).
  assert (Hrow : forall f, (f < n)%nat -> at_ (mat_vec (coeffs H) dx) f == T f).
  { intros f Hf. rewrite at_mat_vec.
    assert (Hrl : length (nth f (coeffs H) []) = n).
    { rewrite Forall_forall in HAr. apply HAr, nth_In. lia. }
    rewrite dot_sum_over, Hrl by congruence.
    rewrite (sum_over_filter p), <- Hcl, <- Hfr.
    rewrite (sum_over_ext cl _ (fun _ => 0))
      by (intros j Hj; rewrite (Hzero j Hj); ring).
    rewrite sum_over_zero. unfold T, coeff, at_. ring. }
  rewrite dot_sum_over by (rewrite mat_vec_length; congruence).
  rewrite Hdl, (sum_over_filter p), <- Hcl, <- Hfr.
  rewrite (sum_over_ext cl _ (fun _ => 0))
    by (intros j Hj; rewrite (Hzero j Hj); ring).
  rewrite sum_over_zero.
  rewrite (sum_over_ext fr _ (fun f => at_ dx f * T f)).
  2: { intros f Hf. rewrite Hrow; [reflexivity|].
       rewrite Hfr in Hf. apply filter_In in Hf. destruct Hf as (Hf & _).
       apply in_seq in Hf. lia. }
  unfold block. cbn [coeffs]. unfold mat_vec. rewrite map_map.
  rewrite (map_ext (fun i => dot (map (fun j => coeff H i j) fr) (map (at_ dx) fr)) T)
    by (intros f; apply dot_map_map).
  rewrite dot_map_map. ring.
Qed.

(** Without regularization the direction of the Newton step pairs with
    the gradient to minus its quadratic form, which is positive unless the
    direction is 0. *)
Lemma newton_descent_facts (s : BoxQP) (H : MatrixXd) (q lb ub : VectorXd) (k : nat) :
  sized s -> well_formed H -> rows H = nx_ s -> cols H = nx_ s -> length q = nx_ s ->
  symmetric H ->
  reg_ s == 0 ->
  converged (classify H q lb ub s) = false ->
  info (compute (Hff_reg (reg_ s) H (free_idx_ (classify H q lb ub s)))) = Success ->
  let g := gradient H q (x_ s) in
  let dx := dx_ (flow_state (iteration H q lb ub k s)) in
  dot g dx == - dot dx (mat_vec (coeffs H) dx)
  /\ dot g dx <= 0
  /\ (dot g dx == 0 -> forall j, (j < nx_ s)%nat -> at_ dx j == 0).
Proof.
  intros Hs Hwf Hr Hc Hq Hsym Hreg Hconv Hinfo g dx.
  destruct (newton_point_facts s H q lb ub k Hs Hwf Hr Hc Hq Hsym Hconv Hinfo)
    as (Hstat & Hzero & Hdl & (F & HF) & _).
  fold dx in Hstat, Hzero, Hdl.
  destruct Hwf as (Hwl & Hwr).
  set (fr := free_idx_ (classify H q lb ub s)) in *.
  set (cl := clamped_idx_ (classify H q lb ub s)) in *.
  set (z := vadd (x_ s) dx) in *.
  destruct (classify_fields H q lb ub s)
    as (_ & _ & _ & _ & _ & _ & _ & _ & _ & _ & _ & Ccl & Cfr).
  fold cl in Ccl. fold fr in Cfr.
  pose proof (classify_consistent H q lb ub s) as (_ & Hcov & _ & _).
  fold fr cl in Hcov.
  assert (Hxl : length (x_ s) = nx_ s) by apply Hs.
  assert (HAl : length (coeffs H) = nx_ s) by congruence.
  assert (HAr : Forall (fun r => length r = nx_ s) (coeffs H)) by now rewrite <- Hc.
  (* the gradient at the full step is orthogonal to the direction *)
  assert (Hgz : dot (gradient H q z) dx == 0).
  { rewrite dot_sum_over
      by (unfold gradient; rewrite vadd_length; rewrite ?mat_vec_length; congruence).
    rewrite (sum_over_ext _ _ (fun _ => 0)); [apply sum_over_zero|].
    intros j Hj. apply in_seq in Hj.
    assert (Hjn : (j < nx_ s)%nat).
    { unfold gradient in Hj. rewrite vadd_length in Hj;
        rewrite ?mat_vec_length in *; try congruence. lia. }
    destruct (in_app_or _ _ _ (proj2 (Hcov j) Hjn)) as [Hin | Hin].
    - pose proof (Hstat j Hin) as E. rewrite Hreg in E.
      setoid_replace (at_ (gradient H q z) j) with 0 by lra. ring.
    - rewrite (Hzero j Hin). ring. }
  (* the gradient is affine *)
  assert (Hlin : dot (gradient H q z) dx
                 == dot g dx + dot dx (mat_vec (coeffs H) dx)).
  { unfold g, gradient, z.
    rewrite !dot_vadd_l by (rewrite mat_vec_length; congruence).
    rewrite (dot_veq_l _ _ dx (mat_vec_vadd (coeffs H) (x_ s) dx
                                 (eq_trans Hxl (eq_sym Hdl)))).
    rewrite dot_vadd_l by (rewrite !mat_vec_length; reflexivity).
    rewrite (dot_comm (mat_vec (coeffs H) dx) dx). ring. }
  (* the quadratic form is that of the free-free block, which is positive
     definite *)
  pose proof (quadratic_form_block (nx_ s) H fr cl
                (is_clamped (x_ s) (gradient H q (x_ s)) lb ub) dx
                HAl HAr Hdl Ccl Cfr Hzero) as Hquad.
  assert (Hblock : Hff_reg (reg_ s) H fr = block H fr fr).
  { unfold Hff_reg. now rewrite (proj2 (Qeq_bool_iff _ _) Hreg). }
  assert (HA : square_symmetric (length fr) (coeffs (block H fr fr))).
  { rewrite <- Hblock. apply Hff_reg_symmetric; [exact Hsym|].
    intros i Hi. rewrite Hr. apply Hcov, in_or_app. now left. }
  rewrite Hblock in HF.
  destruct (factorize_positive_definite _ _ _ HA HF (map (at_ dx) fr))
    as (Hge & Hdef); [apply length_map|].
  rewrite <- Hquad in Hge, Hdef.
  split; [lra|]. split; [lra|].
  intros Hz0 j Hj.
  assert (Hv : veq (map (at_ dx) fr) (repeat 0 (length fr))) by (apply Hdef; lra).
  destruct (in_app_or _ _ _ (proj2 (Hcov j) Hj)) as [Hin | Hin].
  - destruct (In_nth fr j 0%nat Hin) as (i & Hi & Hij).
    pose proof (veq_at _ _ i Hv) as E.
    rewrite at_map_nth, Hij, at_repeat_zero in E by assumption. exact E.
  - rewrite (Hzero j Hin). reflexivity.
Qed.

(** X12: without regularization ([reg_ = 0]) and for a symmetric [H], the
    direction of a pass that goes on to the Newton step is a descent
    direction: [g . dx = - dx^T H dx <= 0] with [g] the gradient at the
    current iterate, and [g . dx = 0] only when [dx] is 0. *)
Theorem newton_direction_descent (s : BoxQP) (H : MatrixXd) (q lb ub : VectorXd) (k : nat) :
  sized s -> well_formed H -> rows H = nx_ s -> cols H = nx_ s -> length q = nx_ s ->
  symmetric H ->
  reg_ s == 0 ->
  converged (classify H q lb ub s) = false ->
  info (compute (Hff_reg (reg_ s) H (free_idx_ (classify H q lb ub s)))) = Success ->
  let g := gradient H q (x_ s) in
  let dx := dx_ (flow_state (iteration H q lb ub k s)) in
  dot g dx == - dot dx (mat_vec (coeffs H) dx)
  /\ dot g dx <= 0
  /\ (dot g dx == 0 -> forall j, (j < nx_ s)%nat -> at_ dx j == 0).
Proof.
  intros Hs Hwf Hr Hc Hq Hsym Hreg Hconv Hinfo.
  exact (newton_descent_facts s H q lb ub k Hs Hwf Hr Hc Hq Hsym Hreg Hconv Hinfo).
Qed.

Lemma newton_direction_descent_witness :
  sized single_start /\ well_formed H_single /\ symmetric H_single
  /\ reg_ single_start == 0
  /\ dot (gradient H_single [-4] (x_ single_start))
         (dx_ (flow_state (iteration H_single [-4] [0] [1] 0 single_start)))
     <= 0.
Proof.
  assert (Hs : sized single_start) by (apply warm_start_sized, BoxQP_BoxQP_sized).
  assert (Hwf : well_formed H_single) by (split; [reflexivity | repeat constructor]).
  assert (Hreg : reg_ single_start == 0) by reflexivity.
  split; [exact Hs|]. split; [exact Hwf|]. split; [exact H_single_symmetric|].
  split; [exact Hreg|].
  refine (proj1 (proj2 (newton_direction_descent single_start H_single [-4] [0] [1] 0
                          Hs Hwf eq_refl eq_refl eq_refl H_single_symmetric Hreg _ _))).
  - vm_compute. reflexivity.
  - vm_compute. reflexivity.
Defined.

(** ** Which inverse is returned *)

Lemma for_k_inverse (H : MatrixXd) (q lb ub : VectorXd) (s0 : BoxQP) (remaining : nat) :
  forall (k : nat) (s s' : BoxQP) (sol : BoxQPSolution),
    reaches H q lb ub s0 k s ->
    (k = 0%nat -> (1 <= remaining)%nat) ->
    for_k H q lb ub remaining k s = (s', inr sol) ->
    inverse_for (reg_ s0) H (free_idx sol) (Hff_inv sol)
    \/ exists k' sk,
        k' <> 0%nat /\ (k' < k + remaining)%nat /\ reaches H q lb ub s0 k' sk
        /\ converged (classify H q lb ub sk) = true /\ Hff_inv sol = Hff_inv_ sk.
Proof.
  induction remaining as [|r IH]; intros k s s' sol Hr Hk Hf; cbn [for_k] in Hf.
  - destruct (reaches_inverse H q lb ub s0 k s Hr) as (_ & Hinv).
    inversion Hf; subst. left. apply Hinv. intros E. specialize (Hk E). lia.
  - destruct (reaches_inverse H q lb ub s0 k s Hr) as (Hreg & _).
    pose proof (classify_parameters H q lb ub s) as Creg.
    destruct (classify_fields H q lb ub s) as (_ & _ & _ & _ & Cinv & _).
    destruct (iteration_cases H q lb ub k s)
      as [(_ & _ & _ & E) | [(Hc & Hk0 & E) | [(_ & _ & E) | [(_ & _ & _ & E)
         | (_ & _ & _ & E)]]]]; rewrite E in Hf.
    + inversion Hf; subst. left. unfold inverse_for. cbn. congruence.
    + inversion Hf; subst. right. exists k, s.
      split; [exact Hk0|]. split; [lia|]. split; [exact Hr|]. split; [exact Hc|].
      cbn. exact Cinv.
    + discriminate.
    + inversion Hf; subst. left. unfold inverse_for, before_line_search. cbn.
      congruence.
    + destruct (IH (S k) _ s' sol (reaches_next H q lb ub s0 k s _ Hr E)
                  (fun E0 => False_ind _ (Nat.neq_succ_0 k E0)) Hf)
        as [Hl | (k' & sk & H1 & H2 & H3 & H4 & H5)]; [now left|].
      right. exists k', sk. repeat split; try assumption. lia.
Qed.

(** X15: when at least one pass is made and [solve] returns, the returned
    [Hff_inv] is the inverse computed for the returned free list, on every
    return path except one: the return from the convergence test of a pass
    after the first, which hands back the inverse the solver held at the
    head of that pass. *)
Theorem solve_inverse_fresh (s : BoxQP) (H : MatrixXd) (q lb ub xinit : VectorXd)
        (s' : BoxQP) (sol : BoxQPSolution) :
  (1 <= maxiter_ s)%nat ->
  solve s H q lb ub xinit = (s', inr sol) ->
  inverse_for (reg_ s) H (free_idx sol) (Hff_inv sol)
  \/ exists k sk,
      k <> 0%nat /\ (k < maxiter_ s)%nat
      /\ reaches H q lb ub (warm_start s lb ub xinit) k sk
      /\ converged (classify H q lb ub sk) = true /\ Hff_inv sol = Hff_inv_ sk.
Proof.
  intros Hm Hsolve. unfold solve in Hsolve.
  destruct (check_dimensions (nx_ s) H q lb ub xinit); [discriminate|].
  exact (for_k_inverse H q lb ub (warm_start s lb ub xinit) (maxiter_ s) 0 _ s' sol
           (reaches_first _ _ _ _ _) (fun _ => Hm) Hsolve).
Qed.

Lemma solve_inverse_fresh_witness :
  (1 <= maxiter_ solver_pair)%nat
  /\ (inverse_for 0 H_pair [1%nat] (mkMatrixXd 1 1 [[1 # 2]])
      \/ exists k sk,
          k <> 0%nat /\ (k < maxiter_ solver_pair)%nat
          /\ reaches H_pair [-4; 2] [0; -16] [1; 16]
                     (warm_start solver_pair [0; -16] [1; 16] [0; 0]) k sk
          /\ converged (classify H_pair [-4; 2] [0; -16] [1; 16] sk) = true
          /\ mkMatrixXd 1 1 [[1 # 2]] = Hff_inv_ sk).
Proof.
  assert (Hm : (1 <= maxiter_ solver_pair)%nat) by (simpl; lia).
  split; [exact Hm|].
  refine (solve_inverse_fresh solver_pair H_pair [-4; 2] [0; -16] [1; 16] [0; 0]
            (fst (solve solver_pair H_pair [-4; 2] [0; -16] [1; 16] [0; 0]))
            (mkBoxQPSolution (mkMatrixXd 1 1 [[1 # 2]])
               (x_ (fst (solve solver_pair H_pair [-4; 2] [0; -16] [1; 16] [0; 0])))
               [1%nat] [0%nat]) Hm _).
  vm_compute. reflexivity.
Defined.

(** ** The objective over a whole call *)

Lemma continue_objective (s : BoxQP) (H : MatrixXd) (q lb ub : VectorXd)
      (k : nat) (s' : BoxQP) :
  sized s ->
  square_symmetric (nx_ s) (coeffs H) -> length q = nx_ s ->
  positive_semidefinite (nx_ s) H ->
  0 <= th_acceptstep_ s -> th_acceptstep_ s <= 1 ->
  iteration H q lb ub k s = Continue s' ->
  objective H q (x_ s') <= objective H q (x_ s).
Proof.
  intros Hs HA Hq Hpsd Ht0 Ht1 Hit.
  destruct (before_line_search_fields H q lb ub s)
    as (Bx & Bxn & Bnx & Bal & Bta & Btg & Bg & Bfr & Bcl & Bdx).
  destruct (classify_fields H q lb ub s)
    as (_ & _ & _ & _ & _ & _ & _ & _ & _ & _ & Cg & _).
  assert (Hs2 : sized (before_line_search H q lb ub s)).
  { destruct Hs as (H1 & H2 & H3). unfold sized. rewrite Bx, Bxn, Bnx, Bdx. auto. }
  destruct (iteration_cases H q lb ub k s)
    as [(_ & _ & _ & E) | [(_ & _ & E) | [(_ & _ & E) | [(_ & _ & _ & E)
       | (_ & _ & _ & E)]]]]; rewrite E in Hit; try discriminate.
  assert (Es : s' = line_search H q lb ub
                      (objective H q (x_ (before_line_search H q lb ub s)))
                      (alphas_ (before_line_search H q lb ub s))
                      (before_line_search H q lb ub s)) by congruence.
  destruct (line_search_result H q lb ub
              (objective H q (x_ (before_line_search H q lb ub s)))
              (alphas_ (before_line_search H q lb ub s))
              (before_line_search H q lb ub s) Hs2)
    as (_ & _ & Hxs).
  rewrite <- Es in Hxs.
  destruct (find _ (alphas_ (before_line_search H q lb ub s))) as [a|] eqn:Ef.
  - apply find_some in Ef. destruct Ef as (_ & Hacc).
    rewrite Bg, Cg, Bx, Bnx, Bta in Hacc. rewrite Bx, Bnx in Hxs.
    rewrite Hxs. apply Qlt_le_weak.
    apply (accepts_decreases (nx_ s) H q (x_ s) _ (th_acceptstep_ s)); auto.
    + apply Hs.
    + apply projected_step_length.
  - rewrite Bx in Hxs. rewrite Hxs. apply Qle_refl.
Qed.

Lemma reaches_objective (H : MatrixXd) (q lb ub : VectorXd) (s0 : BoxQP)
      (k : nat) (s : BoxQP) :
  sized s0 ->
  square_symmetric (nx_ s0) (coeffs H) -> length q = nx_ s0 ->
  positive_semidefinite (nx_ s0) H ->
  0 <= th_acceptstep_ s0 -> th_acceptstep_ s0 <= 1 ->
  reaches H q lb ub s0 k s ->
  sized s /\ objective H q (x_ s) <= objective H q (x_ s0).
Proof.
  intros Hs0 HA Hq Hpsd Ht0 Ht1 Hr. induction Hr as [|k s s' Hr IH Hit].
  - split; [exact Hs0 | apply Qle_refl].
  - destruct IH as (Hs & Hle).
    destruct (reaches_configuration H q lb ub s0 k s Hr) as (Hn & _ & Hta & _).
    pose proof (iteration_sized H q lb ub k s Hs) as (Hs' & _).
    rewrite Hit in Hs'. cbn [flow_state] in Hs'. split; [exact Hs'|].
    apply (Qle_trans _ (objective H q (x_ s))); [|exact Hle].
    apply (continue_objective s H q lb ub k s' Hs); rewrite ?Hn, ?Hta; assumption.
Qed.

(** X16: for a symmetric positive semi-definite [H] and
    [0 <= th_acceptstep <= 1], whatever [solve] returns has an objective
    value no greater than that of [xinit] moved into the box. *)
Theorem solve_objective_not_worse (s : BoxQP) (H : MatrixXd) (q lb ub xinit : VectorXd)
        (s' : BoxQP) (sol : BoxQPSolution) :
  sized s -> well_formed H -> symmetric H ->
  positive_semidefinite (nx_ s) H ->
  0 <= th_acceptstep_ s -> th_acceptstep_ s <= 1 ->
  solve s H q lb ub xinit = (s', inr sol) ->
  objective H q (x sol)
  <= objective H q (map (fun i => clip lb ub i (at_ xinit i)) (seq 0 (nx_ s))).
Proof.
  intros Hs Hwf Hsym Hpsd Ht0 Ht1 Hsolve.
  rewrite <- (warm_start_x s lb ub xinit Hs).
  unfold solve in Hsolve.
  destruct (check_dimensions (nx_ s) H q lb ub xinit) eqn:Hd; [discriminate|].
  apply check_dimensions_none in Hd. destruct Hd as (Hr & Hc & Hq & _).
  pose proof (well_formed_square_symmetric (nx_ s) H Hwf Hr Hc Hsym) as HA.
  destruct (for_k_reaches H q lb ub (warm_start s lb ub xinit) (maxiter_ s) 0
              (warm_start s lb ub xinit) s' sol
              (reaches_first H q lb ub _) Hsolve)
    as (k' & s1 & Hr1 & _ & Hx & _).
  rewrite Hx.
  exact (proj2 (reaches_objective H q lb ub (warm_start s lb ub xinit) k' s1
                  (warm_start_sized s lb ub xinit Hs) HA Hq Hpsd Ht0 Ht1 Hr1)).
Qed.

Lemma solve_objective_not_worse_witness :
  sized solver_single /\ symmetric H_single /\ positive_semidefinite 1 H_single
  /\ objective H_single [-4] [1] <= objective H_single [-4] [0].
Proof.
  assert (Hs : sized solver_single) by apply BoxQP_BoxQP_sized.
  assert (Hwf : well_formed H_single) by (split; [reflexivity | repeat constructor]).
  split; [exact Hs|]. split; [exact H_single_symmetric|].
  split; [exact H_single_positive_semidefinite|].
  refine (solve_objective_not_worse solver_single H_single [-4] [0] [1] [0]
            (fst (solve solver_single H_single [-4] [0] [1] [0]))
            (mkBoxQPSolution (mkMatrixXd 1 1 [[1 # 2]]) [1] [] [0%nat])
            Hs Hwf H_single_symmetric H_single_positive_semidefinite _ _ _).
  - vm_compute. discriminate.
  - vm_compute. discriminate.
  - vm_compute. reflexivity.
Defined.

(** * The partition and the line search, coefficient by coefficient *)

(** ** The gradient, the objective and the projection written out *)








(** ** The partition of a pass *)



(** ** The schedule and the line search *)




(** * The kernel on [double] values: proofs *)

Section Float64_proofs.

Import Float64 Float64.Eigen.

Local Open Scope float_scope.

(** ** Comparisons and NaN *)

Lemma SFcompare_refl (f : spec_float) : f <> S754_nan -> SFcompare f f = Some Eq.
Proof.
  destruct f as [s | s | | s m e]; simpl; intros Hf; try congruence.
  - now destruct s.
  - now destruct s; rewrite Z.compare_refl, Pos.compare_cont_refl.
Qed.

Lemma SFcompare_antisym (f1 f2 : spec_float) :
  SFcompare f2 f1 = option_map CompOpp (SFcompare f1 f2).
Proof.
  destruct f1 as [s1 | s1 | | s1 m1 e1], f2 as [s2 | s2 | | s2 m2 e2]; simpl;
    try reflexivity; try (now destruct s1); try (now destruct s2);
    try (now destruct s1, s2).
  assert (E : Pos.compare_cont Eq m2 m1 = CompOpp (Pos.compare_cont Eq m1 m2))
    by (symmetry; apply (Pos.compare_cont_antisym m1 m2 Eq)).
  destruct s1, s2; try reflexivity; rewrite (Z.compare_antisym e1 e2);
    destruct (Z.compare e1 e2); simpl; try reflexivity;
    rewrite E; now destruct (Pos.compare_cont Eq m1 m2).
Qed.

Lemma SFcompare_none (f1 f2 : spec_float) :
  SFcompare f1 f2 = None -> f1 = S754_nan \/ f2 = S754_nan.
Proof.
  destruct f1, f2; simpl; intros Hc; try discriminate; auto.
Qed.

Lemma is_nan_spec (a : float) : is_nan a = true <-> Prim2SF a = S754_nan.
Proof.
  unfold is_nan. rewrite eqb_spec. unfold SFeqb.
  destruct (Prim2SF a) eqn:E.
  1, 2, 4: rewrite SFcompare_refl by discriminate; simpl; split; discriminate.
  simpl. split; reflexivity.
Qed.

Lemma not_nan_spec (a : float) : is_nan a = false <-> Prim2SF a <> S754_nan.
Proof.
  rewrite <- is_nan_spec. destruct (is_nan a); split; congruence.
Qed.

Lemma leb_not_nan (a b : float) :
  (a <=? b) = true -> is_nan a = false /\ is_nan b = false.
Proof.
  rewrite leb_spec, !not_nan_spec. unfold SFleb.
  destruct (Prim2SF a), (Prim2SF b); simpl; intros Hc; try discriminate;
    split; discriminate.
Qed.

Lemma leb_refl (a : float) : is_nan a = false -> (a <=? a) = true.
Proof.
  rewrite leb_spec, not_nan_spec. unfold SFleb. intros Ha.
  now rewrite SFcompare_refl.
Qed.

(** Two values that are not NaN are comparable. *)
Lemma ltb_false_leb (a b : float) :
  is_nan a = false -> is_nan b = false -> (a <? b) = false -> (b <=? a) = true.
Proof.
  rewrite ltb_spec, leb_spec, !not_nan_spec. unfold SFltb, SFleb. intros Ha Hb.
  rewrite (SFcompare_antisym (Prim2SF a) (Prim2SF b)).
  destruct (SFcompare (Prim2SF a) (Prim2SF b)) as [[| |]|] eqn:E; simpl;
    try reflexivity; try discriminate.
  destruct (SFcompare_none _ _ E); contradiction.
Qed.

Lemma leb_ltb_false (a b : float) : (a <=? b) = true -> (b <? a) = false.
Proof.
  rewrite ltb_spec, leb_spec. unfold SFltb, SFleb.
  rewrite (SFcompare_antisym (Prim2SF a) (Prim2SF b)).
  destruct (SFcompare (Prim2SF a) (Prim2SF b)) as [[| |]|]; simpl;
    try reflexivity; discriminate.
Qed.

(** A comparison with NaN is false, and an operation on NaN gives NaN. *)
Lemma ltb_nan_l (a b : float) : is_nan a = true -> (a <? b) = false.
Proof.
  rewrite is_nan_spec, ltb_spec. unfold SFltb. now intros ->.
Qed.

Lemma ltb_nan_r (a b : float) : is_nan b = true -> (a <? b) = false.
Proof.
  rewrite is_nan_spec, ltb_spec. unfold SFltb. intros ->.
  now destruct (Prim2SF a).
Qed.

Lemma add_nan_l (a b : float) : is_nan a = true -> is_nan (a + b) = true.
Proof.
  rewrite !is_nan_spec, add_spec. now intros ->.
Qed.

Lemma add_nan_r (a b : float) : is_nan b = true -> is_nan (a + b) = true.
Proof.
  rewrite !is_nan_spec, add_spec. intros ->. now destruct (Prim2SF a).
Qed.

Lemma sub_nan_r (a b : float) : is_nan b = true -> is_nan (a - b) = true.
Proof.
  rewrite !is_nan_spec, sub_spec. intros ->. now destruct (Prim2SF a).
Qed.

Lemma mul_nan_r (a b : float) : is_nan b = true -> is_nan (a * b) = true.
Proof.
  rewrite !is_nan_spec, mul_spec. intros ->. now destruct (Prim2SF a).
Qed.

(** ** The projection onto an interval *)

(** A NaN goes through [std::min] and [std::max] as their first argument. *)
Lemma clip_nan (lb ub : VectorXd) (j : nat) (v : float) :
  is_nan v = true -> clip lb ub j v = v.
Proof.
  intros Hv. unfold clip, std_min, std_max.
  rewrite (ltb_nan_r (at_ ub j) v Hv), (ltb_nan_l v (at_ lb j) Hv). reflexivity.
Qed.

Lemma clip_projection (lb ub : VectorXd) (j : nat) (v : float) :
  (at_ lb j <=? at_ ub j) = true -> is_nan v = false ->
  projection_of (at_ lb j) (at_ ub j) v (clip lb ub j v).
Proof.
  intros Hb Hv. destruct (leb_not_nan _ _ Hb) as (Hl & Hu).
  unfold clip, std_min, std_max, projection_of.
  destruct (at_ ub j <? v) eqn:E1.
  - rewrite (leb_ltb_false _ _ Hb). right; left. auto.
  - destruct (v <? at_ lb j) eqn:E2.
    + left. auto.
    + right; right. split; [|split]; auto using ltb_false_leb.
Qed.

Lemma projection_in_bounds (lo hi v r : float) :
  (lo <=? hi) = true -> projection_of lo hi v r ->
  (lo <=? r) = true /\ (r <=? hi) = true.
Proof.
  intros Hb. destruct (leb_not_nan _ _ Hb) as (Hl & Hu).
  intros [(_ & ->) | [(_ & ->) | (H1 & H2 & ->)]]; auto using leb_refl.
Qed.

Lemma clip_in_bounds_f64 (lb ub : VectorXd) (j : nat) (v : float) :
  (at_ lb j <=? at_ ub j) = true -> is_nan v = false ->
  (at_ lb j <=? clip lb ub j v) = true /\ (clip lb ub j v <=? at_ ub j) = true.
Proof.
  intros Hb Hv. apply (projection_in_bounds _ _ v); [exact Hb|].
  now apply clip_projection.
Qed.

(** ** Vectors *)

Lemma set_at_length_f64 (v : VectorXd) (i : nat) (a : float) :
  length (set_at v i a) = length v.
Proof.
  revert i; induction v as [|b v IH]; intros [|i]; simpl; auto.
Qed.

Lemma set_at_app_f64 (v w : VectorXd) (a b : float) :
  set_at (v ++ b :: w) (length v) a = v ++ a :: w.
Proof.
  induction v as [|c v IH]; simpl; [reflexivity | now rewrite IH].
Qed.

Lemma assign_loop_from_f64 (f : nat -> float) (done todo : VectorXd) (n : nat) :
  length todo = n ->
  fold_left (fun w i => set_at w i (f i)) (seq (length done) n) (done ++ todo)
  = done ++ map f (seq (length done) n).
Proof.
  revert done todo; induction n as [|n IH]; intros done todo Hn.
  - destruct todo; [reflexivity | discriminate].
  - destruct todo as [|b todo]; [discriminate|]. simpl.
    rewrite set_at_app_f64.
    replace (done ++ f (length done) :: todo) with ((done ++ [f (length done)]) ++ todo)
      by (now rewrite <- app_assoc).
    replace (S (length done)) with (length (done ++ [f (length done)]))
      by (rewrite length_app; simpl; lia).
    rewrite IH by (simpl in Hn; lia).
    rewrite <- app_assoc. reflexivity.
Qed.

Lemma assign_loop_map_f64 (f : nat -> float) (n : nat) (v : VectorXd) :
  length v = n -> assign_loop f n v = map f (seq 0 n).
Proof.
  intros Hn. unfold assign_loop.
  apply (assign_loop_from_f64 f [] v n Hn).
Qed.

Lemma at_map_seq_f64 (f : nat -> float) (n j : nat) :
  (j < n)%nat -> at_ (map f (seq 0 n)) j = f j.
Proof.
  intros Hj. unfold at_.
  rewrite (nth_indep _ 0 (f 0%nat)) by (now rewrite length_map, length_seq).
  rewrite (map_nth f (seq 0 n) 0%nat j), seq_nth by assumption. reflexivity.
Qed.

Lemma scatter_length_f64 (fr : list nat) (dxf dx : VectorXd) :
  length (scatter fr dxf dx) = length dx.
Proof.
  unfold scatter.
  assert (G : forall (l : list nat) (w : VectorXd),
             length (fold_left (fun w i => set_at w (nth i fr 0%nat) (at_ dxf i)) l w)
             = length w).
  { induction l as [|i l IH]; intros w; simpl; [reflexivity|].
    now rewrite IH, set_at_length_f64. }
  rewrite G. unfold setZero. apply length_map.
Qed.

(** ** A trial point with a NaN is not accepted *)

Lemma dot_from_nan_acc (acc : float) (a b : VectorXd) :
  is_nan acc = true -> is_nan (dot_from acc a b) = true.
Proof.
  revert acc b; induction a as [|c a IH]; intros acc [|d b] Hacc; simpl; auto.
  apply IH. now apply add_nan_l.
Qed.

Lemma dot_from_nan_r (acc : float) (a b : VectorXd) (i : nat) :
  (i < length a)%nat -> (i < length b)%nat -> is_nan (at_ b i) = true ->
  is_nan (dot_from acc a b) = true.
Proof.
  unfold at_. revert acc b i; induction a as [|c a IH]; intros acc [|d b] i Ha Hb Hn;
    simpl in *; try lia.
  destruct i as [|i].
  - apply dot_from_nan_acc, add_nan_r, mul_nan_r. exact Hn.
  - apply (IH _ b i); [lia | lia | exact Hn].
Qed.

(** A dot product with a NaN coefficient is NaN. *)
Lemma dot_nan_r (a b : VectorXd) (i : nat) :
  (i < length a)%nat -> (i < length b)%nat -> is_nan (at_ b i) = true ->
  is_nan (dot a b) = true.
Proof.
  destruct a as [|c a], b as [|d b]; simpl; try lia. intros Ha Hb Hn.
  destruct i as [|i].
  - apply dot_from_nan_acc, mul_nan_r. exact Hn.
  - apply (dot_from_nan_r _ a b i); [lia | lia | exact Hn].
Qed.

Lemma objective_nan (H : MatrixXd) (q v : VectorXd) (i : nat) :
  (i < length q)%nat -> (i < length v)%nat -> is_nan (at_ v i) = true ->
  is_nan (objective H q v) = true.
Proof.
  intros Hq Hv Hn. unfold objective. apply add_nan_r. now apply (dot_nan_r q v i).
Qed.

(** The test of line 173 is a comparison with [fold - fnew]: it fails when
    [fnew] is NaN, and [fnew] is NaN when a coefficient of [xnew_] is. *)
Lemma accepts_no_nan (n : nat) (H : MatrixXd) (q : VectorXd) (th fold : float)
      (g xk xnew : VectorXd) :
  length q = n -> length xnew = n ->
  accepts H q th fold g xk xnew = true ->
  forall j, (j < n)%nat -> is_nan (at_ xnew j) = false.
Proof.
  intros Hq Hx Ha j Hj. destruct (is_nan (at_ xnew j)) eqn:E; [|reflexivity].
  unfold accepts in Ha. rewrite ltb_nan_r in Ha; [discriminate|].
  apply sub_nan_r, (objective_nan H q xnew j); [lia | lia | exact E].
Qed.

(** ** The iterate through a call *)

Lemma projected_step_length_f64 (n : nat) (lb ub xk dx : VectorXd) (a : float) :
  length (projected_step n lb ub xk dx a) = n.
Proof.
  unfold projected_step. now rewrite length_map, length_seq.
Qed.

Lemma warm_start_x_f64 (s : BoxQP) (lb ub xinit : VectorXd) :
  sized s ->
  x_ (warm_start s lb ub xinit)
  = map (fun i => clip lb ub i (at_ xinit i)) (seq 0 (nx_ s)).
Proof.
  intros (Hx & _). unfold warm_start. simpl. now apply assign_loop_map_f64.
Qed.

Lemma warm_start_sized_f64 (s : BoxQP) (lb ub xinit : VectorXd) :
  sized s ->
  sized (warm_start s lb ub xinit) /\ nx_ (warm_start s lb ub xinit) = nx_ s.
Proof.
  intros Hs. pose proof (warm_start_x_f64 s lb ub xinit Hs) as E.
  destruct Hs as (Hx & Hxn & Hdx). unfold sized. rewrite E.
  unfold warm_start. simpl. rewrite length_map, length_seq. auto.
Qed.

(** The warm start, coordinate by coordinate: the nearest point of the
    interval for a number, NaN for NaN. *)
Lemma projected_warm_start (n : nat) (lb ub xinit : VectorXd) :
  let xs := map (fun i => clip lb ub i (at_ xinit i)) (seq 0 n) in
  length xs = n
  /\ (forall j, (j < n)%nat -> (at_ lb j <=? at_ ub j) = true ->
                is_nan (at_ xinit j) = false ->
                projection_of (at_ lb j) (at_ ub j) (at_ xinit j) (at_ xs j))
  /\ (forall j, (j < n)%nat -> is_nan (at_ xinit j) = true -> is_nan (at_ xs j) = true).
Proof.
  intros xs. split; [unfold xs; now rewrite length_map, length_seq|]. split.
  - intros j Hj Hb Hn. unfold xs. rewrite at_map_seq_f64 by assumption.
    now apply clip_projection.
  - intros j Hj Hn. unfold xs. rewrite at_map_seq_f64 by assumption.
    now rewrite clip_nan.
Qed.

(** The loop over the step lengths: the iterate stays, or becomes a trial
    point that passed the test. *)
Lemma line_search_result_f64 (H : MatrixXd) (q lb ub : VectorXd) (fold : float)
      (alphas : list float) (s : BoxQP) :
  sized s ->
  let s' := line_search H q lb ub fold alphas s in
  sized s' /\ nx_ s' = nx_ s
  /\ (x_ s' = x_ s
      \/ exists a,
          x_ s' = projected_step (nx_ s) lb ub (x_ s) (dx_ s) a
          /\ accepts H q (th_acceptstep_ s) fold (g_ s) (x_ s) (x_ s') = true).
Proof.
  revert s; induction alphas as [|a alphas IH]; intros s Hs; simpl.
  - auto.
  - destruct Hs as (Hx & Hxn & Hdx).
    unfold trial_point. rewrite (assign_loop_map_f64 _ (nx_ s) (xnew_ s) Hxn).
    fold (projected_step (nx_ s) lb ub (x_ s) (dx_ s) a).
    destruct (accepts H q (th_acceptstep_ s) fold (g_ s) (x_ s)
                      (projected_step (nx_ s) lb ub (x_ s) (dx_ s) a)) eqn:E.
    + split; [repeat split; simpl; try assumption; apply projected_step_length_f64|].
      split; [reflexivity|]. right. exists a. simpl. auto.
    + apply (IH (with_xnew s (projected_step (nx_ s) lb ub (x_ s) (dx_ s) a))).
      repeat split; simpl; try assumption. apply projected_step_length_f64.
Qed.

Lemma classify_fields_f64 (H : MatrixXd) (q lb ub : VectorXd) (s : BoxQP) :
  let s' := classify H q lb ub s in
  x_ s' = x_ s /\ xnew_ s' = xnew_ s /\ dx_ s' = dx_ s /\ nx_ s' = nx_ s.
Proof.
  unfold classify. cbn [with_idx with_g x_ g_ nx_ clamped_idx_ free_idx_].
  destruct (partition_loop _ _ _ _ _ _ _) as (cl, fr). simpl. auto.
Qed.

(** What a pass does to the iterate: a pass that returns leaves it and
    copies it to the solution, a pass that falls through leaves it or moves
    it to a trial point that passed the test. *)
Lemma iteration_iterate_f64 (H : MatrixXd) (q lb ub : VectorXd) (k : nat) (s : BoxQP) :
  sized s ->
  match iteration H q lb ub k s with
  | Continue s' =>
      sized s' /\ nx_ s' = nx_ s
      /\ (x_ s' = x_ s
          \/ exists a dx th fold g,
              x_ s' = projected_step (nx_ s) lb ub (x_ s) dx a
              /\ accepts H q th fold g (x_ s) (x_ s') = true)
  | Return s' => nx_ s' = nx_ s /\ x_ s' = x_ s /\ x (solution_ s') = x_ s
  | Throw _ _ => True
  end.
Proof.
  intros Hs.
  destruct (classify_fields_f64 H q lb ub s) as (Cx & Cxn & Cdx & Cnx).
  unfold iteration. set (s0 := classify H q lb ub s) in *.
  destruct (converged s0).
  - destruct (k =? 0)%nat.
    + destruct (info _); simpl; auto.
    + simpl; auto.
  - destruct (info _); [|exact I]. cbv zeta.
    match goal with
    | |- context [if ?c then Return _ else Continue _] => destruct c
    end.
    + simpl. auto.
    + match goal with
      | |- context [line_search H q lb ub ?f ?al ?t] => set (s2 := t) in *
      end.
      assert (Hs2 : sized s2).
      { unfold s2, sized. cbn [with_dx with_Hff_inv x_ xnew_ dx_ nx_].
        rewrite scatter_length_f64, Cx, Cxn, Cdx, Cnx. exact Hs. }
      assert (Ex : x_ s2 = x_ s) by (unfold s2; cbn [with_dx with_Hff_inv x_]; exact Cx).
      assert (En : nx_ s2 = nx_ s) by (unfold s2; cbn [with_dx with_Hff_inv nx_]; exact Cnx).
      pose proof (line_search_result_f64 H q lb ub (objective H q (x_ s2)) (alphas_ s2)
                                         s2 Hs2) as L.
      cbv zeta in L.
      set (s3 := line_search H q lb ub (objective H q (x_ s2)) (alphas_ s2) s2) in *.
      destruct L as (L1 & L2 & L3). split; [exact L1|]. split; [congruence|].
      destruct L3 as [L3 | (a & L3 & L4)].
      * left. congruence.
      * right. rewrite Ex, En in L3. rewrite Ex in L4. eauto 10.
Qed.

(** What holds of the warm start and of every trial point that passes the
    test holds of the [x] that is returned. *)
Lemma for_k_invariant (P : VectorXd -> Prop) (H : MatrixXd) (q lb ub : VectorXd) (n : nat) :
  (forall xk dx a th fold g,
      P xk ->
      accepts H q th fold g xk (projected_step n lb ub xk dx a) = true ->
      P (projected_step n lb ub xk dx a)) ->
  forall (remaining k : nat) (s s' : BoxQP) (sol : BoxQPSolution),
    sized s -> nx_ s = n -> P (x_ s) ->
    for_k H q lb ub remaining k s = (s', inr sol) ->
    P (x sol) /\ P (x_ s').
Proof.
  intros Hstep remaining.
  induction remaining as [|r IH]; intros k s s' sol Hs Hn HP Hf; simpl in Hf.
  - inversion Hf; subst. simpl. auto.
  - pose proof (iteration_iterate_f64 H q lb ub k s Hs) as Hi.
    destruct (iteration H q lb ub k s) as [s1 | s1 | s1 e].
    + destruct Hi as (Hs1 & Hn1 & Hx1).
      apply (IH (S k) s1 s' sol Hs1); [congruence | | exact Hf].
      destruct Hx1 as [-> | (a & dx & th & fd & g & E & Ha)]; [exact HP|].
      rewrite E in Ha |- *. rewrite Hn in Ha |- *. now apply (Hstep _ _ _ th fd g).
    + inversion Hf; subst. destruct Hi as (_ & -> & ->). auto.
    + discriminate.
Qed.

(** A trial point that passes the test is in the box: it holds no NaN,
    so each of its coordinates went through [std::min] and [std::max] as a
    number. *)
Lemma accepted_in_box (n : nat) (H : MatrixXd) (q lb ub xk dx : VectorXd)
      (a th fold : float) (g : VectorXd) :
  length q = n -> ordered_bounds n lb ub ->
  accepts H q th fold g xk (projected_step n lb ub xk dx a) = true ->
  in_box n lb ub (projected_step n lb ub xk dx a).
Proof.
  intros Hq Hb Ha j Hj.
  pose proof (accepts_no_nan n H q th fold g xk _ Hq
                (projected_step_length_f64 n lb ub xk dx a) Ha j Hj) as Hnn.
  unfold projected_step in Hnn |- *. rewrite at_map_seq_f64 in Hnn |- * by assumption.
  apply clip_in_bounds_f64; [now apply Hb|].
  destruct (is_nan (at_ xk j + a * at_ dx j)) eqn:En; [|reflexivity].
  rewrite (clip_nan lb ub j _ En) in Hnn. congruence.
Qed.

(** From an iterate with a NaN coordinate no trial point passes the
    test. *)
Lemma nan_not_accepted (n : nat) (H : MatrixXd) (q lb ub xk dx : VectorXd)
      (a th fold : float) (g : VectorXd) (j : nat) :
  length q = n -> (j < n)%nat -> is_nan (at_ xk j) = true ->
  accepts H q th fold g xk (projected_step n lb ub xk dx a) = false.
Proof.
  intros Hq Hj Hn.
  destruct (accepts H q th fold g xk (projected_step n lb ub xk dx a)) eqn:Ha;
    [|reflexivity].
  pose proof (accepts_no_nan n H q th fold g xk _ Hq
                (projected_step_length_f64 n lb ub xk dx a) Ha j Hj) as Hnn.
  unfold projected_step in Hnn. rewrite at_map_seq_f64 in Hnn by assumption.
  rewrite clip_nan in Hnn by (now apply add_nan_l).
  rewrite add_nan_l in Hnn by assumption. discriminate.
Qed.

Lemma check_dimensions_none_f64 (n : nat) (H : MatrixXd) (q lb ub xinit : VectorXd) :
  check_dimensions n H q lb ub xinit = None <-> well_sized n H q lb ub xinit.
Proof.
  unfold check_dimensions, well_sized.
  destruct (Nat.eqb_spec (rows H) n), (Nat.eqb_spec (cols H) n),
    (Nat.eqb_spec (length q) n), (Nat.eqb_spec (length lb) n),
    (Nat.eqb_spec (length ub) n), (Nat.eqb_spec (length xinit) n); simpl;
    split; try discriminate; try tauto; intros; repeat split; assumption.
Qed.

(** ** Feasibility of the returned point *)

(** C1 (as amended): when [solve] returns, whichever way it returns: with
    elementwise [lb <= ub] and an [xinit] that holds no NaN, the [x] of the
    solution and the iterate left in the solver are in the box; and a
    coordinate of [xinit] that is NaN is NaN in the [x] of the solution.
    The values are [double] values; [H] and [q] are arbitrary, and may hold
    infinities or NaN. *)
Theorem solve_feasible (s s' : Float64.BoxQP) (H : Float64.Eigen.MatrixXd)
        (q lb ub xinit : Float64.Eigen.VectorXd) (sol : Float64.BoxQPSolution) :
  Float64.sized s ->
  Float64.solve s H q lb ub xinit = (s', inr sol) ->
  (Float64.ordered_bounds (Float64.nx_ s) lb ub ->
   Float64.no_nan (Float64.nx_ s) xinit ->
   Float64.in_box (Float64.nx_ s) lb ub (Float64.x sol)
   /\ Float64.in_box (Float64.nx_ s) lb ub (Float64.x_ s'))
  /\ (forall j, (j < Float64.nx_ s)%nat ->
                is_nan (Float64.Eigen.at_ xinit j) = true ->
                is_nan (Float64.Eigen.at_ (Float64.x sol) j) = true).
Proof.
  intros Hs Hsolve. unfold solve in Hsolve.
  destruct (check_dimensions (nx_ s) H q lb ub xinit) eqn:Hc; [discriminate|].
  apply check_dimensions_none_f64 in Hc. destruct Hc as (_ & _ & Hq & _).
  destruct (warm_start_sized_f64 s lb ub xinit Hs) as (Hws & Hwn).
  destruct (projected_warm_start (nx_ s) lb ub xinit) as (_ & Hproj & Hnan).
  rewrite <- (warm_start_x_f64 s lb ub xinit Hs) in Hproj, Hnan.
  split.
  - intros Hb Hn.
    apply (for_k_invariant (in_box (nx_ s) lb ub) H q lb ub (nx_ s))
      with (remaining := maxiter_ s) (k := 0%nat) (s := warm_start s lb ub xinit); auto.
    + intros xk dx a th fd g _. now apply accepted_in_box.
    + intros j Hj. apply (projection_in_bounds _ _ (at_ xinit j)); auto.
  - intros j Hj Hj_nan.
    apply (for_k_invariant (fun v => is_nan (at_ v j) = true) H q lb ub (nx_ s))
      with (remaining := maxiter_ s) (k := 0%nat) (s := warm_start s lb ub xinit)
           (s' := s'); auto.
    intros xk dx a th fd g Hx Ha.
    rewrite (nan_not_accepted (nx_ s) H q lb ub xk dx a th fd g j Hq Hj Hx) in Ha.
    discriminate.
Qed.

Lemma solve_feasible_witness :
  Float64.sized Float64.solver_single
  /\ Float64.ordered_bounds 1 [0] [1]
  /\ Float64.no_nan 1 [5]
  /\ exists s' sol,
      Float64.solve Float64.solver_single Float64.H_single [-4] [0] [1] [5] = (s', inr sol)
      /\ Float64.x sol = [1]
      /\ Float64.in_box 1 [0] [1] (Float64.x sol).
Proof.
  assert (Hs : sized solver_single) by (repeat split).
  assert (Hb : ordered_bounds (nx_ solver_single) [0] [1]).
  { intros [|j] Hj; [vm_compute; reflexivity | simpl in Hj; lia]. }
  assert (Hn : no_nan (nx_ solver_single) [5]).
  { intros [|j] Hj; [vm_compute; reflexivity | simpl in Hj; lia]. }
  split; [exact Hs|]. split; [exact Hb|]. split; [exact Hn|].
  eexists. eexists. split; [vm_compute; reflexivity|]. split; [reflexivity|].
  refine (proj1 (proj1 (solve_feasible solver_single _ H_single [-4] [0] [1] [5] _ Hs _)
                       Hb Hn)).
  vm_compute. reflexivity.
Defined.

(** C1 (as stated) fails: [std::min] and [std::max] return a NaN first
    argument, so with the box [[0, 1]] and [xinit = [NaN]] the warm start
    is NaN and the [x] that [solve] returns is NaN, which is in no
    interval: without a pass, and after the ten passes of the solver of the
    one-dimensional problem, none of which accepts a step. *)
Lemma solve_feasible_counterexample :
  Float64.ordered_bounds 1 [0] [1]
  /\ (exists s' sol,
         Float64.solve Float64.solver_idle Float64.H_single [-4] [0] [1] [nan]
         = (s', inr sol)
         /\ Float64.x sol = [nan]
         /\ ~ Float64.in_box 1 [0] [1] (Float64.x sol))
  /\ (exists s' sol,
         Float64.solve Float64.solver_single Float64.H_single [-4] [0] [1] [nan]
         = (s', inr sol)
         /\ Float64.x sol = [nan]
         /\ ~ Float64.in_box 1 [0] [1] (Float64.x sol)).
Proof.
  split; [|split].
  - intros [|j] Hj; [vm_compute; reflexivity | simpl in Hj; lia].
  - eexists. eexists. split; [vm_compute; reflexivity|]. split; [reflexivity|].
    intros Hbox. destruct (Hbox 0%nat) as (E & _); [simpl; lia|].
    vm_compute in E. discriminate.
  - eexists. eexists. split; [vm_compute; reflexivity|]. split; [reflexivity|].
    intros Hbox. destruct (Hbox 0%nat) as (E & _); [simpl; lia|].
    vm_compute in E. discriminate.
Qed.

(** ** No pass at all *)

Lemma BoxQP_BoxQP_sized_f64 (nx maxiter : nat) (th_acceptstep th_grad reg : float) :
  sized (BoxQP_BoxQP nx maxiter th_acceptstep th_grad reg).
Proof.
  unfold sized, BoxQP_BoxQP. simpl. rewrite !repeat_length. auto.
Qed.

(** With [maxiter_ = 0] only the warm start runs, and the solution is
    filled from the members. *)
Lemma solve_no_pass (s : BoxQP) (H : MatrixXd) (q lb ub xinit : VectorXd) :
  sized s -> maxiter_ s = 0%nat -> well_sized (nx_ s) H q lb ub xinit ->
  solve s H q lb ub xinit
  = (store_solution (warm_start s lb ub xinit),
     inr (mkBoxQPSolution (Hff_inv_ s)
                          (map (fun i => clip lb ub i (at_ xinit i)) (seq 0 (nx_ s)))
                          (free_idx_ s) (clamped_idx_ s))).
Proof.
  intros Hs Hm Hw. unfold solve.
  rewrite (proj2 (check_dimensions_none_f64 _ _ _ _ _ _) Hw), Hm.
  cbn [for_k store_solution with_solution solution_].
  rewrite warm_start_x_f64 by assumption. reflexivity.
Qed.

(** C10 (as amended): a fresh solver with [maxiter = 0], given arguments
    of the right sizes, returns a solution whose two lists are empty (so
    that, when there is a coordinate, they do not hold every index) and
    whose [x] is, in every coordinate [j] with [lb_j <= ub_j] where [xinit]
    is a number, the point of [[lb_j, ub_j]] nearest to [xinit_j], and NaN
    in every coordinate where [xinit] is NaN; [Hff_inv] is the
    default-constructed matrix and [g_] is as the constructor left it. *)
Theorem solve_without_pass (nx : nat) (th_acceptstep th_grad reg : float)
        (H : Float64.Eigen.MatrixXd) (q lb ub xinit : Float64.Eigen.VectorXd) :
  Float64.well_sized nx H q lb ub xinit ->
  let s := Float64.BoxQP_BoxQP nx 0 th_acceptstep th_grad reg in
  exists s' projected,
    Float64.solve s H q lb ub xinit
    = (s', inr (Float64.mkBoxQPSolution Float64.Eigen.empty_matrix projected [] []))
    /\ length projected = nx
    /\ (forall j, (j < nx)%nat ->
                  (Float64.Eigen.at_ lb j <=? Float64.Eigen.at_ ub j) = true ->
                  is_nan (Float64.Eigen.at_ xinit j) = false ->
                  Float64.projection_of (Float64.Eigen.at_ lb j) (Float64.Eigen.at_ ub j)
                                        (Float64.Eigen.at_ xinit j)
                                        (Float64.Eigen.at_ projected j))
    /\ (forall j, (j < nx)%nat ->
                  is_nan (Float64.Eigen.at_ xinit j) = true ->
                  is_nan (Float64.Eigen.at_ projected j) = true)
    /\ Float64.g_ s' = Float64.g_ s
    /\ ((1 <= nx)%nat -> ~ Float64.covers nx [] []).
Proof.
  intros Hw s.
  destruct (projected_warm_start nx lb ub xinit) as (Hlen & Hproj & Hnan).
  exists (store_solution (warm_start s lb ub xinit)).
  exists (map (fun i => clip lb ub i (at_ xinit i)) (seq 0 nx)).
  split; [|split; [exact Hlen | split; [exact Hproj | split; [exact Hnan | split]]]].
  - apply (solve_no_pass s H q lb ub xinit); [apply BoxQP_BoxQP_sized_f64 | reflexivity
                                             | exact Hw].
  - reflexivity.
  - intros H1 Hc. exact (Hc 0%nat H1).
Qed.

Lemma solve_without_pass_witness :
  Float64.well_sized 3 Float64.H_triple [0; 0; 0] [0; 0; 0] [1; 1; 1] [2; -1; 0.5]
  /\ exists s',
      Float64.solve Float64.solver_no_pass Float64.H_triple [0; 0; 0] [0; 0; 0] [1; 1; 1]
                    [2; -1; 0.5]
      = (s', inr (Float64.mkBoxQPSolution Float64.Eigen.empty_matrix [1; 0; 0.5] [] [])).
Proof.
  assert (Hw : well_sized 3 H_triple [0; 0; 0] [0; 0; 0] [1; 1; 1] [2; -1; 0.5])
    by (repeat split).
  split; [exact Hw|].
  destruct (solve_without_pass 3 0.125 0.0009765625 0 H_triple [0; 0; 0] [0; 0; 0]
              [1; 1; 1] [2; -1; 0.5] Hw)
    as (s' & pr & Hsolve & Hlen & Hproj & _).
  exists s'.
  destruct pr as [|a [|b [|c [|d pr]]]]; try discriminate.
  pose proof (Hproj 0%nat ltac:(lia) eq_refl eq_refl) as P0.
  pose proof (Hproj 1%nat ltac:(lia) eq_refl eq_refl) as P1.
  pose proof (Hproj 2%nat ltac:(lia) eq_refl eq_refl) as P2.
  cbn [at_ nth] in P0, P1, P2.
  projection_value P0. projection_value P1. projection_value P2.
  exact Hsolve.
Defined.

(** C10 (as stated) fails: with [xinit = [NaN, 2, 0.5]] and the box
    [[0, 1]] on every coordinate, the first coordinate of the returned [x]
    is NaN, which is the point of [[0, 1]] nearest to no value. *)
Lemma solve_without_pass_counterexample :
  Float64.well_sized 3 Float64.H_triple [0; 0; 0] [0; 0; 0] [1; 1; 1] [nan; 2; 0.5]
  /\ Float64.ordered_bounds 3 [0; 0; 0] [1; 1; 1]
  /\ exists s' sol,
      Float64.solve Float64.solver_no_pass Float64.H_triple [0; 0; 0] [0; 0; 0] [1; 1; 1]
                    [nan; 2; 0.5]
      = (s', inr sol)
      /\ Float64.x sol = [nan; 1; 0.5]
      /\ forall v, ~ Float64.projection_of 0 1 v (Float64.Eigen.at_ (Float64.x sol) 0).
Proof.
  split; [repeat split|]. split.
  - intros [|[|[|j]]] Hj; try (vm_compute; reflexivity); lia.
  - eexists. eexists. split; [vm_compute; reflexivity|]. split; [reflexivity|].
    intros v P. apply projection_in_bounds in P; [|vm_compute; reflexivity].
    destruct P as (P & _). vm_compute in P. discriminate.
Qed.

(** X6: a solver with [maxiter_ = 0] makes no pass, so with arguments of
    the right sizes it returns the two lists and the inverse that its
    members hold from before the call, together with an [x] that is, in
    every coordinate [j] with [lb_j <= ub_j] where [xinit] is a number, the
    point of [[lb_j, ub_j]] nearest to [xinit_j], and NaN in every
    coordinate where [xinit] is NaN. *)
Theorem solve_no_pass_returns_members (s : Float64.BoxQP) (H : Float64.Eigen.MatrixXd)
        (q lb ub xinit : Float64.Eigen.VectorXd) :
  Float64.sized s -> Float64.maxiter_ s = 0%nat ->
  Float64.well_sized (Float64.nx_ s) H q lb ub xinit ->
  exists xs,
    snd (Float64.solve s H q lb ub xinit)
    = inr (Float64.mkBoxQPSolution (Float64.Hff_inv_ s) xs (Float64.free_idx_ s)
                                   (Float64.clamped_idx_ s))
    /\ length xs = Float64.nx_ s
    /\ (forall j, (j < Float64.nx_ s)%nat ->
                  (Float64.Eigen.at_ lb j <=? Float64.Eigen.at_ ub j) = true ->
                  is_nan (Float64.Eigen.at_ xinit j) = false ->
                  Float64.projection_of (Float64.Eigen.at_ lb j) (Float64.Eigen.at_ ub j)
                                        (Float64.Eigen.at_ xinit j)
                                        (Float64.Eigen.at_ xs j))
    /\ (forall j, (j < Float64.nx_ s)%nat ->
                  is_nan (Float64.Eigen.at_ xinit j) = true ->
                  is_nan (Float64.Eigen.at_ xs j) = true).
Proof.
  intros Hs Hm Hw.
  destruct (projected_warm_start (nx_ s) lb ub xinit) as (Hlen & Hproj & Hnan).
  exists (map (fun i => clip lb ub i (at_ xinit i)) (seq 0 (nx_ s))).
  split; [|split; [exact Hlen | split; [exact Hproj | exact Hnan]]].
  now rewrite (solve_no_pass s H q lb ub xinit Hs Hm Hw).
Qed.

Lemma solve_no_pass_returns_members_witness :
  Float64.sized Float64.solver_used /\ Float64.maxiter_ Float64.solver_used = 0%nat
  /\ Float64.well_sized 1 Float64.H_single [-4] [0] [1] [-3]
  /\ Float64.free_idx_ Float64.solver_used = []
  /\ Float64.clamped_idx_ Float64.solver_used = [0%nat]
  /\ snd (Float64.solve Float64.solver_used Float64.H_single [-4] [0] [1] [-3])
     = inr (Float64.mkBoxQPSolution (Float64.Hff_inv_ Float64.solver_used) [0] []
                                    [0%nat]).
Proof.
  assert (Hs : sized solver_used) by (repeat split).
  assert (Hw : well_sized (nx_ solver_used) H_single [-4] [0] [1] [-3]) by (repeat split).
  split; [exact Hs|]. split; [reflexivity|]. split; [exact Hw|].
  split; [reflexivity|]. split; [reflexivity|].
  destruct (solve_no_pass_returns_members solver_used H_single [-4] [0] [1] [-3]
              Hs eq_refl Hw) as (xs & Hsolve & Hlen & Hproj & _).
  destruct xs as [|a [|b xs]]; try discriminate.
  pose proof (Hproj 0%nat ltac:(simpl; lia) eq_refl eq_refl) as P0. cbn [at_ nth] in P0.
  projection_value P0. exact Hsolve.
Defined.

(** ** Overflow *)

(** Started at [2^1023] in the box [[-1, 2^1023]], the product [H * x]
    overflows: the gradient is infinite, [fold] and every [fnew] are
    infinite or NaN, and the test of line 173 fails for the ten step
    lengths of each of the ten passes, although the direction [-2^1023]
    leads to the minimizer 0, which is in the box.  [solve] returns
    [xinit]. *)
Example solve_overflow_keeps_iterate :
  exists s' sol,
    Float64.solve Float64.solver_single Float64.H_steep [0] [-1] [Float64.huge]
                  [Float64.huge]
    = (s', inr sol)
    /\ Float64.x sol = [Float64.huge]
    /\ Float64.g_ s' = [infinity]
    /\ Float64.dx_ s' = [- Float64.huge].
Proof.
  eexists. eexists. split; [vm_compute; reflexivity|]. repeat split.
Qed.

End Float64_proofs.
